(** * LinkHints renderer: hint overlay rendering, update, rotation and teardown

    A shallow embedding of [RendererProgram] (src/renderer/Program.js) and of
    its helpers [getStacks], [getStackFor] and [overlaps].  DOM elements are
    heap cells addressed by references, the shadow root is the ordered list
    of its children, the light DOM is a tree of identified elements, and the
    browser's timers and paint callbacks are explicit queues.  JavaScript
    numbers are the rationals they denote; the operations that round their
    result to a double are parameters of the page.  The strings of the
    renderer are well-formed and modelled by their UTF-8 encodings.  The
    module [Keyboard] embeds [normalizeKeypress] and [codeToEnUsQwerty] of
    the keyboard shortcuts, with JavaScript strings as sequences of UTF-16
    code units. *)

From Stdlib Require Import QArith Qround Lqa ZArith Lia Ascii String.
From stdpp Require Import base gmap strings list fin_maps.

Set Warnings "-register-all".

Local Open Scope nat_scope.

(** ** Constants of the module *)

Definition CONTAINER_ID : string := "__SynthWebExt".
Definition HINT_CLASS : string := "hint".
Definition HIDDEN_HINT_CLASS : string := "hidden".
Definition HIGHLIGHTED_HINT_CLASS : string := "highlighted".
Definition MATCHED_CHARS_CLASS : string := "matchedChars".
Definition TEXT_RECT_CLASS : string := "matchedText".
Definition TITLE_CLASS : string := "title".

Definition MAX_IMMEDIATE_HINT_MOVEMENTS : nat := 50.
Definition UNRENDER_DELAY : Z := 200.

Definition MIN_Z_INDEX : Z := -2147483648.
Definition MAX_Z_INDEX : Z := 2147483647.

(** ** Numbers

    A finite JavaScript number is modelled by the rational it denotes.
    Comparison, negation, [Math.ceil] and [Math.round] are exact on doubles
    and are the exact functions below.  Addition, subtraction,
    multiplication and division return the double nearest to the exact
    result: they are the fields [fadd], [fsub], [fmul] and [fdiv] of [Page],
    about which nothing is assumed. *)

Module Math.
(** [Math.ceil]. *)
Definition ceil (x : Q) : Z := Qceiling x.
(** [Math.round]: nearest integer, halves towards plus infinity. *)
Definition round (x : Q) : Z := Qfloor (x + (1 # 2)).
End Math.

Definition Qltb (a b : Q) : bool :=
  (Qnum a * Zpos (Qden b) <? Qnum b * Zpos (Qden a))%Z.
Definition Qleb (a b : Q) : bool :=
  (Qnum a * Zpos (Qden b) <=? Qnum b * Zpos (Qden a))%Z.

Infix "<q" := Qltb (at level 70, no associativity).
Infix "<=q" := Qleb (at level 70, no associativity).

(** ** Geometry *)

(** A [DOMRect], with the six numbers the program reads off it. *)
Record Rect := {
  r_left : Q; r_top : Q; r_right : Q; r_bottom : Q;
  r_width : Q; r_height : Q
}.

Record Viewport := { width : Q; height : Q }.

Record Box := { b_x : Q; b_y : Q; b_width : Q; b_height : Q }.

(** [overlaps]: rectangles intersect, touching edges included. *)
Definition overlaps (rectA rectB : Rect) : bool :=
  (r_left rectB <=q r_right rectA) &&
  (r_left rectA <=q r_right rectB) &&
  (r_top rectB <=q r_bottom rectA) &&
  (r_top rectA <=q r_bottom rectB).

(** ** Inline styles *)

(** The strings the renderer writes into inline styles: the empty string,
    [`${n}px`] with [n] an integer, and [String(n)]. *)
Inductive CssValue :=
  | Empty
  | Px (n : Z)
  | Num (n : Z).

Abbreviation Style := (gmap string CssValue) (only parsing).

(** [style.setProperty(property, value, "important")]: the empty string
    removes the property. *)
Definition setProperty (property : string) (value : CssValue) (st : Style)
  : Style :=
  match value with
  | Empty => delete property st
  | _ => <[property := value]> st
  end.

Definition getPropertyValue (st : Style) (property : string) : CssValue :=
  default Empty (st !! property).

(** ** Elements *)

Abbreviation ref := nat (only parsing).

Inductive Child :=
  | TextNode (data : string)
  | MatchedSpan (data : string).

Record Element := {
  children : list Child;
  classList : gset string;
  style : Style
}.

(** Modelled from the spec: [setStyles] of src/shared/main.js is not among
    the sources.  It assigns every listed property on the element's inline
    style, one property at a time, so that properties that are not listed
    keep their value (styles are merged at the property level). *)
Definition setStyles (element : Element) (styles : list (string * CssValue))
  : Element :=
  {| children := children element;
     classList := classList element;
     style := foldl (fun st pv => setProperty pv.1 pv.2 st)
                (style element) styles |}.

(** [classList.toggle(cls, force)]. *)
Definition toggle (cls : string) (force : bool) (element : Element) : Element :=
  {| children := children element;
     classList := if force then {[cls]} ∪ classList element
                  else classList element ∖ {[cls]};
     style := style element |}.

Definition append (c : Child) (element : Element) : Element :=
  {| children := children element ++ [c];
     classList := classList element;
     style := style element |}.

(** [emptyNode] on a hint element. *)
Definition emptyNode (element : Element) : Element :=
  {| children := [];
     classList := classList element;
     style := style element |}.

Definition createHintElement (hint : string) : Element :=
  {| children := [TextNode hint];
     classList := {[HINT_CLASS]};
     style := ∅ |}.

(** [Number(element.style.zIndex)]. *)
Definition zIndexNumber (element : Element) : Z :=
  match getPropertyValue (style element) "z-index" with
  | Num n => n
  | _ => 0%Z
  end.

(** Children of the shadow root. *)
Inductive RootNode :=
  | RStyle
  | RHint (r : ref)
  | RShruggie
  | RTitle
  | RTextRect (frameId : Z) (box : Box).

(** The light DOM: elements with their [id] attribute. *)
Inductive DocNode :=
  | DocEl (r : ref) (id : string) (kids : list DocNode).

Definition nodeRef (d : DocNode) : ref := let 'DocEl r _ _ := d in r.
Definition nodeId (d : DocNode) : string := let 'DocEl _ i _ := d in i.
Definition nodeKids (d : DocNode) : list DocNode := let 'DocEl _ _ k := d in k.

(** ** Messages *)

Inductive Align := AlignLeft | AlignRight.

Record HintMeasurements := { x : Q; y : Q; align : Align; maxX : Q }.

Record ElementWithHint := { hintMeasurements : HintMeasurements; hint : string }.

Inductive HintUpdate :=
  | Hide (index : nat)
  | Update (index : nat) (matchedChars restChars : string) (highlighted : bool).

Definition index (u : HintUpdate) : nat :=
  match u with Hide i => i | Update i _ _ _ => i end.

Inductive UnrenderMode :=
  | immediate
  | delayed
  | title (text : string).

Inductive ToRenderer :=
  | StateSync
  | Render (elements : list ElementWithHint)
  | UpdateHints (updates : list HintUpdate) (enteredTextChars : string)
  | RotateHints (forward : bool)
  | RenderTextRects (rects : list Box) (frameId : Z)
  | UnrenderTextRects
  | Unrender (mode : UnrenderMode).

Inductive FromBackground :=
  | FirefoxWorkaround
  | ToRendererMsg (message : ToRenderer)
  | ToOther.

Inductive FromRenderer :=
  | RendererScriptAdded
  | Rendered.

(** ** The browser around the program *)

Inductive Browser := chrome | firefox.

Abbreviation TimeoutID := nat (only parsing).

(** The two callbacks the program hands to [setTimeout]. *)
Inductive TimerCallback :=
  | UnrenderCallback
  | TitleCallback.

Record Timer := { timerId : TimeoutID; delay : Z; callback : TimerCallback }.

(** What the program does that is visible from outside its own fields. *)
Inductive Event :=
  | Measured (r : ref) (rect : Rect)
  | MissingChild (update : HintUpdate)
  | Sent (message : FromRenderer).

(** A [render] call suspended at its first [await waitForPaint()]: the
    elements left for the second pass and the viewport it captured. *)
Record Continuation := { restElements : list ref; captured : Viewport }.

(** A [render] call suspended at an [await waitForPaint()]: at the first
    one, with its continuation, or at the second one, the one it takes when
    the second pass moved a node, with only the [Rendered] message left to
    send. *)
Inductive Suspended :=
  | FirstPaint (k : Continuation)
  | SecondPaint.

(** What a call takes from its environment at the moment it runs: the
    browser, the page's layout, and the engine's arithmetic on doubles
    ([a + b], [a - b], [a * b] and [a / b], each rounded to a double). *)
Record Page := {
  BROWSER : Browser;
  styleSheetNull : bool;
  getViewport : Viewport;
  getBoundingClientRect : ref -> Element -> Rect;
  fadd : Q -> Q -> Q;
  fsub : Q -> Q -> Q;
  fmul : Q -> Q -> Q;
  fdiv : Q -> Q -> Q
}.

(** ** State *)

(** The fields of [RendererProgram] that the operations below use
    ([hints] to [parsedCSS]), the DOM they act on ([heap] to [listeners]),
    and the browser's pending timers and paint callbacks. *)
Record World := {
  hints : list ref;
  rects : gmap ref Rect;
  unrenderTimeoutId : option TimeoutID;
  enteredTextChars : string;
  parsedCSS : bool;
  heap : gmap ref Element;
  nextRef : ref;
  root : list RootNode;
  titleText : string;
  document : option DocNode;
  observing : bool;
  listeners : nat;
  timers : list Timer;
  nextTimeoutId : TimeoutID;
  paints : list Suspended;
  trace : list Event
}.

Definition with_hints (v : list ref) (w : World) : World :=
  {| hints := v; rects := rects w; unrenderTimeoutId := unrenderTimeoutId w;
     enteredTextChars := enteredTextChars w; parsedCSS := parsedCSS w; heap :=
     heap w; nextRef := nextRef w; root := root w; titleText := titleText w;
     document := document w; observing := observing w; listeners := listeners
     w; timers := timers w; nextTimeoutId := nextTimeoutId w; paints := paints
     w; trace := trace w |}.

Definition with_rects (v : gmap ref Rect) (w : World) : World :=
  {| hints := hints w; rects := v; unrenderTimeoutId := unrenderTimeoutId w;
     enteredTextChars := enteredTextChars w; parsedCSS := parsedCSS w; heap :=
     heap w; nextRef := nextRef w; root := root w; titleText := titleText w;
     document := document w; observing := observing w; listeners := listeners
     w; timers := timers w; nextTimeoutId := nextTimeoutId w; paints := paints
     w; trace := trace w |}.

Definition with_unrenderTimeoutId (v : option TimeoutID) (w : World) : World :=
  {| hints := hints w; rects := rects w; unrenderTimeoutId := v;
     enteredTextChars := enteredTextChars w; parsedCSS := parsedCSS w; heap :=
     heap w; nextRef := nextRef w; root := root w; titleText := titleText w;
     document := document w; observing := observing w; listeners := listeners
     w; timers := timers w; nextTimeoutId := nextTimeoutId w; paints := paints
     w; trace := trace w |}.

Definition with_enteredTextChars (v : string) (w : World) : World :=
  {| hints := hints w; rects := rects w; unrenderTimeoutId :=
     unrenderTimeoutId w; enteredTextChars := v; parsedCSS := parsedCSS w;
     heap := heap w; nextRef := nextRef w; root := root w; titleText :=
     titleText w; document := document w; observing := observing w; listeners
     := listeners w; timers := timers w; nextTimeoutId := nextTimeoutId w;
     paints := paints w; trace := trace w |}.

Definition with_parsedCSS (v : bool) (w : World) : World :=
  {| hints := hints w; rects := rects w; unrenderTimeoutId :=
     unrenderTimeoutId w; enteredTextChars := enteredTextChars w; parsedCSS :=
     v; heap := heap w; nextRef := nextRef w; root := root w; titleText :=
     titleText w; document := document w; observing := observing w; listeners
     := listeners w; timers := timers w; nextTimeoutId := nextTimeoutId w;
     paints := paints w; trace := trace w |}.

Definition with_heap (v : gmap ref Element) (w : World) : World :=
  {| hints := hints w; rects := rects w; unrenderTimeoutId :=
     unrenderTimeoutId w; enteredTextChars := enteredTextChars w; parsedCSS :=
     parsedCSS w; heap := v; nextRef := nextRef w; root := root w; titleText
     := titleText w; document := document w; observing := observing w;
     listeners := listeners w; timers := timers w; nextTimeoutId :=
     nextTimeoutId w; paints := paints w; trace := trace w |}.

Definition with_nextRef (v : ref) (w : World) : World :=
  {| hints := hints w; rects := rects w; unrenderTimeoutId :=
     unrenderTimeoutId w; enteredTextChars := enteredTextChars w; parsedCSS :=
     parsedCSS w; heap := heap w; nextRef := v; root := root w; titleText :=
     titleText w; document := document w; observing := observing w; listeners
     := listeners w; timers := timers w; nextTimeoutId := nextTimeoutId w;
     paints := paints w; trace := trace w |}.

Definition with_root (v : list RootNode) (w : World) : World :=
  {| hints := hints w; rects := rects w; unrenderTimeoutId :=
     unrenderTimeoutId w; enteredTextChars := enteredTextChars w; parsedCSS :=
     parsedCSS w; heap := heap w; nextRef := nextRef w; root := v; titleText
     := titleText w; document := document w; observing := observing w;
     listeners := listeners w; timers := timers w; nextTimeoutId :=
     nextTimeoutId w; paints := paints w; trace := trace w |}.

Definition with_titleText (v : string) (w : World) : World :=
  {| hints := hints w; rects := rects w; unrenderTimeoutId :=
     unrenderTimeoutId w; enteredTextChars := enteredTextChars w; parsedCSS :=
     parsedCSS w; heap := heap w; nextRef := nextRef w; root := root w;
     titleText := v; document := document w; observing := observing w;
     listeners := listeners w; timers := timers w; nextTimeoutId :=
     nextTimeoutId w; paints := paints w; trace := trace w |}.

Definition with_document (v : option DocNode) (w : World) : World :=
  {| hints := hints w; rects := rects w; unrenderTimeoutId :=
     unrenderTimeoutId w; enteredTextChars := enteredTextChars w; parsedCSS :=
     parsedCSS w; heap := heap w; nextRef := nextRef w; root := root w;
     titleText := titleText w; document := v; observing := observing w;
     listeners := listeners w; timers := timers w; nextTimeoutId :=
     nextTimeoutId w; paints := paints w; trace := trace w |}.

Definition with_observing (v : bool) (w : World) : World :=
  {| hints := hints w; rects := rects w; unrenderTimeoutId :=
     unrenderTimeoutId w; enteredTextChars := enteredTextChars w; parsedCSS :=
     parsedCSS w; heap := heap w; nextRef := nextRef w; root := root w;
     titleText := titleText w; document := document w; observing := v;
     listeners := listeners w; timers := timers w; nextTimeoutId :=
     nextTimeoutId w; paints := paints w; trace := trace w |}.

Definition with_listeners (v : nat) (w : World) : World :=
  {| hints := hints w; rects := rects w; unrenderTimeoutId :=
     unrenderTimeoutId w; enteredTextChars := enteredTextChars w; parsedCSS :=
     parsedCSS w; heap := heap w; nextRef := nextRef w; root := root w;
     titleText := titleText w; document := document w; observing := observing
     w; listeners := v; timers := timers w; nextTimeoutId := nextTimeoutId w;
     paints := paints w; trace := trace w |}.

Definition with_timers (v : list Timer) (w : World) : World :=
  {| hints := hints w; rects := rects w; unrenderTimeoutId :=
     unrenderTimeoutId w; enteredTextChars := enteredTextChars w; parsedCSS :=
     parsedCSS w; heap := heap w; nextRef := nextRef w; root := root w;
     titleText := titleText w; document := document w; observing := observing
     w; listeners := listeners w; timers := v; nextTimeoutId := nextTimeoutId
     w; paints := paints w; trace := trace w |}.

Definition with_nextTimeoutId (v : TimeoutID) (w : World) : World :=
  {| hints := hints w; rects := rects w; unrenderTimeoutId :=
     unrenderTimeoutId w; enteredTextChars := enteredTextChars w; parsedCSS :=
     parsedCSS w; heap := heap w; nextRef := nextRef w; root := root w;
     titleText := titleText w; document := document w; observing := observing
     w; listeners := listeners w; timers := timers w; nextTimeoutId := v;
     paints := paints w; trace := trace w |}.

Definition with_paints (v : list Suspended) (w : World) : World :=
  {| hints := hints w; rects := rects w; unrenderTimeoutId :=
     unrenderTimeoutId w; enteredTextChars := enteredTextChars w; parsedCSS :=
     parsedCSS w; heap := heap w; nextRef := nextRef w; root := root w;
     titleText := titleText w; document := document w; observing := observing
     w; listeners := listeners w; timers := timers w; nextTimeoutId :=
     nextTimeoutId w; paints := v; trace := trace w |}.

Definition with_trace (v : list Event) (w : World) : World :=
  {| hints := hints w; rects := rects w; unrenderTimeoutId :=
     unrenderTimeoutId w; enteredTextChars := enteredTextChars w; parsedCSS :=
     parsedCSS w; heap := heap w; nextRef := nextRef w; root := root w;
     titleText := titleText w; document := document w; observing := observing
     w; listeners := listeners w; timers := timers w; nextTimeoutId :=
     nextTimeoutId w; paints := paints w; trace := v |}.


(** ** The light DOM *)

(** [node.remove()] for the node with reference [r], seen from an ancestor
    [d]: the subtree rooted at [r] leaves [d]. *)
Fixpoint detach (r : ref) (d : DocNode) : DocNode :=
  let 'DocEl r' i kids := d in
  DocEl r' i (filter (fun k => nodeRef k ≠ r) (detach r <$> kids)).

Definition remove (r : ref) (doc : option DocNode) : option DocNode :=
  match doc with
  | Some d => if decide (nodeRef d = r) then None else Some (detach r d)
  | None => None
  end.

(** [querySelectorAll(`#${id}`)] below [d], [d] included, in document
    order. *)
Fixpoint querySelectorAll (id : string) (d : DocNode) : list ref :=
  let 'DocEl r i kids := d in
  (if decide (i = id) then [r] else []) ++
  flat_map (querySelectorAll id) kids.

Definition document_querySelectorAll (id : string) (doc : option DocNode)
  : list ref :=
  match doc with
  | Some d => querySelectorAll id d
  | None => []
  end.

(** The container element owned by the program: created once by the
    constructor, with [id = CONTAINER_ID]; its shadow root is [root]. *)
Definition containerRef : ref := 0.
Definition containerElement : DocNode := DocEl containerRef CONTAINER_ID [].

(** [documentElement.append(container.element)]. *)
Definition appendContainer (doc : option DocNode) : option DocNode :=
  match remove containerRef doc with
  | Some (DocEl r i kids) => Some (DocEl r i (kids ++ [containerElement]))
  | None => None
  end.

(** ** Timers *)

Definition setTimeout (cb : TimerCallback) (ms : Z) (w : World)
  : World * TimeoutID :=
  let id := nextTimeoutId w in
  (with_nextTimeoutId (S id)
     (with_timers (timers w ++ [{| timerId := id; delay := ms; callback := cb |}])
        w),
   id).

Definition clearTimeout (id : TimeoutID) (w : World) : World :=
  with_timers (filter (fun t => timerId t ≠ id) (timers w)) w.

(** ** The shadow root *)

(** [root.append(node)] for a node that exists once ([shruggieElement],
    [titleElement]): it moves to the end when it is already a child. *)
Definition rootAppendUnique (n : RootNode) (isN : RootNode -> bool)
  (w : World) : World :=
  with_root (filter (fun c => negb (isN c)) (root w) ++ [n]) w.

Definition rootRemove (isN : RootNode -> bool) (w : World) : World :=
  with_root (filter (fun c => negb (isN c)) (root w)) w.

Definition isShruggie (n : RootNode) : bool :=
  match n with RShruggie => true | _ => false end.
Definition isTitle (n : RootNode) : bool :=
  match n with RTitle => true | _ => false end.
Definition isHint (r : ref) (n : RootNode) : bool :=
  match n with RHint r' => bool_decide (r' = r) | _ => false end.
Definition isTextRect (frameId : option Z) (n : RootNode) : bool :=
  match n, frameId with
  | RTextRect _ _, None => true
  | RTextRect f _, Some f' => bool_decide (f = f')
  | _, _ => false
  end.

(** ** Operations of [RendererProgram] *)

(** Modelled from the spec: [applyStyles] of src/renderer/css.js is not
    among the sources.  It copies the stylesheet's declarations for the
    element's classes onto the element without touching the inline
    properties the renderer sets itself; the stylesheet declares none of
    [left], [right], [top], [z-index], [margin-right], [margin-top] for hint
    elements, which are the properties a [Style] records. *)
Definition applyStyles (element : Element) : Element := element.

Definition maybeApplyStyles (pg : Page) (r : ref) (w : World) : World :=
  match BROWSER pg, parsedCSS w with
  | firefox, true => with_heap (alter applyStyles r (heap w)) w
  | _, _ => w
  end.

Definition insertShruggie (w : World) : World :=
  rootAppendUnique RShruggie isShruggie w.

Definition removeShruggie (w : World) : World :=
  rootRemove isShruggie w.

Definition insertTitle (text : string) (w : World) : World :=
  rootAppendUnique RTitle isTitle (with_titleText text w).

Definition removeTitle (w : World) : World :=
  rootRemove isTitle w.

Definition renderTextRects (boxes : list Box) (frameId : Z) (w : World)
  : World :=
  with_root (root w ++ map (RTextRect frameId) boxes) w.

Definition unrenderTextRects (frameId : option Z) (w : World) : World :=
  rootRemove (isTextRect frameId) w.

Definition unrender (w : World) : World :=
  let w :=
    match unrenderTimeoutId w with
    | Some id => with_unrenderTimeoutId None (clearTimeout id w)
    | None => w
    end in
  let w := with_hints [] w in
  let w := with_rects ∅ w in
  let w := with_document (remove containerRef (document w)) w in
  let w := with_root [] w in
  let w := with_listeners 0 w in
  let w := with_observing false w in
  let containers := document_querySelectorAll CONTAINER_ID (document w) in
  with_document (foldl (fun doc c => remove c doc) (document w) containers) w.

Definition unrenderDelayed (w : World) : World :=
  match unrenderTimeoutId w with
  | Some _ => w
  | None =>
      let (w, id) := setTimeout UnrenderCallback UNRENDER_DELAY w in
      with_unrenderTimeoutId (Some id) w
  end.

Definition unrenderToTitle (text : string) (w : World) : World :=
  let w :=
    match unrenderTimeoutId w with
    | Some id => clearTimeout id w
    | None => w
    end in
  let w := insertTitle text w in
  let (w, id) := setTimeout TitleCallback UNRENDER_DELAY w in
  with_unrenderTimeoutId (Some id) w.

(** The bodies of the two timer callbacks. *)
Definition runCallback (cb : TimerCallback) (w : World) : World :=
  match cb with
  | UnrenderCallback => unrender (with_unrenderTimeoutId None w)
  | TitleCallback =>
      let w := with_unrenderTimeoutId None w in
      let w := foldl (fun w r => rootRemove (isHint r) w) w (hints w) in
      let w := unrenderTextRects None w in
      let w := with_hints [] w in
      with_rects ∅ w
  end.

(** [document.createElement]: a new heap cell. *)
Definition alloc (element : Element) (w : World) : World * ref :=
  let r := nextRef w in
  (with_nextRef (S r) (with_heap (<[r := element]> (heap w)) w), r).

(** In-place mutation of the element behind a reference. *)
Definition modify (r : ref) (f : Element -> Element) (w : World) : World :=
  with_heap (alter f r (heap w)) w.

(** One iteration of the loop of [moveInsideViewport]. *)
Definition moveOne (pg : Page) (viewport : Viewport) (acc : World * bool)
  (r : ref) : World * bool :=
  let (w, moved) := acc in
  match heap w !! r with
  | None => acc
  | Some element =>
      let rect := getBoundingClientRect pg r element in
      let w := with_rects (<[r := rect]> (rects w)) w in
      let w := with_trace (trace w ++ [Measured r rect]) w in
      let (w, moved) :=
        if r_left rect <q 0 then
          (modify r (fun e =>
             setStyles e [("margin-right", Px (Math.round (r_left rect)))]) w,
           true)
        else (w, moved) in
      let (w, moved) :=
        if r_top rect <q 0 then
          (modify r (fun e =>
             setStyles e [("margin-top", Px (Math.round (- r_top rect)))]) w,
           true)
        else (w, moved) in
      let (w, moved) :=
        if width viewport <q r_right rect then
          (modify r (fun e =>
             setStyles e
               [("margin-right",
                 Px (Math.round (fsub pg (r_right rect) (width viewport))))]) w,
           true)
        else (w, moved) in
      let (w, moved) :=
        if height viewport <q r_bottom rect then
          (modify r (fun e =>
             setStyles e
               [("margin-top",
                 Px (Math.round (fsub pg (height viewport) (r_bottom rect))))]) w,
           true)
        else (w, moved) in
      (w, moved)
  end.

Definition moveInsideViewport (pg : Page) (elements : list ref)
  (viewport : Viewport) (w : World) : World * bool :=
  foldl (moveOne pg viewport) (w, false) elements.

(** The linear width model measured on the two probes. *)
Record Probe := { halfHeight : Z; widthK : Q; widthM : Q }.

Definition measureProbe (pg : Page) (rect1 rect2 : Rect) : Probe :=
  let k := fsub pg (r_width rect2) (r_width rect1) in
  {| halfHeight := Math.ceil (fdiv pg (r_height rect1) 2);
     widthK := k;
     widthM := fsub pg (r_width rect1) k |}.

(** [hint.length]: the number of UTF-16 code units of the string whose
    UTF-8 encoding is [s].  A character of one to three bytes is one code
    unit, a character of four bytes is two; continuation bytes count for
    nothing. *)
Definition codeUnits (c : ascii) : nat :=
  let n := nat_of_ascii c in
  if n <? 128 then 1 else if n <? 192 then 0 else if n <? 240 then 1 else 2.

Fixpoint jsLength (s : string) : nat :=
  match s with
  | EmptyString => 0
  | String c s => codeUnits c + jsLength s
  end.

Definition hintWidth (pg : Page) (p : Probe) (hint : string) : Z :=
  Math.ceil
    (fadd pg (widthM p)
       (fmul pg (widthK p) (inject_Z (Z.of_nat (jsLength hint))))).

Definition isLeft (a : Align) : bool :=
  match a with AlignLeft => true | AlignRight => false end.

Definition alignLeft (pg : Page) (p : Probe) (e : ElementWithHint) : bool :=
  let hm := hintMeasurements e in
  isLeft (align hm) &&
  (fadd pg (x hm) (inject_Z (hintWidth pg p (hint e))) <q maxX hm).

(** The [styles] object built for one hint. *)
Definition hintStyles (pg : Page) (viewport : Viewport) (p : Probe)
  (index : nat)
  (e : ElementWithHint) : list (string * CssValue) :=
  let hm := hintMeasurements e in
  let alignLeft := alignLeft pg p e in
  [ ("left", if alignLeft then Px (Math.round (x hm)) else Empty);
    ("right",
     if alignLeft then Empty
     else Px (Math.round (fsub pg (width viewport) (x hm))));
    ("top", Px (Math.round (y hm)));
    ("z-index", Num (MAX_Z_INDEX - Z.of_nat index)) ].

Definition outsideHorizontally (pg : Page) (viewport : Viewport) (p : Probe)
  (e : ElementWithHint) : bool :=
  let hm := hintMeasurements e in
  let width_ := inject_Z (hintWidth pg p (hint e)) in
  if isLeft (align hm) then (fsub pg (width viewport) (x hm) <=q width_)
  else (x hm <=q width_).

Definition outsideVertically (pg : Page) (viewport : Viewport) (p : Probe)
  (e : ElementWithHint) : bool :=
  let hm := hintMeasurements e in
  (y hm <=q inject_Z (halfHeight p)) ||
  (fsub pg (height viewport) (y hm) <=q inject_Z (halfHeight p)).

(** The variables the [for] loop of [render] carries. *)
Record Loop := {
  world : World;
  edgeElements : list ref;
  restOfElements : list ref;
  numEdgeElements : nat
}.

Definition renderOne (pg : Page) (viewport : Viewport) (p : Probe)
  (index : nat) (e : ElementWithHint) (l : Loop) : Loop :=
  let (w, element) := alloc (createHintElement (hint e)) (world l) in
  let w := modify element (fun el => setStyles el (hintStyles pg viewport p index e)) w in
  let w := with_root (root w ++ [RHint element]) w in
  let w := with_hints (hints w ++ [element]) w in
  let w := maybeApplyStyles pg element w in
  if (numEdgeElements l <? MAX_IMMEDIATE_HINT_MOVEMENTS) &&
     (outsideHorizontally pg viewport p e || outsideVertically pg viewport p e)
  then
    let edge := edgeElements l ++ [element] in
    {| world := w; edgeElements := edge;
       restOfElements := restOfElements l;
       numEdgeElements := length edge |}
  else
    {| world := w; edgeElements := edgeElements l;
       restOfElements := restOfElements l ++ [element];
       numEdgeElements := numEdgeElements l |}.

Fixpoint renderLoop (pg : Page) (viewport : Viewport) (p : Probe)
  (index : nat) (elements : list ElementWithHint) (l : Loop) : Loop :=
  match elements with
  | [] => l
  | e :: elements =>
      renderLoop pg viewport p (S index) elements
        (renderOne pg viewport p index e l)
  end.

(** The two probes: created, appended, measured and removed again. *)
Definition probe (pg : Page) (w : World) : World * Probe :=
  let (w, probe1) := alloc (createHintElement "W") w in
  let (w, probe2) := alloc (createHintElement "WW") w in
  let w := with_root (root w ++ [RHint probe1]) w in
  let w := with_root (root w ++ [RHint probe2]) w in
  let w := maybeApplyStyles pg probe1 w in
  let w := maybeApplyStyles pg probe2 w in
  let rect1 :=
    getBoundingClientRect pg probe1
      (default (createHintElement "W") (heap w !! probe1)) in
  let rect2 :=
    getBoundingClientRect pg probe2
      (default (createHintElement "WW") (heap w !! probe2)) in
  let w := rootRemove (isHint probe1) w in
  let w := rootRemove (isHint probe2) w in
  (w, measureProbe pg rect1 rect2).

(** The "prepare" phase of [render], entered when the document has a root
    element: the previous render is torn down, the stylesheet is inserted
    (and parsed when the browser blocks it), the container is attached and
    observed.  The container's own inline style, which [updateContainer]
    writes, and the time tracker are outside the modelled state: no
    operation below reads them. *)
Definition prepare (pg : Page) (w : World) : World :=
  let w := unrender w in
  let w :=
    if parsedCSS w then w
    else
      let w := with_root (root w ++ [RStyle]) w in
      match BROWSER pg with
      | firefox => if styleSheetNull pg then with_parsedCSS true w else w
      | chrome => w
      end in
  let w := with_document (appendContainer (document w)) w in
  let w := with_observing true w in
  with_listeners (listeners w + 2) w.

(** The state in which the loop of [render] starts. *)
Definition startLoop (w : World) : Loop :=
  {| world := w; edgeElements := []; restOfElements := [];
     numEdgeElements := 0 |}.

(** [render] up to its first [await waitForPaint()].  The result carries
    the continuation when the call reaches that point. *)
Definition renderStart (pg : Page) (elements : list ElementWithHint)
  (w : World) : World * option Continuation :=
  match document w with
  | None => (w, None)
  | Some _ =>
      let w := prepare pg w in
      let viewport := getViewport pg in
      match elements with
      | [] => (insertShruggie w, None)
      | _ =>
          let (w, p) := probe pg w in
          let l := renderLoop pg viewport p 0 elements (startLoop w) in
          let w :=
            if 0 <? numEdgeElements l
            then (moveInsideViewport pg (edgeElements l) viewport (world l)).1
            else world l in
          (w, Some {| restElements := restOfElements l; captured := viewport |})
      end
  end.

(** What a suspended [render] does when the browser has painted and resumes
    it.  From the first paint on it runs the second pass and, if that moved
    a node, suspends again; otherwise, and from the second paint on, it
    sends [Rendered]. *)
Definition resume (pg : Page) (s : Suspended) (w : World) : World :=
  match s with
  | FirstPaint k =>
      let (w, moved) :=
        moveInsideViewport pg (restElements k) (captured k) w in
      if moved then with_paints (paints w ++ [SecondPaint]) w
      else with_trace (trace w ++ [Sent Rendered]) w
  | SecondPaint => with_trace (trace w ++ [Sent Rendered]) w
  end.

(** [render] from the first paint to its end, when nothing is handled
    while it waits for the second paint. *)
Definition renderFinish (pg : Page) (k : Continuation) (w : World) : World :=
  let (w, moved) := moveInsideViewport pg (restElements k) (captured k) w in
  with_trace (trace w ++ [Sent Rendered]) w.

(** A [render] call that nothing interleaves with: both passes see the same
    page. *)
Definition render (pg : Page) (elements : list ElementWithHint) (w : World)
  : World :=
  match renderStart pg elements w with
  | (w, Some k) => renderFinish pg k w
  | (w, None) => w
  end.

(** ** Strings

    A JavaScript string, taken to be well-formed UTF-16, is modelled by its
    UTF-8 encoding. *)

(** The replacement [s.replace(/\s/g, "\u00a0")] that [updateHints] applies
    to the title.  [\s] matches the characters U+0009 to U+000D, U+0020,
    U+00A0, U+1680, U+2000 to U+200A, U+2028, U+2029, U+202F, U+205F, U+3000
    and U+FEFF; they are recognised by their encodings of one, two and three
    bytes. *)
Definition isWhitespace (c : ascii) : bool :=
  let n := nat_of_ascii c in
  bool_decide (n = 32 ∨ (9 ≤ n ∧ n ≤ 13)).

Definition isWhitespace2 (c1 c2 : ascii) : bool :=
  bool_decide (nat_of_ascii c1 = 194 ∧ nat_of_ascii c2 = 160).

Definition isWhitespace3 (c1 c2 c3 : ascii) : bool :=
  let n1 := nat_of_ascii c1 in
  let n2 := nat_of_ascii c2 in
  let n3 := nat_of_ascii c3 in
  bool_decide
    ((n1 = 225 ∧ n2 = 154 ∧ n3 = 128) ∨
     (n1 = 226 ∧ n2 = 128 ∧
      ((128 ≤ n3 ∧ n3 ≤ 138) ∨ n3 = 168 ∨ n3 = 169 ∨ n3 = 175)) ∨
     (n1 = 226 ∧ n2 = 129 ∧ n3 = 159) ∨
     (n1 = 227 ∧ n2 = 128 ∧ n3 = 128) ∨
     (n1 = 239 ∧ n2 = 187 ∧ n3 = 191)).

(** U+00A0. *)
Definition nbsp : string :=
  String (ascii_of_nat 194) (String (ascii_of_nat 160) EmptyString).

Fixpoint replaceWhitespace (s : string) : string :=
  match s with
  | EmptyString => EmptyString
  | String c1 s1 =>
      if isWhitespace c1 then nbsp +:+ replaceWhitespace s1
      else
        match s1 with
        | String c2 s2 =>
            if isWhitespace2 c1 c2 then nbsp +:+ replaceWhitespace s2
            else
              match s2 with
              | String c3 s3 =>
                  if isWhitespace3 c1 c2 c3
                  then nbsp +:+ replaceWhitespace s3
                  else String c1 (replaceWhitespace s1)
              | EmptyString => String c1 (replaceWhitespace s1)
              end
        | EmptyString => String c1 (replaceWhitespace s1)
        end
  end.

Definition isHide (u : HintUpdate) : bool :=
  match u with Hide _ => true | Update _ _ _ _ => false end.

(** The variables the [for] loop of [updateHints] carries. *)
Record Updating := {
  current : World;
  numHidden : nat;
  maybeNeedsMoveInsideViewport : list ref
}.

Definition updateOne (pg : Page) (enteredText : string) (a : Updating)
  (update : HintUpdate) : Updating :=
  let w := current a in
  match hints w !! index update with
  | None =>
      {| current := with_trace (trace w ++ [MissingChild update]) w;
         numHidden := numHidden a;
         maybeNeedsMoveInsideViewport := maybeNeedsMoveInsideViewport a |}
  | Some child =>
      let w := modify child (toggle HIDDEN_HINT_CLASS (isHide update)) w in
      match update with
      | Hide _ =>
          {| current := maybeApplyStyles pg child w;
             numHidden := S (numHidden a);
             maybeNeedsMoveInsideViewport := maybeNeedsMoveInsideViewport a |}
      | Update _ matchedChars restChars highlighted =>
          let w := modify child emptyNode w in
          let (w, queue) :=
            if decide (matchedChars ≠ "") then
              (modify child (append (MatchedSpan matchedChars)) w,
               maybeNeedsMoveInsideViewport a)
            else if decide (enteredText ≠ enteredTextChars w) then
              (modify child (fun e =>
                 setStyles e [("margin-right", Empty); ("margin-top", Empty)]) w,
               maybeNeedsMoveInsideViewport a ++ [child])
            else (w, maybeNeedsMoveInsideViewport a) in
          let w := modify child (toggle HIGHLIGHTED_HINT_CLASS highlighted) w in
          let w := modify child (append (TextNode restChars)) w in
          {| current := maybeApplyStyles pg child w;
             numHidden := numHidden a;
             maybeNeedsMoveInsideViewport := queue |}
      end
  end.

Definition updateLoop (pg : Page) (enteredText : string)
  (updates : list HintUpdate) (w : World) : Updating :=
  foldl (updateOne pg enteredText)
    {| current := w; numHidden := 0; maybeNeedsMoveInsideViewport := [] |}
    updates.

Definition updateHints (pg : Page) (updates : list HintUpdate)
  (enteredText : string) (w : World) : World :=
  let a := updateLoop pg enteredText updates w in
  let w := current a in
  let w :=
    if decide (numHidden a = length (hints w)) then insertShruggie w
    else removeShruggie w in
  let w :=
    if decide (enteredText = "") then removeTitle w
    else insertTitle (replaceWhitespace enteredText) w in
  let w :=
    match maybeNeedsMoveInsideViewport a with
    | [] => w
    | queue => (moveInsideViewport pg queue (getViewport pg) w).1
    end in
  with_enteredTextChars enteredText w.

(** ** Overlap stacks *)

(** [rects.get(element) || element.getBoundingClientRect()]. *)
Definition rectFor (pg : Page) (w : World) (element : ref) : Rect :=
  match rects w !! element with
  | Some rect => rect
  | None =>
      getBoundingClientRect pg element
        (default (createHintElement "") (heap w !! element))
  end.

(** The [while] loop of [getStackFor], with the array [elements] threaded
    through the recursive call that mutates it.  [fuel] bounds the number
    of nested iterations. *)
Fixpoint getStackLoop (fuel : nat) (rectOf : ref -> Rect) (element : ref)
  (elements : list ref) (index : nat) (stack : list ref)
  : option (list ref * list ref) :=
  match fuel with
  | 0 => None
  | S fuel =>
      match elements !! index with
      | None => Some (stack, elements)
      | Some nextElement =>
          if overlaps (rectOf nextElement) (rectOf element) then
            let elements := delete index elements in
            match getStackLoop fuel rectOf nextElement elements 0 [nextElement] with
            | Some (sub, elements) =>
                getStackLoop fuel rectOf element elements index (stack ++ sub)
            | None => None
            end
          else getStackLoop fuel rectOf element elements (S index) stack
      end
  end.

Definition stackFuel (n index : nat) : nat := S (S n * S n - min index n).

Definition getStackFor (rectOf : ref -> Rect) (element : ref)
  (elements : list ref) : option (list ref * list ref) :=
  getStackLoop (stackFuel (length elements) 0) rectOf element elements 0
    [element].

(** [elements.pop()]. *)
Definition pop (elements : list ref) : option (ref * list ref) :=
  match last elements with
  | Some element => Some (element, removelast elements)
  | None => None
  end.

Fixpoint getStacksLoop (fuel : nat) (rectOf : ref -> Rect)
  (elements : list ref) (stacks : list (list ref))
  : option (list (list ref)) :=
  match fuel with
  | 0 => None
  | S fuel =>
      match pop elements with
      | None => Some stacks
      | Some (element, elements) =>
          match getStackFor rectOf element elements with
          | Some (stack, elements) =>
              getStacksLoop fuel rectOf elements (stacks ++ [stack])
          | None => None
          end
      end
  end.

Definition getStacks (rectOf : ref -> Rect) (originalElements : list ref)
  : option (list (list ref)) :=
  getStacksLoop (S (length originalElements)) rectOf originalElements [].

(** ** Rotation *)

(** [Array.prototype.sort] with a comparison function, as a stable
    insertion sort. *)
Fixpoint insertBy {A} (compareFn : A -> A -> Z) (a : A) (l : list A) : list A :=
  match l with
  | [] => [a]
  | b :: l' =>
      if (compareFn a b <=? 0)%Z then a :: l
      else b :: insertBy compareFn a l'
  end.

Definition sortBy {A} (compareFn : A -> A -> Z) (l : list A) : list A :=
  foldr (insertBy compareFn) [] l.

Definition zIndexOf (w : World) (r : ref) : Z :=
  zIndexNumber (default (createHintElement "") (heap w !! r)).

Definition zIndexText (w : World) (r : ref) : CssValue :=
  getPropertyValue (style (default (createHintElement "") (heap w !! r)))
    "z-index".

(** The body of the loop of [rotateHints] for one stack of at least two
    elements. *)
Definition rotateStack (sign : Z) (stack : list ref) (w : World) : World :=
  let stack := sortBy (fun a b => ((zIndexOf w a - zIndexOf w b) * sign)%Z) stack in
  match map (zIndexText w) stack with
  | [] => w
  | first :: rest =>
      let zIndexes := rest ++ [first] in
      foldl (fun w ez => modify ez.1 (fun e => setStyles e [("z-index", ez.2)]) w)
        w (zip stack zIndexes)
  end.

Definition rotateHints (forward : bool) (pg : Page) (w : World) : World :=
  let sign := if forward then 1%Z else 1%Z in
  let stacks := default [] (getStacks (rectFor pg w) (hints w)) in
  foldl (fun w' stack =>
           if 2 <=? length stack then rotateStack sign stack w' else w')
    w stacks.

(** ** Dispatch and the event loop *)

(** The state the constructor leaves, on a page whose light DOM is [doc]. *)
Definition initial (doc : option DocNode) : World :=
  {| hints := []; rects := ∅; unrenderTimeoutId := None;
     enteredTextChars := ""; parsedCSS := false;
     heap := ∅; nextRef := 1; root := []; titleText := "";
     document := doc; observing := false; listeners := 0;
     timers := []; nextTimeoutId := 0; paints := []; trace := [] |}.

Definition sendMessage (message : FromRenderer) (w : World) : World :=
  with_trace (trace w ++ [Sent message]) w.

(** [onMessage]: [Render] runs up to its first suspension point and leaves
    its continuation with the browser. *)
Definition onMessage (pg : Page) (wrappedMessage : FromBackground) (w : World)
  : World :=
  match wrappedMessage with
  | FirefoxWorkaround => sendMessage RendererScriptAdded w
  | ToOther => w
  | ToRendererMsg message =>
      match message with
      | StateSync => w
      | Render elements =>
          match renderStart pg elements w with
          | (w, Some k) => with_paints (paints w ++ [FirstPaint k]) w
          | (w, None) => w
          end
      | UpdateHints updates enteredText => updateHints pg updates enteredText w
      | RotateHints forward => rotateHints forward pg w
      | RenderTextRects boxes frameId =>
          renderTextRects boxes frameId (unrenderTextRects (Some frameId) w)
      | UnrenderTextRects => unrenderTextRects None w
      | Unrender mode =>
          match mode with
          | immediate => unrender w
          | delayed => unrenderDelayed w
          | title text => unrenderToTitle text w
          end
      end
  end.

(** [stop]. *)
Definition stop (w : World) : World := unrender w.

(** One turn of the event loop: a message arrives, a pending timer fires, or
    the browser paints and resumes the oldest suspended [render]. *)
Inductive step : World -> World -> Prop :=
  | step_message pg m w :
      step w (onMessage pg m w)
  | step_timer t w :
      t ∈ timers w ->
      step w (runCallback (callback t)
                (with_timers (filter (fun t' => timerId t' ≠ timerId t) (timers w)) w))
  | step_paint pg s ss w :
      paints w = s :: ss ->
      step w (resume pg s (with_paints ss w))
  | step_stop w :
      step w (stop w).

Inductive reachable : World -> Prop :=
  | reachable_start doc : reachable (unrender (initial doc))
  | reachable_step w w' : reachable w -> step w w' -> reachable w'.

(** * Specification vocabulary *)

(** The property read off [getBoundingClientRect] by [moveInsideViewport]:
    some edge of the rectangle is outside the viewport. *)
Definition crossed (viewport : Viewport) (rect : Rect) : bool :=
  (r_left rect <q 0) || (r_top rect <q 0) ||
  (width viewport <q r_right rect) || (height viewport <q r_bottom rect).

(** The margins [moveInsideViewport] writes for a measured rectangle, in the
    order of its four tests. *)
Definition correction (pg : Page) (viewport : Viewport) (rect : Rect)
  : list (string * CssValue) :=
  (if r_left rect <q 0
   then [("margin-right", Px (Math.round (r_left rect)))] else []) ++
  (if r_top rect <q 0
   then [("margin-top", Px (Math.round (- r_top rect)))] else []) ++
  (if width viewport <q r_right rect
   then [("margin-right", Px (Math.round (fsub pg (r_right rect) (width viewport))))]
   else []) ++
  (if height viewport <q r_bottom rect
   then [("margin-top", Px (Math.round (fsub pg (height viewport) (r_bottom rect))))]
   else []).

(** The state [moveInsideViewport] leaves after measuring [rect] on the
    element [e] behind [r]. *)
Definition afterMove (pg : Page) (viewport : Viewport) (r : ref) (e : Element)
  (rect : Rect) (w : World) : World :=
  with_heap (<[r := setStyles e (correction pg viewport rect)]> (heap w))
    (with_trace (trace w ++ [Measured r rect])
       (with_rects (<[r := rect]> (rects w)) w)).

(** The fields no pass of [moveInsideViewport] writes. *)
Definition frame (w : World) :=
  (hints w, unrenderTimeoutId w, enteredTextChars w, parsedCSS w, nextRef w,
   root w, titleText w, document w, observing w, listeners w, timers w,
   nextTimeoutId w, paints w).

(** Two states of an element that differ at most in the two margins. *)
Definition sameOutsideMargins (e e' : Element) : Prop :=
  children e' = children e ∧ classList e' = classList e ∧
  ∀ p, p ≠ "margin-right" → p ≠ "margin-top" → style e' !! p = style e !! p.

Definition heapsOutsideMargins (w w' : World) : Prop :=
  ∀ r, option_Forall2 sameOutsideMargins (heap w !! r) (heap w' !! r).

(** The element [render] creates for the [index]-th target. *)
Definition hintElement (pg : Page) (viewport : Viewport) (p : Probe)
  (index : nat)
  (e : ElementWithHint) : Element :=
  setStyles (createHintElement (hint e)) (hintStyles pg viewport p index e).

(** The light DOM after [unrender]: the program's container is detached,
    then every element carrying the container's identifier. *)
Definition removeContainers (doc : option DocNode) : option DocNode :=
  let doc := remove containerRef doc in
  foldl (fun doc c => remove c doc) doc
    (document_querySelectorAll CONTAINER_ID doc).

(** The pending timers after [unrender] cleared its own. *)
Definition cancelPending (w : World) : list Timer :=
  match unrenderTimeoutId w with
  | Some id => filter (fun t => timerId t ≠ id) (timers w)
  | None => timers w
  end.

(** The world in which the loop of [render] ends, for a non-empty list. *)
Definition loopEnd (pg : Page) (elements : list ElementWithHint) (w : World)
  : World :=
  let wp := probe pg (prepare pg w) in
  world (renderLoop pg (getViewport pg) wp.2 0 elements (startLoop wp.1)).

(** The width model [render] measures in state [w]. *)
Definition probed (pg : Page) (w : World) : Probe :=
  (probe pg (prepare pg w)).2.

(** What claim C1 asks of the state after [render]: one hint node per
    target, with pairwise different stacking indices that decrease along
    the list. *)
Definition rendered (elements : list ElementWithHint) (w : World) : Prop :=
  length (hints w) = length elements ∧
  NoDup (hints w) ∧
  (∀ r, r ∈ hints w → ∃ el, heap w !! r = Some el ∧ HINT_CLASS ∈ classList el) ∧
  NoDup (zIndexOf w <$> hints w) ∧
  (∀ i r r', hints w !! i = Some r → hints w !! S i = Some r' →
     (zIndexOf w r' < zIndexOf w r)%Z).

(** ** A model of the browser's layout of hint elements

    The container covers the viewport and hint elements are absolutely
    positioned in it, shrink to fit their text and are shifted up by half
    their height ([transform: translateY(-50%)]).  A box positioned by
    [left] starts there; a box positioned by [right] ends at that distance
    from the container's right edge, less its [margin-right]; [margin-top]
    adds to [top]. *)
Definition pxOf (v : CssValue) : Q :=
  match v with Px n => inject_Z n | _ => 0%Q end.

Definition cssLayout (container : Viewport) (size : list Child -> Q * Q)
  (r : ref) (e : Element) : Rect :=
  let st := style e in
  let (w, h) := size (children e) in
  let top :=
    (pxOf (getPropertyValue st "top") +
     pxOf (getPropertyValue st "margin-top") - h / 2)%Q in
  let left :=
    match st !! "left", st !! "right" with
    | Some l, _ => pxOf l
    | None, Some rr =>
        (width container - pxOf rr -
         pxOf (getPropertyValue st "margin-right") - w)%Q
    | None, None => 0%Q
    end in
  {| r_left := left; r_top := top;
     r_right := (left + w)%Q; r_bottom := (top + h)%Q;
     r_width := w; r_height := h |}.

(** ** Concrete pages and targets *)

Module Example.

Definition textLength (c : Child) : nat :=
  match c with TextNode s => jsLength s | MatchedSpan s => jsLength s end.

(** Boxes of 5 + 6 pixels per character by 18 pixels. *)
Definition size (cs : list Child) : Q * Q :=
  (inject_Z (5 + 6 * Z.of_nat (foldr (fun c n => textLength c + n) 0 cs)),
   inject_Z 18).

Definition viewport : Viewport :=
  {| width := inject_Z 1000; height := inject_Z 800 |}.

Definition page : Page :=
  {| BROWSER := chrome; styleSheetNull := false; getViewport := viewport;
     getBoundingClientRect := cssLayout viewport size;
     fadd := Qplus; fsub := Qminus; fmul := Qmult; fdiv := Qdiv |}.

Definition target (x_ y_ : Z) (label : string) : ElementWithHint :=
  {| hintMeasurements :=
       {| x := inject_Z x_; y := inject_Z y_; align := AlignLeft;
          maxX := inject_Z 900 |};
     hint := label |}.

(** A page with a body and a container left behind by an earlier
    instance. *)
Definition doc : option DocNode :=
  Some (DocEl 100 "" [DocEl 101 "" []; DocEl 102 CONTAINER_ID []]).

Definition start : World := unrender (initial doc).

End Example.

(** Every element of a tree, with its [id]. *)
Fixpoint allNodes (d : DocNode) : list (ref * string) :=
  let 'DocEl r i kids := d in (r, i) :: flat_map allNodes kids.

Definition docNodes (doc : option DocNode) : list (ref * string) :=
  match doc with
  | Some d => allNodes d
  | None => []
  end.

(** A page without any container. *)
Definition cleanDoc : option DocNode :=
  Some (DocEl 100 "" [DocEl 101 "" []]).

(** The deferred-teardown state: the timer the program remembers, the
    browser's pending timers and the next identifier it hands out. *)
Definition timing (w : World) := (unrenderTimeoutId w, timers w, nextTimeoutId w).

(** The program's timer, when it remembers one, is the only pending timer
    and there is none otherwise; identifiers of pending timers are used
    up. *)
Definition onePending (w : World) : Prop :=
  match unrenderTimeoutId w with
  | None => timers w = []
  | Some id => ∃ t, timers w = [t] ∧ timerId t = id
  end ∧
  ∀ t, t ∈ timers w → timerId t < nextTimeoutId w.

(** The entries [updateHints] logs for a batch. *)
Definition missing (w : World) (updates : list HintUpdate) : list Event :=
  MissingChild <$> filter (fun u => hints w !! index u = None) updates.

(** The fields that creating, styling and rotating hint elements leave
    alone. *)
Definition static (w : World) :=
  (rects w, unrenderTimeoutId w, enteredTextChars w, parsedCSS w, titleText w,
   document w, observing w, listeners w, timers w, nextTimeoutId w, paints w,
   trace w).

(** The example page after a title teardown was requested. *)
Definition titled : World := unrenderToTitle "Example" Example.start.

(** The placeholder is among the children of the shadow root. *)
Definition placeholderShown (w : World) : Prop := RShruggie ∈ root w.

(** The number [updateHints] compares with the number of hints: the [Hide]
    updates of the batch that address an existing hint. *)
Definition hiddenCount (w : World) (updates : list HintUpdate) : nat :=
  length (filter (fun u => isHide u = true ∧ is_Some (hints w !! index u))
            updates).

(** A state without its log. *)
Definition untrace (w : World) : World := with_trace [] w.


Definition isMeasured (ev : Event) : Prop :=
  match ev with Measured _ _ => True | _ => False end.

(** The example page with two hints rendered. *)
Definition twoHints : World :=
  render Example.page [Example.target 10 10 "A"; Example.target 20 40 "B"]
    Example.start.

(** The example page after a batch hid both hints. *)
Definition allHidden : World :=
  updateHints Example.page [Hide 0; Hide 1] "a" twoHints.

(** The example page after a batch hid the second hint only. *)
Definition oneHidden : World :=
  updateHints Example.page [Hide 1] "a" twoHints.

(** A hint element that does not carry the hidden class. *)
Definition visible (w : World) (r : ref) : Prop :=
  ∃ el, heap w !! r = Some el ∧ HIDDEN_HINT_CLASS ∉ classList el.

(** Two [Render] messages handled before the browser paints, the first for
    two targets and the second for one. *)
Definition renderedTwice : World :=
  onMessage Example.page (ToRendererMsg (Render [Example.target 30 70 "C"]))
    (onMessage Example.page
       (ToRendererMsg
          (Render [Example.target 10 10 "A"; Example.target 20 40 "B"]))
       Example.start).

(** The state in which the first of the two [render] calls completes: the
    browser paints and resumes it. *)
Definition overtaken : World :=
  match paints renderedTwice with
  | s :: ss => resume Example.page s (with_paints ss renderedTwice)
  | [] => renderedTwice
  end.

(** What [updateHints] does once its loop is over. *)
Definition finishUpdate (pg : Page) (enteredText : string) (a : Updating)
  : World :=
  let w := current a in
  let w :=
    if decide (numHidden a = length (hints w)) then insertShruggie w
    else removeShruggie w in
  let w :=
    if decide (enteredText = "") then removeTitle w
    else insertTitle (replaceWhitespace enteredText) w in
  let w :=
    match maybeNeedsMoveInsideViewport a with
    | [] => w
    | queue => (moveInsideViewport pg queue (getViewport pg) w).1
    end in
  with_enteredTextChars enteredText w.

(** The rectangle the most recent pass of [moveInsideViewport] over [r]
    measured, read off the log. *)
Fixpoint lastMeasured (r : ref) (tr : list Event) : option Rect :=
  match tr with
  | [] => None
  | ev :: tr =>
      match lastMeasured r tr with
      | Some rect => Some rect
      | None =>
          match ev with
          | Measured r' rect => if decide (r' = r) then Some rect else None
          | _ => None
          end
      end
  end.

(** Every cached rectangle is the one the most recent pass over its node
    measured. *)
Definition cacheCurrent (w : World) : Prop :=
  ∀ r rect, rects w !! r = Some rect → lastMeasured r (trace w) = Some rect.

(** [element.getBoundingClientRect()] in state [w]. *)
Definition liveRect (pg : Page) (w : World) (r : ref) : Rect :=
  getBoundingClientRect pg r (default (createHintElement "") (heap w !! r)).

(** A page laid out by [cssLayout]. *)
Definition cssPage (viewport : Viewport) (size : list Child -> Q * Q) : Page :=
  {| BROWSER := chrome; styleSheetNull := false; getViewport := viewport;
     getBoundingClientRect := cssLayout viewport size;
     fadd := Qplus; fsub := Qminus; fmul := Qmult; fdiv := Qdiv |}.

(** One iteration of the loop of [moveInsideViewport] on the element [e]
    behind [r]: the margins for the rectangle measured on it. *)
Definition moveElement (pg : Page) (viewport : Viewport) (r : ref)
  (e : Element) : Element :=
  setStyles e (correction pg viewport (getBoundingClientRect pg r e)).

(** How often a node occurs in the array passed to
    [moveInsideViewport]. *)
Definition occurrences (r : ref) (elements : list ref) : nat :=
  length (filter (λ r', r' = r) elements).

(** A hint element as [render] creates it when it aligns it to the right:
    positioned by [right], without a [margin-right]. *)
Definition rightAnchored (e : Element) : Prop :=
  style e !! "left" = None ∧ is_Some (style e !! "right") ∧
  style e !! "margin-right" = None.

(** The engine's subtraction gives the exact difference of [a] and [b]. *)
Definition exactSub (pg : Page) (a b : Q) : Prop :=
  (fsub pg a b == a - b)%Q.

(** Two numbers at most half a pixel apart. *)
Definition halfPixel (a b : Q) : Prop :=
  (b - (1 # 2) <= a ∧ a <= b + (1 # 2))%Q.

(** What claim C2 asks of a corrected node: on every edge that was outside
    the viewport, the rectangle is inside afterwards. *)
Definition insideOnCrossedEdges (viewport : Viewport) (before after : Rect)
  : Prop :=
  ((r_left before < 0 → 0 <= r_left after) ∧
   (r_top before < 0 → 0 <= r_top after) ∧
   (width viewport < r_right before → r_right after <= width viewport) ∧
   (height viewport < r_bottom before → r_bottom after <= height viewport))%Q.

(** Claim C2 for the nodes [elements] of state [w], on a page laid out by
    [cssLayout]. *)
Definition insideAfterMove (size : list Child -> Q * Q) (viewport : Viewport)
  (elements : list ref) (w : World) : Prop :=
  ∀ r e e',
    r ∈ elements → heap w !! r = Some e →
    heap (moveInsideViewport (cssPage viewport size) elements viewport w).1 !! r
      = Some e' →
    insideOnCrossedEdges viewport
      (cssLayout viewport size r e) (cssLayout viewport size r e').

(** [insideOnCrossedEdges], decided. *)
Definition insideOnCrossedEdgesb (viewport : Viewport) (before after : Rect)
  : bool :=
  implb (r_left before <q 0) (0 <=q r_left after) &&
  implb (r_top before <q 0) (0 <=q r_top after) &&
  implb (width viewport <q r_right before) (r_right after <=q width viewport) &&
  implb (height viewport <q r_bottom before)
    (r_bottom after <=q height viewport).

(** A number of whole pixels. *)
Definition wholePixels (q : Q) : Prop := ∃ k, (q == inject_Z k)%Q.

(** The margins a node carries after a pass that measured [rect] on it. *)
Definition marginRightAfter (pg : Page) (viewport : Viewport) (rect : Rect)
  (e : Element)
  : option CssValue :=
  if width viewport <q r_right rect
  then Some (Px (Math.round (fsub pg (r_right rect) (width viewport))))
  else if r_left rect <q 0 then Some (Px (Math.round (r_left rect)))
  else style e !! "margin-right".

Definition marginTopAfter (pg : Page) (viewport : Viewport) (rect : Rect)
  (e : Element)
  : option CssValue :=
  if height viewport <q r_bottom rect
  then Some (Px (Math.round (fsub pg (height viewport) (r_bottom rect))))
  else if r_top rect <q 0 then Some (Px (Math.round (- r_top rect)))
  else style e !! "margin-top".

(** Where the layout model puts a node, measured at [rect], after the
    iteration: the bottom edge, if it was outside, and else the top edge, if
    it was outside, ends within half a pixel of the viewport's bound, and
    on the bound when the overshoot was whole pixels.  The overshoot at the
    bottom is the one the engine's subtraction computes. *)
Definition pulledBackVertically (pg : Page) (viewport : Viewport)
  (rect rect' : Rect) : Prop :=
  ((height viewport < r_bottom rect →
    exactSub pg (height viewport) (r_bottom rect) →
      halfPixel (r_bottom rect') (height viewport) ∧
      (wholePixels (height viewport - r_bottom rect) →
       r_bottom rect' == height viewport)) ∧
   (r_bottom rect <= height viewport → r_top rect < 0 →
      halfPixel (r_top rect') 0 ∧
      (wholePixels (r_top rect) → r_top rect' == 0)))%Q.

(** The same for the right edge and, if that was inside, the left edge. *)
Definition pulledBackHorizontally (pg : Page) (viewport : Viewport)
  (rect rect' : Rect) : Prop :=
  ((width viewport < r_right rect →
    exactSub pg (r_right rect) (width viewport) →
      halfPixel (r_right rect') (width viewport) ∧
      (wholePixels (r_right rect - width viewport) →
       r_right rect' == width viewport)) ∧
   (r_right rect <= width viewport → r_left rect < 0 →
      halfPixel (r_left rect') 0 ∧
      (wholePixels (r_left rect) → r_left rect' == 0)))%Q.

Module HalfPixel.
(** Boxes 11 pixels wide and 16.5 pixels high. *)
Definition size (cs : list Child) : Q * Q := (inject_Z 11, 33 # 2).

Definition page : Page := cssPage Example.viewport size.

(** The state in which [render] runs its first pass, for one target half a
    pixel short of fitting under the top edge. *)
Definition atLoopEnd : World :=
  loopEnd page [Example.target 500 8 "A"] Example.start.

(** The same for one target a pixel higher. *)
Definition higher : World :=
  loopEnd page [Example.target 500 7 "A"] Example.start.
End HalfPixel.

Module Narrow.
(** A viewport narrower than a hint. *)
Definition viewport : Viewport :=
  {| width := inject_Z 8; height := inject_Z 800 |}.

Definition page : Page := cssPage viewport Example.size.

(** The state in which [render] runs its first pass, for one right-aligned
    target whose hint ends two pixels beyond the right edge and starts one
    pixel before the left edge. *)
Definition atLoopEnd : World :=
  loopEnd page
    [{| hintMeasurements :=
          {| x := inject_Z 10; y := inject_Z 100; align := AlignRight;
             maxX := inject_Z 900 |};
        hint := "A" |}]
    Example.start.
End Narrow.

(** The state in which [render] runs its first pass on the example page,
    for one right-aligned target five pixels from the left edge. *)
Definition atLeftEdge : World :=
  loopEnd Example.page
    [{| hintMeasurements :=
          {| x := inject_Z 5; y := inject_Z 100; align := AlignRight;
             maxX := inject_Z 900 |};
        hint := "A" |}]
    Example.start.
(** The state in which [render] runs its first pass on the example page,
    for one left-aligned target ten pixels from the right edge, with room
    for the hint up to [maxX]. *)
Definition atRightEdge : World :=
  loopEnd Example.page
    [{| hintMeasurements :=
          {| x := inject_Z 990; y := inject_Z 100; align := AlignLeft;
             maxX := inject_Z 1100 |};
        hint := "A" |}]
    Example.start.

(** The same for one left-aligned target five pixels from the bottom
    edge. *)
Definition atBottomEdge : World :=
  loopEnd Example.page [Example.target 500 795 "A"] Example.start.

(** The example page with two hints rendered near its top edge, one below
    the other.  The hint of A starts four pixels above the edge, [render]
    pulls it down, and from then on it overlaps the hint of B. *)
Definition pulledOver : World :=
  render Example.page
    [Example.target 100 5 "A"; Example.target 100 25 "B"]
    Example.start.

(** Four hints in a row on the example page, each eleven pixels wide and
    overlapping its neighbours: A at 100, B at 110, E at 120 and C at 130,
    rendered in the order A, B, C, E. *)
Definition row : World :=
  render Example.page
    [Example.target 100 100 "A"; Example.target 110 100 "B";
     Example.target 130 100 "C"; Example.target 120 100 "E"]
    Example.start.

(** The stacking indices of the hints, in the order of [hints]. *)
Definition stacking (w : World) : list Z := zIndexOf w <$> hints w.

(** The hint element behind a child of the shadow root, if it is one. *)
Definition hintOf (c : RootNode) : option ref :=
  match c with RHint r => Some r | _ => None end.

(** The hint elements among the children of the shadow root, in order. *)
Definition rootHints (w : World) : list ref := omap hintOf (root w).

(** The children of the shadow root once [render] has prepared it: the
    stylesheet, unless an earlier render found it blocked and parsed it. *)
Definition preparedRoot (w : World) : list RootNode :=
  if parsedCSS w then [] else [RStyle].

(** The nodes a log records a measurement of, in order. *)
Definition measuredRefs (tr : list Event) : list ref :=
  omap (fun ev => match ev with Measured r _ => Some r | _ => None end) tr.

(** The variables of the loop of [render] when it ends, for a non-empty
    list. *)
Definition loopResult (pg : Page) (elements : list ElementWithHint)
  (w : World) : Loop :=
  let wp := probe pg (prepare pg w) in
  renderLoop pg (getViewport pg) wp.2 0 elements (startLoop wp.1).

(** Two targets on the example page. *)
Definition twoTargets : list ElementWithHint :=
  [Example.target 10 10 "A"; Example.target 20 40 "B"].

Definition isStyle (n : RootNode) : bool :=
  match n with RStyle => true | _ => false end.

(** How many children of the shadow root satisfy [p]. *)
Definition countOf (p : RootNode -> bool) (l : list RootNode) : nat :=
  length (filter (fun c => p c = true) l).

(** The stylesheet, the placeholder and the title occur at most once. *)
Definition tidy (l : list RootNode) : Prop :=
  countOf isStyle l ≤ 1 ∧ countOf isShruggie l ≤ 1 ∧ countOf isTitle l ≤ 1.

(** A child that is none of the three. *)
Definition plain (c : RootNode) : Prop :=
  isStyle c = false ∧ isShruggie c = false ∧ isTitle c = false.

(** An element that carries the hint class. *)
Definition isHintElement (el : Element) : Prop := HINT_CLASS ∈ classList el.

(** The list of hints and the DOM agree: the hints are distinct, live
    elements carrying the hint class, and they are the hint elements among
    the children of the shadow root, in the same order. *)
Definition inSync (w : World) : Prop :=
  NoDup (hints w) ∧
  (∀ r, r ∈ hints w → ∃ el, heap w !! r = Some el ∧ isHintElement el) ∧
  rootHints w = hints w.

(** Hint elements stay hint elements from [w] to [w']. *)
Definition keepsHintElements (w w' : World) : Prop :=
  ∀ r el, heap w !! r = Some el → isHintElement el →
    ∃ el', heap w' !! r = Some el' ∧ isHintElement el'.

(** The invariant of the DOM the program keeps: [hints] and the shadow root
    agree, and the shadow root is tidy. *)
Definition domInv (w : World) : Prop := inSync w ∧ tidy (root w).

(** Every member of a stack but the first overlaps an earlier member. *)
Definition chained (rectOf : ref -> Rect) (stack : list ref) : Prop :=
  ∀ i r, stack !! S i = Some r →
    ∃ j r', j ≤ i ∧ stack !! j = Some r' ∧
            overlaps (rectOf r) (rectOf r') = true.

(** No two entries of the list overlap. *)
Definition apart (rectOf : ref -> Rect) (l : list ref) : Prop :=
  ∀ i j a b, i ≠ j → l !! i = Some a → l !! j = Some b →
    overlaps (rectOf a) (rectOf b) = false.

(** Two states of an element that differ at most in the stacking index. *)
Definition sameOutsideZIndex (e e' : Element) : Prop :=
  children e' = children e ∧ classList e' = classList e ∧
  ∀ p, p ≠ "z-index" → style e' !! p = style e !! p.

(** The stacking indices of the hints are numbers and pairwise different. *)
Definition zInv (w : World) : Prop :=
  NoDup (zIndexText w <$> hints w) ∧
  Forall (λ v, ∃ n, v = Num n) (zIndexText w <$> hints w).

(** The stacking index of every node is the same in [w] and [w']. *)
Definition sameZ (w w' : World) : Prop :=
  ∀ r, zIndexText w' r = zIndexText w r.

Definition heapsOutsideZIndex (w w' : World) : Prop :=
  ∀ r, option_Forall2 sameOutsideZIndex (heap w !! r) (heap w' !! r).

(** A child of the shadow root that the title teardown keeps: every child
    but the hints in [l]. *)
Definition keptBy (l : list ref) (c : RootNode) : bool :=
  match c with RHint r => bool_decide (r ∉ l) | _ => true end.

(** The stylesheet or the placeholder. *)
Definition isChrome (c : RootNode) : bool := isStyle c || isShruggie c.

(** The timer [setTimeout] creates in state [w]. *)
Definition newTimer (cb : TimerCallback) (w : World) : Timer :=
  {| timerId := nextTimeoutId w; delay := UNRENDER_DELAY; callback := cb |}.

(** The three fields that describe the container in the page. *)
Definition attachment (w : World) := (document w, observing w, listeners w).

(** The container is either detached, unobserved and without listeners, or
    observed with its two listeners and, when the document still has a
    root element, attached exactly once. *)
Definition attached (w : World) : Prop :=
  (observing w = false ∧ listeners w = 0 ∧
   document_querySelectorAll CONTAINER_ID (document w) = []) ∨
  (observing w = true ∧ listeners w = 2 ∧
   (document w = None ∨
    document_querySelectorAll CONTAINER_ID (document w) = [containerRef])).

(** The hints a batch of [updateHints] queues for a move when the filter
    text changed: those addressed by an [Update] without matched
    characters, in the order of the batch. *)
Definition requeued (w : World) (updates : list HintUpdate) : list ref :=
  omap (fun u =>
          match u with
          | Update i matched _ _ =>
              if decide (matched = "") then hints w !! i else None
          | Hide _ => None
          end) updates.

(** The test of the loop of [render] on one target: its hint may reach
    outside the viewport. *)
Definition nearEdge (pg : Page) (viewport : Viewport) (p : Probe)
  (e : ElementWithHint)
  : bool :=
  outsideHorizontally pg viewport p e || outsideVertically pg viewport p e.

(** The positions of the targets near an edge. *)
Definition nearIdx (pg : Page) (viewport : Viewport) (p : Probe)
  (elements : list ElementWithHint) : list nat :=
  filter (λ j, from_option (nearEdge pg viewport p) false (elements !! j) = true)
    (seq 0 (length elements)).

(** The positions of the targets whose hints are moved before the first
    paint, and of those moved after it. *)
Definition firstPass (pg : Page) (viewport : Viewport) (p : Probe)
  (elements : list ElementWithHint) : list nat :=
  take MAX_IMMEDIATE_HINT_MOVEMENTS (nearIdx pg viewport p elements).

Definition secondPass (pg : Page) (viewport : Viewport) (p : Probe)
  (elements : list ElementWithHint) : list nat :=
  filter (λ j, j ∉ firstPass pg viewport p elements) (seq 0 (length elements)).

(** The keys of a list ascend from its front to its back. *)
Definition sortedBy (z : ref -> Z) (l : list ref) : Prop :=
  ∀ i j a b, i < j → l !! i = Some a → l !! j = Some b → (z a ≤ z b)%Z.

(** * Keyboard shortcuts: [normalizeKeypress] and [codeToEnUsQwerty] *)

Module Keyboard.

(** A JavaScript string is a sequence of UTF-16 code units; [lit] is the
    string an ASCII literal of the source denotes. *)
Definition lit (s : string) : list N := N_of_ascii <$> list_ascii_of_string s.

(** Raw values from a [KeyboardEvent]. *)
Record Keypress := {
  key : list N;
  code : list N;
  alt : bool;
  cmd : bool;
  ctrl : bool;
  shift : bool
}.

(** A [Keypress] after taking "Ignore keyboard layout" into account; a
    missing [shift] is [None]. *)
Record NormalizedKeypress := {
  n_key : list N;
  n_alt : bool;
  n_cmd : bool;
  n_ctrl : bool;
  n_shift : option bool
}.

(** The entries of the [Map], in the order of the source; the shifted
    character of [Quote] is the double quote, code unit 34. *)
Definition EN_US_QWERTY_TRANSLATIONS : list (list N * (list N * list N)) :=
  [ (lit "Backquote", (lit "`", lit "~"));
    (lit "Digit1", (lit "1", lit "!"));
    (lit "Digit2", (lit "2", lit "@"));
    (lit "Digit3", (lit "3", lit "#"));
    (lit "Digit4", (lit "4", lit "$"));
    (lit "Digit5", (lit "5", lit "%"));
    (lit "Digit6", (lit "6", lit "^"));
    (lit "Digit7", (lit "7", lit "&"));
    (lit "Digit8", (lit "8", lit "*"));
    (lit "Digit9", (lit "9", lit "("));
    (lit "Digit0", (lit "0", lit ")"));
    (lit "Minus", (lit "-", lit "_"));
    (lit "Equal", (lit "=", lit "+"));
    (lit "Backslash", (lit "\", lit "|"));
    (lit "BracketLeft", (lit "[", lit "{"));
    (lit "BracketRight", (lit "]", lit "}"));
    (lit "Semicolon", (lit ";", lit ":"));
    (lit "Quote", (lit "'", [34%N]));
    (lit "Comma", (lit ",", lit "<"));
    (lit "Period", (lit ".", lit ">"));
    (lit "Slash", (lit "/", lit "?")) ].

(** [Map.prototype.get]. *)
Fixpoint get (entries : list (list N * (list N * list N))) (k : list N)
  : option (list N * list N) :=
  match entries with
  | [] => None
  | (k', v) :: entries => if decide (k' = k) then Some v else get entries k
  end.

(** [String.prototype.startsWith]. *)
Definition startsWith (s searchString : list N) : bool :=
  bool_decide (take (length searchString) s = searchString).

(** [codeToEnUsQwerty].  [String.prototype.toLowerCase] is a parameter: its
    Unicode case mapping is not modelled. *)
Definition codeToEnUsQwerty (toLowerCase : list N -> list N) (code : list N)
  (shift : bool) : list N :=
  if startsWith code (lit "Key") then
    let sliced := drop 3 code in
    if shift then sliced else toLowerCase sliced
  else
    match get EN_US_QWERTY_TRANSLATIONS code with
    | None => code
    | Some (unshifted, shifted) => if shift then shifted else unshifted
    end.

Definition normalizeKeypress (toLowerCase : list N -> list N)
  (keypress : Keypress) (ignoreKeyboardLayout : bool) : NormalizedKeypress :=
  let rawKey :=
    if ignoreKeyboardLayout && negb (startsWith (code keypress) (lit "Numpad"))
    then codeToEnUsQwerty toLowerCase (code keypress) (shift keypress)
    else key keypress in
  let key := if decide (rawKey = lit " ") then lit "Space" else rawKey in
  {| n_key := key;
     n_alt := alt keypress;
     n_cmd := cmd keypress;
     n_ctrl := ctrl keypress;
     n_shift := if decide (length key = 1) then None else Some (shift keypress) |}.

End Keyboard.

(** * Properties *)

(** ** Numbers *)

Lemma Qltb_lt (a b : Q) : (a <q b) = true ↔ (a < b)%Q.
Proof. unfold Qltb, Qlt. apply Z.ltb_lt. Qed.

Lemma Qleb_le (a b : Q) : (a <=q b) = true ↔ (a <= b)%Q.
Proof. unfold Qleb, Qle. apply Z.leb_le. Qed.

Lemma Qltb_ge (a b : Q) : (a <q b) = false ↔ (b <= a)%Q.
Proof. unfold Qltb, Qle. apply Z.ltb_ge. Qed.

Lemma round_bounds (q : Q) :
  (q - (1 # 2) < inject_Z (Math.round q) /\
   inject_Z (Math.round q) <= q + (1 # 2))%Q.
Proof.
  unfold Math.round. split.
  - pose proof (Qlt_floor (q + (1 # 2))) as H.
    rewrite inject_Z_plus in H.
    change (inject_Z 1) with 1%Q in H. lra.
  - apply Qfloor_le.
Qed.

Lemma round_inject_Z (z : Z) (q : Q) : (q == inject_Z z)%Q -> Math.round q = z.
Proof.
  intros H.
  pose proof (round_bounds q) as [H1 H2].
  assert (A : (inject_Z (z - 1) < inject_Z (Math.round q))%Q).
  { unfold Z.sub. rewrite inject_Z_plus, inject_Z_opp.
    change (inject_Z 1) with 1%Q. lra. }
  assert (B : (inject_Z (Math.round q) < inject_Z (z + 1))%Q).
  { rewrite inject_Z_plus. change (inject_Z 1) with 1%Q. lra. }
  rewrite <- Zlt_Qlt in A, B. lia.
Qed.

(** ** Elements and the heap *)

Lemma setStyles_nil e : setStyles e [] = e.
Proof. by destruct e. Qed.

Lemma setStyles_app e l1 l2 :
  setStyles (setStyles e l1) l2 = setStyles e (l1 ++ l2).
Proof. unfold setStyles. simpl. by rewrite foldl_app. Qed.

Lemma with_heap_id w : with_heap (heap w) w = w.
Proof. by destruct w. Qed.

Lemma with_heap_twice h h' w : with_heap h (with_heap h' w) = with_heap h w.
Proof. by destruct w. Qed.

Lemma maybeApplyStyles_id pg r w : maybeApplyStyles pg r w = w.
Proof.
  unfold maybeApplyStyles. destruct (BROWSER pg), (parsedCSS w); try done.
  rewrite alter_id; [apply with_heap_id | done].
Qed.

Lemma modify_insert r f e h w :
  modify r f (with_heap (<[r := e]> h) w) = with_heap (<[r := f e]> h) w.
Proof. unfold modify. destruct w; simpl. by rewrite alter_insert_eq. Qed.

Lemma modify_Some r f w e :
  heap w !! r = Some e -> modify r f w = with_heap (<[r := f e]> (heap w)) w.
Proof.
  intros H. rewrite <- (with_heap_id w) at 1.
  rewrite <- (insert_id _ _ _ H) at 1. apply modify_insert.
Qed.

(** ** [moveInsideViewport] *)

Lemma moveOne_Some pg viewport w moved r e :
  heap w !! r = Some e ->
  moveOne pg viewport (w, moved) r =
    (afterMove pg viewport r e (getBoundingClientRect pg r e) w,
     moved || crossed viewport (getBoundingClientRect pg r e)).
Proof.
  intros H. unfold moveOne, afterMove, correction, crossed. rewrite H.
  set (rect := getBoundingClientRect pg r e).
  set (w0 := with_trace _ _).
  assert (E : w0 = with_heap (<[r := setStyles e []]> (heap w)) w0).
  { rewrite setStyles_nil, insert_id by done. by destruct w. }
  rewrite E. clear E. generalize w0; intros w1. rewrite with_heap_twice.
  destruct (r_left rect <q 0), (r_top rect <q 0),
    (width viewport <q r_right rect), (height viewport <q r_bottom rect);
    rewrite ?modify_insert, ?setStyles_app, ?orb_true_r, ?orb_false_r; simpl;
    rewrite ?setStyles_nil; reflexivity.
Qed.

Lemma moveOne_None pg viewport w moved r :
  heap w !! r = None -> moveOne pg viewport (w, moved) r = (w, moved).
Proof. intros H. unfold moveOne. by rewrite H. Qed.

Lemma setProperty_lookup_ne p q v (st : Style) :
  p ≠ q -> setProperty q v st !! p = st !! p.
Proof.
  intros H. destruct v; simpl;
    [rewrite lookup_delete_ne | rewrite lookup_insert_ne ..]; done.
Qed.

Lemma setProperty_lookup_eq p v (st : Style) :
  setProperty p v st !! p = match v with Empty => None | _ => Some v end.
Proof.
  destruct v; simpl; [apply lookup_delete_eq | apply lookup_insert_eq ..].
Qed.

Lemma setStyles_lookup_other e l p :
  p ∉ l.*1 -> style (setStyles e l) !! p = style e !! p.
Proof.
  unfold setStyles. simpl. generalize (style e). clear e.
  induction l as [|[q v] l IH]; intros st Hp; simpl; [done|].
  simpl in Hp. rewrite not_elem_of_cons in Hp. destruct Hp as [Hne Hp].
  rewrite IH by done. by apply setProperty_lookup_ne.
Qed.

Lemma setStyles_children e l : children (setStyles e l) = children e.
Proof. done. Qed.

Lemma setStyles_classList e l : classList (setStyles e l) = classList e.
Proof. done. Qed.

Lemma correction_keys pg viewport rect p :
  p ∈ (correction pg viewport rect).*1 -> p = "margin-right" ∨ p = "margin-top".
Proof.
  unfold correction.
  destruct (r_left rect <q 0), (r_top rect <q 0),
    (width viewport <q r_right rect), (height viewport <q r_bottom rect);
    simpl; rewrite ?elem_of_cons, elem_of_nil; tauto.
Qed.

Lemma sameOutsideMargins_refl e : sameOutsideMargins e e.
Proof. by repeat split. Qed.

Lemma sameOutsideMargins_trans e1 e2 e3 :
  sameOutsideMargins e1 e2 -> sameOutsideMargins e2 e3 ->
  sameOutsideMargins e1 e3.
Proof.
  intros (A1 & B1 & C1) (A2 & B2 & C2). repeat split; try congruence.
  intros p H1 H2. rewrite C2, C1; done.
Qed.

Lemma sameOutsideMargins_correction pg viewport rect e :
  sameOutsideMargins e (setStyles e (correction pg viewport rect)).
Proof.
  repeat split. intros p H1 H2. apply setStyles_lookup_other.
  intros H. apply correction_keys in H. tauto.
Qed.

Lemma heapsOutsideMargins_refl w : heapsOutsideMargins w w.
Proof.
  intros r. destruct (heap w !! r); constructor. apply sameOutsideMargins_refl.
Qed.

Lemma heapsOutsideMargins_trans w1 w2 w3 :
  heapsOutsideMargins w1 w2 -> heapsOutsideMargins w2 w3 ->
  heapsOutsideMargins w1 w3.
Proof.
  intros H1 H2 r. specialize (H1 r). specialize (H2 r).
  destruct H1; inversion H2; subst; constructor.
  eapply sameOutsideMargins_trans; eauto.
Qed.

Lemma moveOne_frame pg viewport w moved r :
  frame (moveOne pg viewport (w, moved) r).1 = frame w ∧
  heapsOutsideMargins w (moveOne pg viewport (w, moved) r).1.
Proof.
  destruct (heap w !! r) as [e|] eqn:H.
  - rewrite (moveOne_Some _ _ _ _ _ _ H). simpl. split; [by destruct w|].
    intros r'. unfold afterMove. cbn [heap with_heap].
    destruct (decide (r' = r)) as [->|Hne].
    + rewrite lookup_insert_eq, H. constructor.
      apply sameOutsideMargins_correction.
    + rewrite lookup_insert_ne by done.
      destruct (heap w !! r'); constructor. apply sameOutsideMargins_refl.
  - rewrite moveOne_None by done. split; [done|apply heapsOutsideMargins_refl].
Qed.

Lemma moveInsideViewport_frame pg elements viewport w :
  frame (moveInsideViewport pg elements viewport w).1 = frame w ∧
  heapsOutsideMargins w (moveInsideViewport pg elements viewport w).1.
Proof.
  unfold moveInsideViewport. generalize false as moved. revert w.
  induction elements as [|r elements IH]; intros w moved; cbn [foldl].
  - split; [done|apply heapsOutsideMargins_refl].
  - destruct (moveOne pg viewport (w, moved) r) as [w1 moved1] eqn:E.
    pose proof (moveOne_frame pg viewport w moved r) as [F1 H1].
    rewrite E in F1, H1. simpl in F1, H1.
    destruct (IH w1 moved1) as [F2 H2]. split; [congruence|].
    eapply heapsOutsideMargins_trans; eauto.
Qed.

(** ** The loop of [render] *)

Lemma renderOne_world pg viewport p index e l :
  world (renderOne pg viewport p index e l) =
    let w := world l in
    with_hints (hints w ++ [nextRef w])
      (with_root (root w ++ [RHint (nextRef w)])
         (with_heap (<[nextRef w := hintElement pg viewport p index e]> (heap w))
            (with_nextRef (S (nextRef w)) w))).
Proof.
  unfold renderOne, alloc. cbn zeta. rewrite maybeApplyStyles_id.
  assert (E : ∀ (b : bool) (w : World) x1 x2 x3 y1 y2 y3,
    world (if b then {| world := w; edgeElements := x1; restOfElements := x2;
                        numEdgeElements := x3 |}
           else {| world := w; edgeElements := y1; restOfElements := y2;
                   numEdgeElements := y3 |}) = w) by (by intros []).
  rewrite E. destruct (world l). simpl. unfold modify. simpl.
  by rewrite alter_insert_eq.
Qed.

Lemma renderLoop_spec pg viewport p elements : ∀ index l,
  let l' := renderLoop pg viewport p index elements l in
  let n := nextRef (world l) in
  nextRef (world l') = n + length elements ∧
  hints (world l') = hints (world l) ++ seq n (length elements) ∧
  (∀ j e, elements !! j = Some e →
     heap (world l') !! (n + j) = Some (hintElement pg viewport p (index + j) e)) ∧
  (∀ r, r < n → heap (world l') !! r = heap (world l) !! r).
Proof.
  induction elements as [|e elements IH]; intros index l; cbn zeta.
  - simpl. rewrite Nat.add_0_r, app_nil_r. repeat split; try done.
  - cbn [renderLoop].
    specialize (IH (S index) (renderOne pg viewport p index e l)).
    cbn zeta in IH. rewrite renderOne_world in IH. cbn zeta in IH.
    destruct IH as (A & B & C & D).
    set (w := world l) in *.
    replace (nextRef (with_hints _ _)) with (S (nextRef w)) in * by (by destruct w).
    replace (hints (with_hints _ _)) with (hints w ++ [nextRef w]) in B by (by destruct w).
    replace (heap (with_hints _ _)) with
      (<[nextRef w := hintElement pg viewport p index e]> (heap w)) in D
      by (by destruct w).
    repeat split.
    + rewrite A. simpl. lia.
    + rewrite B. simpl. by rewrite <- app_assoc.
    + intros [|j] e'; simpl; intros Hj.
      * inversion Hj; subst. rewrite Nat.add_0_r, D by lia.
        rewrite Nat.add_0_r. apply lookup_insert_eq.
      * replace (nextRef w + S j) with (S (nextRef w) + j) by lia.
        replace (index + S j) with (S index + j) by lia. by apply C.
    + intros r Hr. rewrite D by lia. apply lookup_insert_ne. lia.
Qed.

(** ** [unrender] and the "prepare" phase *)

Lemma unrender_eq w :
  unrender w =
    {| hints := []; rects := ∅; unrenderTimeoutId := None;
       enteredTextChars := enteredTextChars w; parsedCSS := parsedCSS w;
       heap := heap w; nextRef := nextRef w; root := [];
       titleText := titleText w;
       document := removeContainers (document w);
       observing := false; listeners := 0;
       timers := cancelPending w; nextTimeoutId := nextTimeoutId w;
       paints := paints w; trace := trace w |}.
Proof.
  unfold unrender, cancelPending, removeContainers.
  destruct w as [? ? [id|] ? ? ? ? ? ? ? ? ? ? ? ? ?]; reflexivity.
Qed.

Lemma prepare_hints pg w : hints (prepare pg w) = [].
Proof.
  unfold prepare. rewrite unrender_eq. simpl.
  destruct (parsedCSS w); [done|].
  destruct (BROWSER pg); [done|]. by destruct (styleSheetNull pg).
Qed.

Lemma probe_hints pg w : hints (probe pg w).1 = hints w.
Proof.
  unfold probe, alloc. cbn zeta. rewrite !maybeApplyStyles_id. by destruct w.
Qed.

Lemma loopEnd_hints pg elements w :
  ∃ n, hints (loopEnd pg elements w) = seq n (length elements) ∧
  ∀ j e, elements !! j = Some e →
    heap (loopEnd pg elements w) !! (n + j) =
      Some (hintElement pg (getViewport pg) (probed pg w) j e).
Proof.
  unfold loopEnd, probed. set (wp := probe pg (prepare pg w)).
  destruct (renderLoop_spec pg (getViewport pg) wp.2 elements 0 (startLoop wp.1))
    as (_ & B & C & _).
  change (world (startLoop wp.1)) with wp.1 in B, C.
  exists (nextRef wp.1). split.
  - rewrite B. unfold wp. by rewrite probe_hints, prepare_hints.
  - intros j e Hj. by apply C.
Qed.

Lemma render_nonempty pg elements w :
  is_Some (document w) → elements ≠ [] →
  frame (render pg elements w) = frame (loopEnd pg elements w) ∧
  heapsOutsideMargins (loopEnd pg elements w) (render pg elements w).
Proof.
  intros [d Hd] Hne. unfold render, renderStart. rewrite Hd.
  destruct elements as [|e0 elements]; [done|].
  destruct (probe pg (prepare pg w)) as [wp p] eqn:Ep.
  unfold loopEnd. rewrite Ep. cbn [fst snd].
  set (l := renderLoop _ _ _ _ _ _).
  set (w1 := if 0 <? numEdgeElements l then _ else world l).
  assert (H1 : frame w1 = frame (world l) ∧ heapsOutsideMargins (world l) w1).
  { unfold w1. destruct (0 <? numEdgeElements l).
    - apply moveInsideViewport_frame.
    - split; [done|apply heapsOutsideMargins_refl]. }
  unfold renderFinish. cbn [restElements captured].
  pose proof (moveInsideViewport_frame pg (restOfElements l) (getViewport pg) w1)
    as [F2 H2].
  destruct (moveInsideViewport pg (restOfElements l) (getViewport pg) w1)
    as [w2 moved]. cbn [fst] in F2, H2.
  destruct H1 as [F1 H1]. split.
  - rewrite <- F1, <- F2. by destruct w2.
  - eapply heapsOutsideMargins_trans; [exact H1|].
    eapply heapsOutsideMargins_trans; [exact H2|].
    intros r. cbn [heap with_trace]. apply heapsOutsideMargins_refl.
Qed.

(** ** What [render] leaves *)

Lemma hintElement_zIndex pg viewport p j e :
  style (hintElement pg viewport p j e) !! "z-index" =
    Some (Num (MAX_Z_INDEX - Z.of_nat j)).
Proof.
  unfold hintElement, setStyles, hintStyles. cbn [style foldl fst snd].
  by rewrite setProperty_lookup_eq.
Qed.

Lemma hintElement_top pg viewport p j e :
  style (hintElement pg viewport p j e) !! "top" =
    Some (Px (Math.round (y (hintMeasurements e)))).
Proof.
  unfold hintElement, setStyles, hintStyles. cbn [style foldl fst snd].
  rewrite setProperty_lookup_ne by done. by rewrite setProperty_lookup_eq.
Qed.

Lemma hintElement_left_right pg viewport p j e :
  let st := style (hintElement pg viewport p j e) in
  let hm := hintMeasurements e in
  if alignLeft pg p e
  then st !! "left" = Some (Px (Math.round (x hm))) ∧ st !! "right" = None
  else st !! "left" = None ∧
       st !! "right" = Some (Px (Math.round (fsub pg (width viewport) (x hm)))).
Proof.
  unfold hintElement, setStyles, hintStyles. cbn [style foldl fst snd].
  destruct (alignLeft pg p e); cbn zeta; split;
    rewrite ?(setProperty_lookup_ne "left"), ?(setProperty_lookup_ne "right") by done;
    rewrite ?setProperty_lookup_eq; try done;
    rewrite ?(setProperty_lookup_ne "right") by done;
    rewrite ?setProperty_lookup_eq; done.
Qed.

Lemma alignLeft_spec pg p e :
  alignLeft pg p e = true ↔
  align (hintMeasurements e) = AlignLeft ∧
  (fadd pg (x (hintMeasurements e)) (inject_Z (hintWidth pg p (hint e)))
   < maxX (hintMeasurements e))%Q.
Proof.
  unfold alignLeft. rewrite andb_true_iff, Qltb_lt.
  destruct (align (hintMeasurements e)); simpl; intuition congruence.
Qed.

Lemma render_hint_nodes pg elements w :
  is_Some (document w) →
  ∃ n, hints (render pg elements w) = seq n (length elements) ∧
  ∀ j e, elements !! j = Some e →
    ∃ el, heap (render pg elements w) !! (n + j) = Some el ∧
      sameOutsideMargins (hintElement pg (getViewport pg) (probed pg w) j e) el.
Proof.
  intros Hdoc. destruct (decide (elements = [])) as [->|Hne].
  - exists 0. split; [|done]. destruct Hdoc as [d Hd].
    unfold render, renderStart. rewrite Hd. unfold insertShruggie, rootAppendUnique.
    pose proof (prepare_hints pg w). by destruct (prepare pg w).
  - destruct (render_nonempty pg elements w Hdoc Hne) as [F H].
    destruct (loopEnd_hints pg elements w) as (n & Hh & Hheap).
    exists n. split.
    + assert (E : hints (render pg elements w) = hints (loopEnd pg elements w))
        by (unfold frame in F; congruence).
      by rewrite E.
    + intros j e Hj. pose proof (H (n + j)) as H'.
      rewrite (Hheap j e Hj) in H'. inversion H'; subst. eauto.
Qed.

Lemma render_zIndex pg elements w n :
  is_Some (document w) →
  hints (render pg elements w) = seq n (length elements) →
  (∀ j e, elements !! j = Some e →
     ∃ el, heap (render pg elements w) !! (n + j) = Some el ∧
       sameOutsideMargins (hintElement pg (getViewport pg) (probed pg w) j e) el) →
  ∀ j, j < length elements →
    zIndexOf (render pg elements w) (n + j) = (MAX_Z_INDEX - Z.of_nat j)%Z.
Proof.
  intros Hdoc Hh Hheap j Hj.
  destruct (lookup_lt_is_Some_2 elements j Hj) as [e He].
  destruct (Hheap j e He) as (el & Hel & _ & _ & Hst).
  unfold zIndexOf, zIndexNumber, getPropertyValue. rewrite Hel. simpl.
  rewrite Hst by done. by rewrite hintElement_zIndex.
Qed.

Lemma renderStart_frame pg elements w :
  is_Some (document w) → elements ≠ [] →
  frame (renderStart pg elements w).1 = frame (loopEnd pg elements w) ∧
  heapsOutsideMargins (loopEnd pg elements w) (renderStart pg elements w).1.
Proof.
  intros [d Hd] Hne. unfold renderStart. rewrite Hd.
  destruct elements as [|e0 elements]; [done|].
  destruct (probe pg (prepare pg w)) as [wp p] eqn:Ep.
  unfold loopEnd. rewrite Ep. cbn [fst snd].
  set (l := renderLoop _ _ _ _ _ _).
  destruct (0 <? numEdgeElements l).
  - apply moveInsideViewport_frame.
  - split; [done|apply heapsOutsideMargins_refl].
Qed.

Lemma renderStart_hint_nodes pg elements w :
  is_Some (document w) →
  ∃ n, hints (renderStart pg elements w).1 = seq n (length elements) ∧
  ∀ j e, elements !! j = Some e →
    ∃ el, heap (renderStart pg elements w).1 !! (n + j) = Some el ∧
      sameOutsideMargins (hintElement pg (getViewport pg) (probed pg w) j e) el.
Proof.
  intros Hdoc. destruct (decide (elements = [])) as [->|Hne].
  - exists 0. split; [|done]. destruct Hdoc as [d Hd].
    unfold renderStart. rewrite Hd. unfold insertShruggie, rootAppendUnique.
    pose proof (prepare_hints pg w). by destruct (prepare pg w).
  - destruct (renderStart_frame pg elements w Hdoc Hne) as [F H].
    destruct (loopEnd_hints pg elements w) as (n & Hh & Hheap).
    exists n. split.
    + assert (E : hints (renderStart pg elements w).1
                  = hints (loopEnd pg elements w))
        by (unfold frame in F; congruence).
      by rewrite E.
    + intros j e Hj. pose proof (H (n + j)) as H'.
      rewrite (Hheap j e Hj) in H'. inversion H'; subst. eauto.
Qed.

Lemma hint_nodes_rendered pg viewport p elements w' n :
  hints w' = seq n (length elements) →
  (∀ j e, elements !! j = Some e →
     ∃ el, heap w' !! (n + j) = Some el ∧
       sameOutsideMargins (hintElement pg viewport p j e) el) →
  rendered elements w' ∧
  ∀ i r, hints w' !! i = Some r →
    zIndexOf w' r = (MAX_Z_INDEX - Z.of_nat i)%Z.
Proof.
  intros Hh Hheap.
  assert (Hz : ∀ j, j < length elements →
            zIndexOf w' (n + j) = (MAX_Z_INDEX - Z.of_nat j)%Z).
  { intros j Hj.
    destruct (lookup_lt_is_Some_2 elements j Hj) as [e He].
    destruct (Hheap j e He) as (el & Hel & _ & _ & Hst).
    unfold zIndexOf, zIndexNumber, getPropertyValue. rewrite Hel. simpl.
    rewrite Hst by done. by rewrite hintElement_zIndex. }
  split.
  - unfold rendered. rewrite Hh. repeat split.
    + apply length_seq.
    + apply NoDup_seq.
    + intros r Hr. apply elem_of_seq in Hr.
      assert (Hj : r - n < length elements) by lia.
      destruct (lookup_lt_is_Some_2 elements _ Hj) as [e He].
      destruct (Hheap _ e He) as (el & Hel & _ & Hcl & _).
      replace (n + (r - n)) with r in Hel by lia.
      exists el. split; [done|]. rewrite Hcl. simpl. set_solver.
    + assert (E : zIndexOf w' <$> seq n (length elements) =
                  (λ j, (MAX_Z_INDEX - Z.of_nat j)%Z) <$> seq 0 (length elements)).
      { apply list_eq. intros i. rewrite !list_lookup_fmap.
        destruct (decide (i < length elements)) as [Hi|Hi].
        - rewrite !lookup_seq_lt by done. simpl. f_equal. by apply Hz.
        - rewrite !lookup_seq_ge by lia. done. }
      rewrite E. apply NoDup_fmap_2; [|apply NoDup_seq].
      intros a b Hab. lia.
    + intros i r r' Hi Hi'.
      apply lookup_seq in Hi as [-> Hlt]. apply lookup_seq in Hi' as [-> Hlt'].
      rewrite (Hz (S i)), (Hz i) by lia. lia.
  - intros i r Hi. rewrite Hh in Hi. apply lookup_seq in Hi as [-> Hlt].
    by apply Hz.
Qed.

Lemma zIndexOf_outsideMargins w w' r :
  heapsOutsideMargins w w' → zIndexOf w' r = zIndexOf w r.
Proof.
  intros H. unfold zIndexOf. destruct (H r) as [e e' (_ & _ & Hst)|]; [|done].
  cbn [default]. unfold zIndexNumber, getPropertyValue. by rewrite Hst.
Qed.

(** A property survives the resumption of a suspended [render] when it
    survives [moveInsideViewport], a new paint callback and a message. *)
Lemma resume_inv (I : World → Prop) pg s w :
  (∀ k, I (moveInsideViewport pg (restElements k) (captured k) w).1) →
  (∀ w', I w' → I (with_paints (paints w' ++ [SecondPaint]) w')) →
  (∀ w', I w' → I (with_trace (trace w' ++ [Sent Rendered]) w')) →
  I w → I (resume pg s w).
Proof.
  intros Hm Hp Hs Hw. destruct s as [k|]; cbn [resume].
  - specialize (Hm k).
    destruct (moveInsideViewport pg (restElements k) (captured k) w)
      as [w' moved].
    cbn [fst] in Hm. destruct moved; [by apply Hp|by apply Hs].
  - by apply Hs.
Qed.

Lemma resume_stacking pg s w :
  hints (resume pg s w) = hints w ∧
  ∀ r, zIndexOf (resume pg s w) r = zIndexOf w r.
Proof.
  apply (resume_inv
           (λ w', hints w' = hints w ∧ ∀ r, zIndexOf w' r = zIndexOf w r)).
  - intros k.
    destruct (moveInsideViewport_frame pg (restElements k) (captured k) w)
      as [F H].
    split; [unfold frame in F; congruence|].
    intros r. by apply zIndexOf_outsideMargins.
  - intros w' H. exact H.
  - intros w' H. exact H.
  - done.
Qed.

(** ** Claim C1 *)

(** C1, as stated, fails, in two ways.  [render] returns at once on a
    document without a root element, so a list of one target leaves no hint
    node at all.  And [render] completes only after the browser has painted:
    when a second [Render] message, for one target, is handled before that
    paint, the first call, for two targets, completes in a state whose
    [hints] holds the one node of the second call. *)
Lemma C1_counterexample :
  ¬ (∀ pg elements w, rendered elements (render pg elements w)) ∧
  (let first := [Example.target 10 10 "A"; Example.target 20 40 "B"] in
   reachable renderedTwice ∧ reachable overtaken ∧
   (∃ k ss, (renderStart Example.page first Example.start).2 = Some k ∧
      paints renderedTwice = FirstPaint k :: ss ∧
      overtaken = resume Example.page (FirstPaint k)
                    (with_paints ss renderedTwice)) ∧
   last (trace overtaken) = Some (Sent Rendered) ∧
   length (hints overtaken) = 1 ∧
   ¬ rendered first overtaken).
Proof.
  split.
  { intros H.
    destruct (H Example.page [Example.target 10 10 "A"] (initial None))
      as [Hlen _].
    vm_compute in Hlen. discriminate. }
  cbv zeta.
  assert (R : reachable renderedTwice).
  { unfold renderedTwice.
    eapply reachable_step; [|apply step_message].
    eapply reachable_step; [|apply step_message].
    apply reachable_start. }
  destruct (paints renderedTwice) as [|s ss] eqn:P;
    [vm_compute in P; discriminate P|].
  assert (O : overtaken = resume Example.page s (with_paints ss renderedTwice)).
  { unfold overtaken. by rewrite P. }
  split; [exact R|]. split; [|split; [|split; [|split]]].
  - rewrite O. eapply reachable_step; [exact R|]. by apply step_paint.
  - destruct s as [k|]; [|vm_compute in P; discriminate P].
    exists k, ss. split; [|split; [reflexivity|exact O]].
    vm_compute in P. injection P as <- _. vm_compute. reflexivity.
  - vm_compute. reflexivity.
  - vm_compute. reflexivity.
  - intros [Hlen _]. vm_compute in Hlen. discriminate Hlen.
Qed.

(** C1, amended.  On a document that has a root element, [render] of [N]
    targets leaves exactly [N] distinct hint nodes in [hints], whose
    stacking indices are pairwise different and strictly decrease in input
    order, the [i]-th being [MAX_Z_INDEX - i]: both in the state in which
    the handler of the [Render] message returns, which is [render] up to
    its first [await], and in the state in which [render] completes when
    nothing else is handled in between.  Resuming a suspended [render]
    after a paint changes neither [hints] nor any stacking index.  On a
    document
    without a root element [render] returns at once and leaves the state
    as it was. *)
Theorem C1_render_stacking pg elements w :
  (is_Some (document w) →
   ∀ w', w' = onMessage pg (ToRendererMsg (Render elements)) w ∨
         w' = render pg elements w →
     rendered elements w' ∧
     ∀ i r, hints w' !! i = Some r →
       zIndexOf w' r = (MAX_Z_INDEX - Z.of_nat i)%Z) ∧
  (∀ pg' s w',
     hints (resume pg' s w') = hints w' ∧
     ∀ r, zIndexOf (resume pg' s w') r = zIndexOf w' r) ∧
  (document w = None →
   onMessage pg (ToRendererMsg (Render elements)) w = w ∧
   render pg elements w = w).
Proof.
  split; [|split].
  - intros Hdoc w' [->| ->].
    + destruct (renderStart_hint_nodes pg elements w Hdoc) as (n & Hh & Hheap).
      pose proof (hint_nodes_rendered _ _ _ _ _ n Hh Hheap) as H.
      cbn [onMessage].
      destruct (renderStart pg elements w) as [w1 [k|]]; exact H.
    + destruct (render_hint_nodes pg elements w Hdoc) as (n & Hh & Hheap).
      exact (hint_nodes_rendered _ _ _ _ _ n Hh Hheap).
  - intros pg' s w'. apply resume_stacking.
  - intros Hd. cbn [onMessage]. unfold render, renderStart. by rewrite Hd.
Qed.

Lemma C1_render_stacking_witness :
  is_Some (document Example.start) ∧
  rendered [Example.target 10 10 "A"; Example.target 20 10 "B"]
    (render Example.page [Example.target 10 10 "A"; Example.target 20 10 "B"]
       Example.start) ∧
  rendered [Example.target 10 10 "A"; Example.target 20 10 "B"]
    (onMessage Example.page
       (ToRendererMsg
          (Render [Example.target 10 10 "A"; Example.target 20 10 "B"]))
       Example.start) ∧
  render Example.page [Example.target 10 10 "A"] (initial None) = initial None.
Proof.
  assert (H : is_Some (document Example.start)) by (vm_compute; eauto).
  split; [exact H|].
  destruct (C1_render_stacking Example.page
              [Example.target 10 10 "A"; Example.target 20 10 "B"]
              Example.start) as (A & _ & _).
  split; [exact (proj1 (A H _ (or_intror eq_refl)))|].
  split; [exact (proj1 (A H _ (or_introl eq_refl)))|].
  exact (proj2 (proj2 (proj2 (C1_render_stacking Example.page
                  [Example.target 10 10 "A"] (initial None))) eq_refl)).
Defined.

(** ** Claim C6 *)

(** C6: the hint of a target is positioned by [left] exactly when the
    target asks for left alignment and the hint's right edge, [x] plus the
    modelled width as the engine computes them, stays left of [maxX];
    otherwise it is positioned by [right]; never by both, and always by
    [top]. *)
Theorem C6_alignment pg elements w i e :
  is_Some (document w) → elements !! i = Some e →
  let w' := render pg elements w in
  let hm := hintMeasurements e in
  let leftAligned :=
    align hm = AlignLeft ∧
    (fadd pg (x hm) (inject_Z (hintWidth pg (probed pg w) (hint e)))
     < maxX hm)%Q in
  ∃ r el, hints w' !! i = Some r ∧ heap w' !! r = Some el ∧
    (is_Some (style el !! "left") ↔ leftAligned) ∧
    (is_Some (style el !! "right") ↔ ¬ leftAligned) ∧
    (leftAligned → style el !! "left" = Some (Px (Math.round (x hm)))) ∧
    (¬ leftAligned →
       style el !! "right" =
         Some (Px (Math.round (fsub pg (width (getViewport pg)) (x hm))))) ∧
    style el !! "top" = Some (Px (Math.round (y hm))).
Proof.
  intros Hdoc Hi. cbn zeta.
  destruct (render_hint_nodes pg elements w Hdoc) as (n & Hh & Hheap).
  destruct (Hheap i e Hi) as (el & Hel & _ & _ & Hst).
  exists (n + i), el. split.
  { rewrite Hh. apply lookup_seq. split; [done|]. by eapply lookup_lt_Some. }
  split; [done|].
  rewrite !Hst by done. rewrite hintElement_top.
  pose proof (hintElement_left_right pg (getViewport pg) (probed pg w) i e) as H.
  cbn zeta in H. rewrite <- alignLeft_spec.
  destruct (alignLeft pg (probed pg w) e); destruct H as [-> ->].
  - repeat split; try done; try (intros []; done); eauto.
  - repeat split; try done; try (intros []; done); eauto.
Qed.

Lemma C6_alignment_witness :
  is_Some (document Example.start) ∧
  [Example.target 10 10 "A"] !! 0 = Some (Example.target 10 10 "A") ∧
  ∃ r el,
    hints (render Example.page [Example.target 10 10 "A"] Example.start) !! 0
      = Some r ∧
    heap (render Example.page [Example.target 10 10 "A"] Example.start) !! r
      = Some el ∧
    style el !! "left" = Some (Px 10) ∧ style el !! "top" = Some (Px 10).
Proof.
  assert (Hdoc : is_Some (document Example.start)) by (vm_compute; eauto).
  split; [exact Hdoc|]. split; [reflexivity|].
  destruct (C6_alignment Example.page [Example.target 10 10 "A"] Example.start
              0 (Example.target 10 10 "A") Hdoc eq_refl)
    as (r & el & H1 & H2 & H3 & H4 & H5 & H6 & H7).
  exists r, el. split; [exact H1|]. split; [exact H2|]. split.
  - rewrite H5; [vm_compute; reflexivity|].
    split; [reflexivity|]. vm_compute. reflexivity.
  - rewrite H7. vm_compute. reflexivity.
Defined.

(** ** The light DOM *)

Lemma DocNode_forall_ind (P : DocNode → Prop) :
  (∀ r i kids, Forall P kids → P (DocEl r i kids)) → ∀ d, P d.
Proof.
  intros H. fix IH 1. intros [r i kids]. apply H.
  induction kids as [|k kids IHk]; constructor; [apply IH|apply IHk].
Qed.

Lemma elem_of_querySelectorAll id d r :
  r ∈ querySelectorAll id d ↔ (r, id) ∈ allNodes d.
Proof.
  revert r. induction d as [r' i kids IH] using DocNode_forall_ind. intros r.
  cbn [querySelectorAll allNodes].
  rewrite elem_of_app, elem_of_cons, !list_elem_of_In, !in_flat_map.
  assert (E : (∃ k, In k kids ∧ In r (querySelectorAll id k)) ↔
              (∃ k, In k kids ∧ In (r, id) (allNodes k))).
  { split; intros (k & Hk & Hr); exists k; split; try done;
      rewrite Forall_forall in IH;
      apply list_elem_of_In; apply list_elem_of_In in Hr;
      apply (IH k); try done; by apply list_elem_of_In. }
  rewrite E. destruct (decide (i = id)) as [->|Hne].
  - rewrite <- list_elem_of_In, list_elem_of_singleton. split.
    + intros [->|H]; [by left|by right].
    + intros [H|H]; [left; congruence|by right].
  - rewrite <- list_elem_of_In, elem_of_nil. split.
    + intros [[]|H]. by right.
    + intros [H|H]; [congruence|by right].
Qed.

Lemma allNodes_detach r d n :
  n ∈ allNodes (detach r d) →
  n ∈ allNodes d ∧ (n.1 ≠ r ∨ n = (nodeRef d, nodeId d)).
Proof.
  revert n. induction d as [r' i kids IH] using DocNode_forall_ind. intros n.
  cbn [detach allNodes nodeRef nodeId].
  rewrite !elem_of_cons. intros [->|H]; [by auto|].
  apply list_elem_of_In, in_flat_map in H as (k' & Hk' & Hn).
  apply list_elem_of_In, list_elem_of_filter in Hk' as [Hne Hk'].
  apply list_elem_of_fmap in Hk' as (k & -> & Hk).
  rewrite Forall_forall in IH.
  apply list_elem_of_In in Hn. destruct (IH k Hk n Hn) as [Hin Hor].
  assert (Hr : nodeRef (detach r k) = nodeRef k) by (by destruct k).
  split.
  - right. apply list_elem_of_In, in_flat_map. exists k.
    split; by apply list_elem_of_In.
  - left. destruct Hor as [Hor|Hor]; [done|]. subst n. simpl. congruence.
Qed.

Lemma docNodes_remove r doc n :
  n ∈ docNodes (remove r doc) → n ∈ docNodes doc ∧ n.1 ≠ r.
Proof.
  destruct doc as [d|]; simpl; [|by rewrite elem_of_nil].
  destruct (decide (nodeRef d = r)) as [E|E]; simpl; [by rewrite elem_of_nil|].
  intros H. apply allNodes_detach in H as [H1 H2]. split; [done|].
  destruct H2 as [H2|H2]; [done|]. by subst n.
Qed.

Lemma docNodes_foldl_remove l : ∀ doc n,
  n ∈ docNodes (foldl (fun doc c => remove c doc) doc l) →
  n ∈ docNodes doc ∧ n.1 ∉ l.
Proof.
  induction l as [|c l IH]; intros doc n; simpl.
  - intros H. split; [done|]. apply not_elem_of_nil.
  - intros H. apply IH in H as [H1 H2]. apply docNodes_remove in H1 as [H1 H3].
    split; [done|]. rewrite not_elem_of_cons. done.
Qed.

Lemma elem_of_document_querySelectorAll id doc r :
  r ∈ document_querySelectorAll id doc ↔ (r, id) ∈ docNodes doc.
Proof.
  destruct doc; simpl; [apply elem_of_querySelectorAll|].
  by rewrite !elem_of_nil.
Qed.

Lemma docNodes_removeContainers doc n :
  n ∈ docNodes (removeContainers doc) →
  n ∈ docNodes doc ∧ n.1 ≠ containerRef ∧ n.2 ≠ CONTAINER_ID.
Proof.
  unfold removeContainers. intros H.
  apply docNodes_foldl_remove in H as [H1 H2].
  pose proof H1 as H3. apply docNodes_remove in H3 as [H3 H4].
  repeat split; try done. intros E. apply H2.
  apply elem_of_document_querySelectorAll. destruct n as [r i]. simpl in *.
  by subst.
Qed.

Lemma detach_absent r d :
  r ∉ (allNodes d).*1 → detach r d = d.
Proof.
  induction d as [r' i kids IH] using DocNode_forall_ind.
  cbn [detach allNodes]. intros H. f_equal.
  rewrite fmap_cons, not_elem_of_cons in H. destruct H as [_ H].
  induction kids as [|k kids IHk]; [done|].
  inversion IH as [|? ? Hk Hks]; subst. cbn [flat_map] in H.
  rewrite fmap_app, not_elem_of_app in H. destruct H as [H1 H2].
  rewrite fmap_cons, (Hk H1), filter_cons.
  destruct (decide (nodeRef k ≠ r)) as [_|E].
  - f_equal. by apply IHk.
  - exfalso. apply H1. destruct k as [rk ik kk]. simpl in *.
    rewrite elem_of_cons. left. apply dec_stable in E. done.
Qed.

Lemma remove_absent r doc :
  r ∉ (docNodes doc).*1 → remove r doc = doc.
Proof.
  destruct doc as [d|]; simpl; [|done]. intros H.
  destruct (decide (nodeRef d = r)) as [E|E].
  - exfalso. apply H. destruct d. simpl in *. rewrite elem_of_cons. by left.
  - f_equal. by apply detach_absent.
Qed.

Lemma removeContainers_clean doc :
  (∀ n, n ∈ docNodes doc → n.1 ≠ containerRef ∧ n.2 ≠ CONTAINER_ID) →
  removeContainers doc = doc.
Proof.
  intros H. unfold removeContainers.
  assert (E : remove containerRef doc = doc).
  { apply remove_absent. intros Hin.
    apply list_elem_of_fmap in Hin as (n & Hn1 & Hn2).
    destruct (H n Hn2). congruence. }
  rewrite E.
  assert (Q : document_querySelectorAll CONTAINER_ID doc = []).
  { apply elem_of_nil_inv. intros r Hr.
    apply elem_of_document_querySelectorAll in Hr.
    destruct (H _ Hr). done. }
  by rewrite Q.
Qed.

Lemma removeContainers_idempotent doc :
  removeContainers (removeContainers doc) = removeContainers doc.
Proof.
  apply removeContainers_clean. intros n H.
  apply docNodes_removeContainers in H. tauto.
Qed.

Lemma querySelectorAll_removeContainers doc :
  document_querySelectorAll CONTAINER_ID (removeContainers doc) = [].
Proof.
  apply elem_of_nil_inv. intros r Hr.
  apply elem_of_document_querySelectorAll in Hr.
  apply docNodes_removeContainers in Hr. simpl in Hr. tauto.
Qed.

(** ** Claim C8 *)

Lemma unrender_idempotent w : unrender (unrender w) = unrender w.
Proof.
  rewrite (unrender_eq (unrender w)). rewrite !unrender_eq. cbn.
  unfold cancelPending at 1. cbn. by rewrite removeContainers_idempotent.
Qed.

(** C8: [unrender] is idempotent; called on the state the constructor
    leaves it changes nothing but the light DOM, from which it removes the
    containers found there, and nothing at all when there is none; after
    any call no element of the document carries the container's
    identifier. *)
Theorem C8_unrender w doc :
  unrender (unrender w) = unrender w ∧
  unrender (initial doc) = initial (removeContainers doc) ∧
  ((∀ n, n ∈ docNodes doc → n.1 ≠ containerRef ∧ n.2 ≠ CONTAINER_ID) →
     unrender (initial doc) = initial doc) ∧
  document_querySelectorAll CONTAINER_ID (document (unrender w)) = [] ∧
  (∀ n, n ∈ docNodes (document (unrender w)) → n.2 ≠ CONTAINER_ID).
Proof.
  assert (E : unrender (initial doc) = initial (removeContainers doc))
    by (by rewrite unrender_eq).
  split; [apply unrender_idempotent|]. split; [exact E|]. split.
  { intros H. rewrite E. by rewrite removeContainers_clean. }
  rewrite unrender_eq. cbn [document]. split.
  - apply querySelectorAll_removeContainers.
  - intros n H. apply docNodes_removeContainers in H. tauto.
Qed.

Lemma C8_unrender_witness :
  (∀ n, n ∈ docNodes cleanDoc → n.1 ≠ containerRef ∧ n.2 ≠ CONTAINER_ID) ∧
  unrender (initial cleanDoc) = initial cleanDoc.
Proof.
  assert (H : ∀ n, n ∈ docNodes cleanDoc →
                n.1 ≠ containerRef ∧ n.2 ≠ CONTAINER_ID).
  { intros n Hn. cbn in Hn.
    repeat (apply elem_of_cons in Hn as [Hn|Hn]; [subst n; by split|]).
    by apply elem_of_nil in Hn. }
  split; [exact H|].
  exact (proj1 (proj2 (proj2 (C8_unrender (initial cleanDoc) cleanDoc))) H).
Defined.

(** ** Frames of the remaining operations *)

Lemma frame_timing w w' : frame w' = frame w → timing w' = timing w.
Proof. unfold frame, timing. congruence. Qed.

Lemma updateOne_frame pg enteredText a u :
  let a' := updateOne pg enteredText a u in
  frame (current a') = frame (current a) ∧
  rects (current a') = rects (current a) ∧
  trace (current a') =
    trace (current a) ++
    (if hints (current a) !! index u is Some _ then [] else [MissingChild u]).
Proof.
  unfold updateOne. destruct (hints (current a) !! index u) as [child|].
  - destruct u as [i|i matched rest hl].
    + rewrite maybeApplyStyles_id. cbn. by rewrite app_nil_r.
    + destruct (decide (matched ≠ "")); [|destruct (decide (enteredText ≠ _))];
        rewrite maybeApplyStyles_id; cbn; by rewrite app_nil_r.
  - cbn. done.
Qed.

Lemma foldl_updateOne_frame pg enteredText updates : ∀ a,
  let a' := foldl (updateOne pg enteredText) a updates in
  frame (current a') = frame (current a) ∧
  rects (current a') = rects (current a) ∧
  trace (current a') = trace (current a) ++ missing (current a) updates.
Proof.
  unfold missing.
  induction updates as [|u updates IH]; intros a; cbn [foldl].
  - cbn. by rewrite app_nil_r.
  - destruct (IH (updateOne pg enteredText a u)) as (F & R & T).
    destruct (updateOne_frame pg enteredText a u) as (F1 & R1 & T1).
    cbn zeta in *. rewrite F, R, T, F1, R1, T1. repeat split.
    assert (Hh : hints (current (updateOne pg enteredText a u)) = hints (current a))
      by (unfold frame in F1; congruence).
    rewrite Hh, filter_cons.
    destruct (hints (current a) !! index u); cbn.
    + destruct (decide _) as [?|_]; [done|]. by rewrite app_nil_r.
    + destruct (decide _) as [_|?]; [|done]. by rewrite <- app_assoc.
Qed.

Lemma updateLoop_frame pg enteredText updates w :
  let a := updateLoop pg enteredText updates w in
  frame (current a) = frame w ∧ rects (current a) = rects w ∧
  trace (current a) = trace w ++ missing w updates.
Proof. apply foldl_updateOne_frame. Qed.

Lemma static_timing w w' : static w' = static w → timing w' = timing w.
Proof. unfold static, timing. congruence. Qed.

Lemma renderLoop_static pg viewport p elements : ∀ index l,
  static (world (renderLoop pg viewport p index elements l)) = static (world l).
Proof.
  induction elements as [|e elements IH]; intros index l; cbn [renderLoop].
  - done.
  - rewrite IH, renderOne_world. done.
Qed.

Lemma probe_static pg w : static (probe pg w).1 = static w.
Proof. unfold probe, alloc. cbn zeta. by rewrite !maybeApplyStyles_id. Qed.

Lemma rotateStack_static sign stack w :
  static (rotateStack sign stack w) = static w ∧
  hints (rotateStack sign stack w) = hints w ∧
  root (rotateStack sign stack w) = root w ∧
  nextRef (rotateStack sign stack w) = nextRef w.
Proof.
  unfold rotateStack. destruct (map _ _) as [|first rest]; [done|].
  generalize (zip (sortBy (λ a b, ((zIndexOf w a - zIndexOf w b) * sign)%Z) stack)
                (rest ++ [first])).
  intros l. revert w. induction l as [|ez l IH]; intros w; cbn [foldl]; [done|].
  destruct (IH (modify ez.1 (λ e, setStyles e [("z-index", ez.2)]) w))
    as (A & B & C & D).
  rewrite A, B, C, D. done.
Qed.

Lemma rotateStacks_static sign stacks : ∀ w,
  let w' :=
    foldl (fun w' stack =>
             if 2 <=? length stack then rotateStack sign stack w' else w')
      w stacks in
  static w' = static w ∧ hints w' = hints w ∧ root w' = root w ∧
  nextRef w' = nextRef w.
Proof.
  induction stacks as [|stack stacks IH]; intros w; cbn [foldl]; [done|].
  cbn zeta in *. destruct (2 <=? length stack); [|apply IH].
  destruct (IH (rotateStack sign stack w)) as (A & B & C & D).
  destruct (rotateStack_static sign stack w) as (A' & B' & C' & D').
  rewrite A, B, C, D. done.
Qed.

Lemma rotateHints_static forward pg w :
  static (rotateHints forward pg w) = static w ∧
  hints (rotateHints forward pg w) = hints w ∧
  root (rotateHints forward pg w) = root w ∧
  nextRef (rotateHints forward pg w) = nextRef w.
Proof. apply rotateStacks_static. Qed.

(** ** Deferred teardown *)

Lemma moveInsideViewport_timing pg elements viewport w :
  timing (moveInsideViewport pg elements viewport w).1 = timing w.
Proof. apply frame_timing, moveInsideViewport_frame. Qed.

Lemma updateHints_timing pg updates enteredText w :
  timing (updateHints pg updates enteredText w) = timing w.
Proof.
  unfold updateHints.
  destruct (updateLoop_frame pg enteredText updates w) as (F & _ & _).
  apply frame_timing in F. cbn zeta in F.
  set (a := updateLoop pg enteredText updates w) in *.
  set (w1 := if decide (numHidden a = _) then _ else _).
  assert (T1 : timing w1 = timing w)
    by (unfold w1; destruct (decide _); rewrite <- F; reflexivity).
  set (w2 := if decide (enteredText = "") then _ else _).
  assert (T2 : timing w2 = timing w)
    by (unfold w2; destruct (decide (enteredText = "")); rewrite <- T1; reflexivity).
  destruct (maybeNeedsMoveInsideViewport a); cbn [timing with_enteredTextChars
    unrenderTimeoutId timers nextTimeoutId]; [exact T2|].
  rewrite <- T2. apply moveInsideViewport_timing.
Qed.

Lemma prepare_static pg w :
  timing (prepare pg w) = timing (unrender w) ∧
  rects (prepare pg w) = ∅ ∧ trace (prepare pg w) = trace w ∧
  paints (prepare pg w) = paints w.
Proof.
  unfold prepare. rewrite unrender_eq. cbn.
  destruct (parsedCSS w); [done|].
  destruct (BROWSER pg); [done|]. by destruct (styleSheetNull pg).
Qed.

Lemma insertShruggie_timing w : timing (insertShruggie w) = timing w.
Proof. reflexivity. Qed.

Lemma renderStart_timing pg elements w :
  timing (renderStart pg elements w).1 = timing w ∨
  timing (renderStart pg elements w).1 = timing (unrender w).
Proof.
  unfold renderStart. destruct (document w); [right|left; reflexivity].
  destruct (prepare_static pg w) as (T & _). revert T.
  generalize (prepare pg w). intros w0 T.
  destruct elements as [|e elements].
  { cbn [fst]. rewrite insertShruggie_timing. exact T. }
  pose proof (probe_static pg w0) as S. apply static_timing in S.
  destruct (probe pg w0) as [wp p]. cbn [fst] in S.
  set (l := renderLoop _ _ _ _ _ _).
  assert (Tl : timing (world l) = timing wp)
    by (apply static_timing, renderLoop_static).
  cbn [fst]. destruct (0 <? numEdgeElements l).
  - rewrite moveInsideViewport_timing, Tl, S. exact T.
  - rewrite Tl, S. exact T.
Qed.

Lemma renderFinish_timing pg k w : timing (renderFinish pg k w) = timing w.
Proof.
  unfold renderFinish.
  pose proof (moveInsideViewport_timing pg (restElements k) (captured k) w) as T.
  destruct (moveInsideViewport pg (restElements k) (captured k) w). by rewrite <- T.
Qed.

Lemma onePending_timing w w' : timing w' = timing w → onePending w → onePending w'.
Proof. unfold timing, onePending. intros E. injection E as -> -> ->. done. Qed.

Lemma onePending_unrender w :
  onePending w → onePending (unrender w) ∧ timers (unrender w) = [].
Proof.
  intros [H1 H2]. rewrite unrender_eq. unfold onePending, cancelPending. cbn.
  destruct (unrenderTimeoutId w) as [id|].
  - destruct H1 as (t & -> & Hid). rewrite filter_cons.
    destruct (decide (timerId t ≠ id)); [done|].
    repeat split. intros t' Ht'. by apply elem_of_nil in Ht'.
  - rewrite H1. repeat split. intros t' Ht'. by apply elem_of_nil in Ht'.
Qed.

Lemma onePending_unrenderDelayed w :
  onePending w → onePending (unrenderDelayed w).
Proof.
  intros [H1 H2]. unfold unrenderDelayed.
  destruct (unrenderTimeoutId w) as [id|] eqn:E.
  - split; [by rewrite E|done].
  - unfold onePending, setTimeout. cbn. rewrite H1. split; [eauto|].
    intros t Ht. apply list_elem_of_singleton in Ht as ->. cbn. lia.
Qed.

Lemma onePending_unrenderToTitle text w :
  onePending w → onePending (unrenderToTitle text w).
Proof.
  intros [H1 H2]. unfold unrenderToTitle, onePending, setTimeout, clearTimeout.
  destruct (unrenderTimeoutId w) as [id|]; cbn.
  - destruct H1 as (t & -> & Hid). rewrite filter_cons.
    destruct (decide (timerId t ≠ id)); [done|]. cbn. split; [eauto|].
    intros t' Ht'. apply list_elem_of_singleton in Ht' as ->. cbn. lia.
  - rewrite H1. cbn. split; [eauto|].
    intros t' Ht'. apply list_elem_of_singleton in Ht' as ->. cbn. lia.
Qed.

Lemma foldl_rootRemove_timing l : ∀ w,
  timing (foldl (λ w1 r, rootRemove (isHint r) w1) w l) = timing w.
Proof. induction l as [|r l IH]; intros w; cbn [foldl]; [done|]. by rewrite IH. Qed.

Lemma onePending_empty w :
  timers w = [] → unrenderTimeoutId w = None → onePending w.
Proof.
  intros E1 E2. unfold onePending. rewrite E1, E2. split; [done|].
  intros t' Ht'. by apply elem_of_nil in Ht'.
Qed.

Lemma onePending_renderStart pg elements w :
  onePending w → onePending (renderStart pg elements w).1.
Proof.
  intros Hinv.
  destruct (renderStart_timing pg elements w) as [T|T];
    eapply onePending_timing; try exact T; [done|].
  by apply onePending_unrender.
Qed.

Lemma onePending_runCallback cb w :
  timers w = [] → onePending (runCallback cb w).
Proof.
  intros E. destruct cb; cbn [runCallback].
  - apply onePending_unrender. by apply onePending_empty.
  - eapply (onePending_timing (with_unrenderTimeoutId None w)).
    + cbn [with_rects with_hints unrenderTextRects rootRemove with_root timing
           unrenderTimeoutId timers nextTimeoutId].
      apply (foldl_rootRemove_timing _ (with_unrenderTimeoutId None w)).
    + by apply onePending_empty.
Qed.

Lemma onePending_step w w' : step w w' → onePending w → onePending w'.
Proof.
  intros Hstep Hinv. destruct Hstep as [pg m w|t w Ht|pg k ks w Hk|w].
  - destruct m as [|message|]; cbn [onMessage]; [exact Hinv| |exact Hinv].
    destruct message as [|elements|updates text|forward|boxes frameId| |mode].
    + exact Hinv.
    + pose proof (onePending_renderStart pg elements w Hinv) as H.
      destruct (renderStart pg elements w) as [w1 [k|]]; exact H.
    + eapply onePending_timing; [apply updateHints_timing|done].
    + eapply onePending_timing; [|exact Hinv].
      apply static_timing, rotateHints_static.
    + exact Hinv.
    + exact Hinv.
    + destruct mode.
      * by apply onePending_unrender.
      * by apply onePending_unrenderDelayed.
      * by apply onePending_unrenderToTitle.
  - destruct Hinv as [H1 H2].
    assert (Hts : timers w = [t]).
    { destruct (unrenderTimeoutId w).
      - destruct H1 as (t' & E & _). rewrite E in Ht.
        apply list_elem_of_singleton in Ht. by subst.
      - rewrite H1 in Ht. by apply elem_of_nil in Ht. }
    apply onePending_runCallback. cbn [timers with_timers].
    rewrite Hts, filter_cons. by destruct (decide (timerId t ≠ timerId t)).
  - apply (resume_inv onePending).
    + intros k0. eapply onePending_timing;
        [apply moveInsideViewport_timing|exact Hinv].
    + intros w' H'. exact H'.
    + intros w' H'. exact H'.
    + exact Hinv.
  - by apply onePending_unrender.
Qed.

Lemma reachable_onePending w : reachable w → onePending w.
Proof.
  induction 1 as [doc|w w' _ IH Hstep].
  - apply onePending_unrender. by apply onePending_empty.
  - by eapply onePending_step.
Qed.

(** ** Claim C4 *)

Lemma reachable_titled : reachable titled.
Proof.
  apply (reachable_step Example.start).
  - apply reachable_start.
  - apply (step_message Example.page
             (ToRendererMsg (Unrender (title "Example")))).
Qed.

(** C4, as stated, fails: a delayed teardown requested while a title
    teardown is pending leaves that timer in place; it neither cancels nor
    replaces it. *)
Lemma C4_counterexample :
  ¬ (∀ pg mode w t, reachable w → t ∈ timers w →
       t ∉ timers (onMessage pg (ToRendererMsg (Unrender mode)) w)).
Proof.
  intros H.
  apply (H Example.page delayed titled
           {| timerId := 0; delay := UNRENDER_DELAY; callback := TitleCallback |}
           reachable_titled).
  - vm_compute. apply list_elem_of_singleton. reflexivity.
  - vm_compute. apply list_elem_of_singleton. reflexivity.
Qed.

(** C4, amended: in every reachable state at most one deferred-teardown
    timer is outstanding.  An immediate teardown cancels it and schedules
    none; a title teardown cancels it and schedules a new one; a delayed
    teardown schedules a timer only when none is outstanding and otherwise
    changes nothing. *)
Theorem C4_teardown pg text w :
  reachable w →
  length (timers w) ≤ 1 ∧
  timers (onMessage pg (ToRendererMsg (Unrender immediate)) w) = [] ∧
  (∃ t, timers (onMessage pg (ToRendererMsg (Unrender (title text))) w) = [t] ∧
        callback t = TitleCallback ∧ t ∉ timers w) ∧
  (timers w = [] →
     ∃ t, timers (onMessage pg (ToRendererMsg (Unrender delayed)) w) = [t] ∧
          callback t = UnrenderCallback) ∧
  (timers w ≠ [] → onMessage pg (ToRendererMsg (Unrender delayed)) w = w).
Proof.
  intros Hr. pose proof (reachable_onePending w Hr) as Hinv.
  pose proof Hinv as [H1 H2]. cbn [onMessage]. repeat split.
  - destruct (unrenderTimeoutId w).
    + destruct H1 as (t & -> & _). done.
    + rewrite H1. cbn. lia.
  - by apply onePending_unrender.
  - unfold unrenderToTitle, setTimeout, clearTimeout.
    destruct (unrenderTimeoutId w) as [id|]; cbn.
    + destruct H1 as (t & E & Hid).
      assert (Hlt : timerId t < nextTimeoutId w).
      { apply H2. rewrite E. by apply list_elem_of_singleton. }
      rewrite E, filter_cons.
      destruct (decide (timerId t ≠ id)); [done|]. cbn.
      eexists. split; [done|]. split; [done|].
      intros Hin. apply list_elem_of_singleton in Hin.
      rewrite <- Hin in Hlt. cbn in Hlt. lia.
    + rewrite H1. cbn. eexists. split; [done|]. split; [done|].
      apply not_elem_of_nil.
  - intros E. unfold unrenderDelayed.
    destruct (unrenderTimeoutId w) as [id|].
    + destruct H1 as (t & E' & _). congruence.
    + cbn. rewrite E. eauto.
  - intros E. unfold unrenderDelayed.
    destruct (unrenderTimeoutId w) as [id|]; [done|]. congruence.
Qed.

Lemma C4_teardown_witness :
  reachable titled ∧ length (timers titled) ≤ 1 ∧
  onMessage Example.page (ToRendererMsg (Unrender delayed)) titled = titled.
Proof.
  split; [exact reachable_titled|].
  destruct (C4_teardown Example.page "" titled reachable_titled)
    as (H1 & _ & _ & _ & H5).
  split; [exact H1|]. apply H5. vm_compute. discriminate.
Defined.

(** ** [updateHints] *)

Lemma updateOne_numHidden pg enteredText a u :
  numHidden (updateOne pg enteredText a u) =
    numHidden a +
    (if hints (current a) !! index u is Some _
     then (if isHide u then 1 else 0) else 0).
Proof.
  unfold updateOne. destruct (hints (current a) !! index u) as [child|].
  - destruct u as [i|i matched rest hl]; cbn [numHidden isHide]; [lia|].
    destruct (decide (matched ≠ "")); [|destruct (decide (enteredText ≠ _))];
      cbn [numHidden]; lia.
  - cbn [numHidden]. lia.
Qed.

Lemma foldl_updateOne_numHidden pg enteredText updates : ∀ a,
  numHidden (foldl (updateOne pg enteredText) a updates) =
    numHidden a + hiddenCount (current a) updates.
Proof.
  unfold hiddenCount.
  induction updates as [|u updates IH]; intros a; cbn [foldl].
  - cbn. lia.
  - rewrite IH, updateOne_numHidden.
    destruct (updateOne_frame pg enteredText a u) as (F & _).
    assert (Hh : hints (current (updateOne pg enteredText a u)) = hints (current a))
      by (unfold frame in F; congruence).
    rewrite Hh, (filter_cons _ u).
    destruct (hints (current a) !! index u) as [c|] eqn:E.
    + destruct (isHide u) eqn:Eh.
      * destruct (decide _) as [_|n]; [cbn; lia|]. exfalso. apply n. eauto.
      * destruct (decide _) as [[? _]|_]; [done|lia].
    + destruct (decide _) as [[_ [? ?]]|_]; [done|lia].
Qed.

Lemma updateLoop_numHidden pg enteredText updates w :
  numHidden (updateLoop pg enteredText updates w) = hiddenCount w updates.
Proof. unfold updateLoop. by rewrite foldl_updateOne_numHidden. Qed.

Lemma updateHints_root pg updates enteredText w :
  let a := updateLoop pg enteredText updates w in
  root (updateHints pg updates enteredText w) =
    root (if decide (enteredText = "")
          then removeTitle
                 (if decide (numHidden a = length (hints (current a)))
                  then insertShruggie (current a) else removeShruggie (current a))
          else insertTitle (replaceWhitespace enteredText)
                 (if decide (numHidden a = length (hints (current a)))
                  then insertShruggie (current a) else removeShruggie (current a))).
Proof.
  cbn zeta. unfold updateHints.
  set (a := updateLoop pg enteredText updates w).
  set (w2 := if decide (enteredText = "") then _ else _).
  destruct (maybeNeedsMoveInsideViewport a) as [|r q]; [done|].
  cbn [root with_enteredTextChars].
  destruct (moveInsideViewport_frame pg (r :: q) (getViewport pg) w2) as [F _].
  unfold frame in F. congruence.
Qed.

Lemma placeholder_decision pg updates enteredText w :
  placeholderShown (updateHints pg updates enteredText w) ↔
  hiddenCount w updates = length (hints w).
Proof.
  unfold placeholderShown. rewrite updateHints_root. cbn zeta.
  rewrite updateLoop_numHidden.
  destruct (updateLoop_frame pg enteredText updates w) as (F & _).
  assert (Hh : hints (current (updateLoop pg enteredText updates w)) = hints w)
    by (unfold frame in F; cbn zeta in F; congruence).
  rewrite Hh. generalize (current (updateLoop pg enteredText updates w)). intros w0.
  assert (Hin : ∀ l, RShruggie ∈ filter (λ c, negb (isShruggie c)) l ++ [RShruggie])
    by (intros l; apply elem_of_app; right; by apply list_elem_of_singleton).
  assert (Hout : ∀ l, RShruggie ∉ filter (λ c, negb (isShruggie c)) l)
    by (intros l Hl; apply list_elem_of_filter in Hl as [Hl _]; done).
  assert (Ht : ∀ l, RShruggie ∈ filter (λ c, negb (isTitle c)) l ↔ RShruggie ∈ l)
    by (intros l; rewrite list_elem_of_filter; cbn; tauto).
  destruct (decide (enteredText = "")), (decide (hiddenCount w updates = _));
    cbn [removeTitle insertTitle rootRemove rootAppendUnique insertShruggie
         removeShruggie root with_root with_titleText];
    rewrite ?elem_of_app, ?Ht, ?list_elem_of_singleton; split; intros H;
    try done; try (by apply Hin); try (by apply Hout in H).
  - left. apply Hin.
  - destruct H as [H|H]; [by apply Hout in H|done].
Qed.

(** ** Claim C5 *)

Lemma NoDup_fmap_elem {A B} (f : A → B) (l : list A) x y :
  NoDup (f <$> l) → x ∈ l → y ∈ l → f x = f y → x = y.
Proof.
  intros Hnd Hx Hy Hf.
  apply list_elem_of_lookup in Hx as [i Hi].
  apply list_elem_of_lookup in Hy as [j Hj].
  assert (Hi' : (f <$> l) !! i = Some (f x)) by (by rewrite list_lookup_fmap, Hi).
  assert (Hj' : (f <$> l) !! j = Some (f x))
    by (by rewrite list_lookup_fmap, Hj, Hf).
  pose proof (NoDup_lookup _ _ _ _ Hnd Hi' Hj') as ->. congruence.
Qed.

Lemma NoDup_hides (updates : list HintUpdate) :
  NoDup (index <$> updates) →
  NoDup (index <$> filter (λ u, isHide u = true) updates).
Proof.
  intros Hnd. apply (sublist_NoDup _ (index <$> updates)); [exact Hnd|].
  apply fmap_sublist, sublist_filter.
Qed.

Lemma isHide_Hide (u : HintUpdate) : isHide u = true → u = Hide (index u).
Proof. by destruct u. Qed.

(** With [Hide] updates for pairwise different indices, the count reaches
    the number of hints exactly when every hint has its [Hide]. *)
Lemma hiddenCount_all (w : World) (updates : list HintUpdate) :
  NoDup (index <$> filter (λ u, isHide u = true) updates) →
  (hiddenCount w updates = length (hints w) ↔
   ∀ i, i < length (hints w) → Hide i ∈ updates).
Proof.
  intros Hnd. unfold hiddenCount.
  set (V := filter _ updates).
  assert (HV : ∀ u, u ∈ V ↔
            u ∈ updates ∧ isHide u = true ∧ index u < length (hints w)).
  { intros u. unfold V. rewrite list_elem_of_filter, lookup_lt_is_Some. tauto. }
  assert (HndV : NoDup (index <$> V)).
  { apply (sublist_NoDup _ (index <$> filter (λ u, isHide u = true) updates));
      [exact Hnd|].
    apply fmap_sublist. unfold V.
    rewrite (list_filter_iff _
               (λ u, is_Some (hints w !! index u) ∧ isHide u = true))
      by (intros; tauto).
    rewrite <- (list_filter_filter (λ u, is_Some (hints w !! index u))
                  (λ u, isHide u = true) updates).
    apply sublist_filter. }
  assert (Hsub : index <$> V ⊆+ seq 0 (length (hints w))).
  { apply NoDup_submseteq; [exact HndV|].
    intros j Hj. apply list_elem_of_fmap in Hj as (u & -> & Hu).
    apply HV in Hu as (_ & _ & Hu). apply elem_of_seq. lia. }
  rewrite <- (length_fmap index V). split.
  - intros Hlen i Hi.
    assert (Hp : index <$> V ≡ₚ seq 0 (length (hints w))).
    { apply submseteq_length_Permutation; [exact Hsub|].
      rewrite length_seq. lia. }
    assert (Hin : i ∈ index <$> V).
    { rewrite Hp. apply elem_of_seq. lia. }
    apply list_elem_of_fmap in Hin as (u & -> & Hu).
    apply HV in Hu as (Hu & Hh & _).
    by rewrite <- (isHide_Hide u Hh).
  - intros Hall.
    assert (Hsup : seq 0 (length (hints w)) ⊆+ index <$> V).
    { apply NoDup_submseteq; [apply NoDup_seq|].
      intros i Hi. apply elem_of_seq in Hi.
      apply list_elem_of_fmap. exists (Hide i). split; [done|].
      apply HV. split; [apply Hall; lia|]. split; [done|]. cbn. lia. }
    apply submseteq_length in Hsub, Hsup. rewrite length_seq in Hsub, Hsup.
    lia.
Qed.

(** C5, as stated, fails on the code, which counts the [Hide] updates of
    the batch.  A batch with two [Hide] for the first hint and one for the
    second hides every hint and counts three for two hints: the placeholder
    is removed.  A batch with a [Hide] for every hint and then an [Update]
    for the second hint counts two for two hints: the placeholder is shown
    beside a hint that is visible. *)
Lemma C5_counterexample :
  ¬ (∀ pg updates enteredText w,
       (∀ i, i < length (hints w) → Hide i ∈ updates) →
       placeholderShown (updateHints pg updates enteredText w)) ∧
  ¬ (∀ pg updates enteredText w r,
       r ∈ hints w →
       visible (updateHints pg updates enteredText w) r →
       ¬ placeholderShown (updateHints pg updates enteredText w)).
Proof.
  split.
  - intros H.
    specialize (H Example.page [Hide 0; Hide 0; Hide 1] "a" twoHints).
    rewrite placeholder_decision in H.
    assert (Hall : ∀ i, i < length (hints twoHints) →
                     Hide i ∈ [Hide 0; Hide 0; Hide 1]).
    { change (length (hints twoHints)) with 2. intros i Hi.
      destruct i as [|[|i]]; [| |lia]; rewrite !elem_of_cons; auto. }
    apply H in Hall. vm_compute in Hall. discriminate Hall.
  - intros H.
    specialize (H Example.page [Hide 0; Hide 1; Update 1 "" "B" false] "a"
                  twoHints 4).
    apply H.
    + apply list_elem_of_lookup. exists 1. vm_compute. reflexivity.
    + unfold visible.
      assert (Hb : match heap (updateHints Example.page
                                 [Hide 0; Hide 1; Update 1 "" "B" false] "a"
                                 twoHints) !! 4 with
                   | Some el => bool_decide (HIDDEN_HINT_CLASS ∉ classList el)
                   | None => false
                   end = true) by (vm_compute; reflexivity).
      destruct (heap _ !! 4) as [el|]; [|discriminate Hb].
      exists el. split; [reflexivity|]. exact (bool_decide_eq_true_1 _ Hb).
    + apply placeholder_decision. vm_compute. reflexivity.
Qed.

(** C5, amended.  After [updateHints] the placeholder is shown exactly when
    the number of [Hide] updates of the batch that address an existing hint
    equals the number of hints.  So when the [Hide] updates of the batch
    have pairwise different indices, it is shown exactly when the batch
    carries a [Hide] for every existing hint; and when all updates of the
    batch have pairwise different indices, a single [Update] for an
    existing hint removes it. *)
Theorem C5_placeholder pg updates enteredText w :
  let w' := updateHints pg updates enteredText w in
  (placeholderShown w' ↔ hiddenCount w updates = length (hints w)) ∧
  (NoDup (index <$> filter (λ u, isHide u = true) updates) →
   (placeholderShown w' ↔ ∀ i, i < length (hints w) → Hide i ∈ updates)) ∧
  (NoDup (index <$> updates) →
   ∀ u, u ∈ updates → isHide u = false → index u < length (hints w) →
     ¬ placeholderShown w').
Proof.
  cbn zeta. split; [apply placeholder_decision|]. split.
  - intros Hnd. rewrite placeholder_decision. by apply hiddenCount_all.
  - intros Hnd u Hu Hv Hi Hshown.
    apply placeholder_decision in Hshown.
    pose proof (proj1 (hiddenCount_all w updates (NoDup_hides updates Hnd))
                  Hshown (index u) Hi) as Hin.
    assert (E : Hide (index u) = u)
      by (apply (NoDup_fmap_elem index updates); done).
    rewrite <- E in Hv. discriminate Hv.
Qed.

Lemma C5_placeholder_witness :
  NoDup (index <$> [Hide 0; Hide 1]) ∧
  placeholderShown (updateHints Example.page [Hide 0; Hide 1] "a" twoHints) ∧
  NoDup (index <$> [Hide 0; Update 1 "" "B" false]) ∧
  ¬ placeholderShown
      (updateHints Example.page [Hide 0; Update 1 "" "B" false] "a" twoHints).
Proof.
  assert (Hnd : NoDup (index <$> [Hide 0; Hide 1])).
  { cbn. repeat constructor; rewrite ?elem_of_cons, ?elem_of_nil; lia. }
  assert (Hnd' : NoDup (index <$> [Hide 0; Update 1 "" "B" false])).
  { cbn. repeat constructor; rewrite ?elem_of_cons, ?elem_of_nil; lia. }
  split; [exact Hnd|]. split; [|split; [exact Hnd'|]].
  - apply (proj1 (proj2 (C5_placeholder Example.page [Hide 0; Hide 1] "a"
                           twoHints))).
    + exact Hnd.
    + change (length (hints twoHints)) with 2. intros i Hi.
      destruct i as [|[|i]]; [| |lia]; rewrite !elem_of_cons; auto.
  - apply (proj2 (proj2 (C5_placeholder Example.page
                           [Hide 0; Update 1 "" "B" false] "a" twoHints))
             Hnd' (Update 1 "" "B" false)).
    + rewrite !elem_of_cons. auto.
    + reflexivity.
    + change (length (hints twoHints)) with 2. cbn. lia.
Defined.

(** ** Claim C10 *)

Lemma updateOne_heap_other pg enteredText a u r :
  hints (current a) !! index u ≠ Some r →
  heap (current (updateOne pg enteredText a u)) !! r = heap (current a) !! r.
Proof.
  intros Hne. unfold updateOne.
  destruct (hints (current a) !! index u) as [child|]; [|done].
  assert (Hc : child ≠ r) by congruence.
  destruct u as [i|i matched rest hl].
  - rewrite maybeApplyStyles_id. cbn. by rewrite lookup_alter_ne.
  - destruct (decide (matched ≠ "")); [|destruct (decide (enteredText ≠ _))];
      rewrite maybeApplyStyles_id; cbn; by rewrite !lookup_alter_ne.
Qed.

Lemma foldl_updateOne_heap_other pg enteredText updates r : ∀ a,
  (∀ u, u ∈ updates → hints (current a) !! index u ≠ Some r) →
  heap (current (foldl (updateOne pg enteredText) a updates)) !! r =
    heap (current a) !! r.
Proof.
  induction updates as [|u updates IH]; intros a H; cbn [foldl]; [done|].
  destruct (updateOne_frame pg enteredText a u) as (F & _).
  assert (Hh : hints (current (updateOne pg enteredText a u)) = hints (current a))
    by (unfold frame in F; congruence).
  rewrite IH.
  - apply updateOne_heap_other, H, elem_of_cons. by left.
  - intros u' Hu'. rewrite Hh. apply H, elem_of_cons. by right.
Qed.

Lemma updateHints_heap pg updates enteredText w :
  heapsOutsideMargins (current (updateLoop pg enteredText updates w))
    (updateHints pg updates enteredText w).
Proof.
  unfold updateHints. set (a := updateLoop pg enteredText updates w).
  set (w1 := if decide (numHidden a = _) then _ else _).
  set (w2 := if decide (enteredText = "") then _ else _).
  assert (H2 : heap w2 = heap (current a)).
  { unfold w2, w1. destruct (decide (enteredText = "")), (decide (numHidden a = _));
      reflexivity. }
  assert (G : heapsOutsideMargins (current a) w2).
  { intros r. rewrite H2. apply heapsOutsideMargins_refl. }
  destruct (maybeNeedsMoveInsideViewport a) as [|r q]; [exact G|].
  eapply heapsOutsideMargins_trans; [exact G|].
  intros r'. cbn [heap with_enteredTextChars].
  apply moveInsideViewport_frame.
Qed.

Lemma updateHints_untouched pg updates enteredText w r el :
  (∀ u, u ∈ updates → hints w !! index u ≠ Some r) →
  heap w !! r = Some el →
  ∃ el', heap (updateHints pg updates enteredText w) !! r = Some el' ∧
         classList el' = classList el ∧ children el' = children el.
Proof.
  intros Hu Hel. pose proof (updateHints_heap pg updates enteredText w r) as H.
  unfold updateLoop in H. rewrite foldl_updateOne_heap_other in H by exact Hu.
  cbn [current] in H. rewrite Hel in H. inversion H as [? el' (A & B & _)|]; subst.
  eauto.
Qed.

Lemma hiddenCount_length (w1 w2 : World) (updates : list HintUpdate) :
  length (hints w1) = length (hints w2) →
  hiddenCount w1 updates = hiddenCount w2 updates.
Proof.
  intros Hlen. unfold hiddenCount. f_equal. apply list_filter_iff.
  intros u. rewrite !lookup_lt_is_Some, Hlen. tauto.
Qed.

(** C10, as stated, fails on the code, which counts the [Hide] updates of
    the batch.  After a batch that hid the second of two hints, a batch with
    two [Hide] for the first hint sends no [Hide] for the second and counts
    two for two hints: the placeholder is shown, not removed. *)
Lemma C10_counterexample :
  ¬ (∀ pg updates enteredText w i,
       i < length (hints w) → Hide i ∉ updates →
       ¬ placeholderShown (updateHints pg updates enteredText w)) ∧
  ¬ placeholderShown oneHidden ∧
  (Hide 1 ∉ [Hide 0; Hide 0]) ∧
  placeholderShown (updateHints Example.page [Hide 0; Hide 0] "a" oneHidden).
Proof.
  assert (Hnot : Hide 1 ∉ [Hide 0; Hide 0]).
  { rewrite !elem_of_cons, elem_of_nil. intros [H|[H|[]]]; discriminate H. }
  assert (Hshown : placeholderShown
                     (updateHints Example.page [Hide 0; Hide 0] "a" oneHidden)).
  { apply placeholder_decision. vm_compute. reflexivity. }
  split; [|split; [|split; [exact Hnot|exact Hshown]]].
  - intros H.
    apply (H Example.page [Hide 0; Hide 0] "a" oneHidden 1);
      [vm_compute; lia|exact Hnot|exact Hshown].
  - unfold oneHidden. rewrite placeholder_decision. vm_compute. discriminate.
Qed.

(** C10, amended.  Whether the placeholder is shown after [updateHints] is
    decided by the batch and the number of hints alone: it is shown exactly
    when the number of [Hide] updates of the batch that address an existing
    hint equals the number of hints, whatever classes the hints carry.  So
    a batch whose [Hide] updates have pairwise different indices and that
    sends no [Hide] for some hint removes the placeholder, while every hint
    the batch does not address keeps its classes, the hidden class among
    them. *)
Theorem C10_batch_only pg updates enteredText w :
  let w' := updateHints pg updates enteredText w in
  (placeholderShown w' ↔ hiddenCount w updates = length (hints w)) ∧
  (∀ pg2 enteredText2 w2,
     length (hints w2) = length (hints w) →
     (placeholderShown (updateHints pg2 updates enteredText2 w2) ↔
      placeholderShown w')) ∧
  (NoDup (index <$> filter (λ u, isHide u = true) updates) →
   ∀ i, i < length (hints w) → Hide i ∉ updates → ¬ placeholderShown w') ∧
  (∀ r el,
     (∀ u, u ∈ updates → hints w !! index u ≠ Some r) →
     heap w !! r = Some el →
     ∃ el', heap w' !! r = Some el' ∧ classList el' = classList el).
Proof.
  cbn zeta. split; [apply placeholder_decision|]. split; [|split].
  - intros pg2 enteredText2 w2 Hlen. rewrite !placeholder_decision.
    by rewrite (hiddenCount_length w2 w updates Hlen), Hlen.
  - intros Hnd i Hi Hnot Hshown.
    apply placeholder_decision in Hshown.
    exact (Hnot (proj1 (hiddenCount_all w updates Hnd) Hshown i Hi)).
  - intros r el Hu Hel.
    destruct (updateHints_untouched pg updates enteredText w r el Hu Hel)
      as (el' & A & B & _).
    eauto.
Qed.

Lemma C10_batch_only_witness :
  placeholderShown allHidden ∧
  NoDup (index <$> filter (λ u, isHide u = true) [Hide 0]) ∧
  ¬ placeholderShown (updateHints Example.page [Hide 0] "a" allHidden) ∧
  ∃ el', heap (updateHints Example.page [Hide 0] "a" allHidden) !! 4 = Some el' ∧
         HIDDEN_HINT_CLASS ∈ classList el'.
Proof.
  assert (Hnd : NoDup (index <$> filter (λ u, isHide u = true) [Hide 0])).
  { cbn. repeat constructor; rewrite ?elem_of_cons, ?elem_of_nil; lia. }
  assert (Hnot : Hide 1 ∉ [Hide 0]).
  { rewrite !elem_of_cons, elem_of_nil. intros [H|[]]; discriminate H. }
  assert (Hother : ∀ u : HintUpdate, u ∈ [Hide 0] →
                     hints allHidden !! index u ≠ Some 4).
  { intros u Hu. apply list_elem_of_singleton in Hu as ->.
    vm_compute. discriminate. }
  assert (Hshown : placeholderShown allHidden).
  { apply list_elem_of_lookup. exists 3. vm_compute. reflexivity. }
  assert (Hel : ∃ el, heap allHidden !! 4 = Some el ∧
                      HIDDEN_HINT_CLASS ∈ classList el).
  { assert (Hb : match heap allHidden !! 4 with
                 | Some el => bool_decide (HIDDEN_HINT_CLASS ∈ classList el)
                 | None => false
                 end = true) by (vm_compute; reflexivity).
    destruct (heap allHidden !! 4) as [el|]; [|discriminate Hb].
    exists el. split; [reflexivity|]. exact (bool_decide_eq_true_1 _ Hb). }
  destruct (C10_batch_only Example.page [Hide 0] "a" allHidden)
    as (_ & _ & H3 & H4).
  split; [exact Hshown|]. split; [exact Hnd|]. split.
  - apply (H3 Hnd 1); [vm_compute; lia|exact Hnot].
  - destruct Hel as (el & Hel & Hc).
    destruct (H4 4 el Hother Hel) as (el' & A & B).
    exists el'. split; [exact A|]. rewrite B. exact Hc.
Defined.

(** ** The log does not steer the program *)

Lemma untrace_with_trace tr w : untrace (with_trace tr w) = untrace w.
Proof. reflexivity. Qed.

Lemma untrace_idempotent w : untrace (untrace w) = untrace w.
Proof. reflexivity. Qed.





(** ** Claim C9 *)


Lemma updateOne_hints pg enteredText a u :
  hints (current (updateOne pg enteredText a u)) = hints (current a).
Proof.
  destruct (updateOne_frame pg enteredText a u) as (F & _).
  unfold frame in F. congruence.
Qed.


Lemma updateHints_finish pg updates enteredText w :
  updateHints pg updates enteredText w =
    finishUpdate pg enteredText (updateLoop pg enteredText updates w).
Proof. reflexivity. Qed.





Lemma moveOne_trace pg viewport w moved r :
  ∃ ms, trace (moveOne pg viewport (w, moved) r).1 = trace w ++ ms ∧
        Forall isMeasured ms.
Proof.
  destruct (heap w !! r) as [e|] eqn:H.
  - rewrite (moveOne_Some pg viewport w moved r e H).
    exists [Measured r (getBoundingClientRect pg r e)]. split; [reflexivity|].
    by repeat constructor.
  - rewrite (moveOne_None pg viewport w moved r H). exists [].
    split; [by rewrite app_nil_r|constructor].
Qed.

Lemma moveInsideViewport_trace pg elements viewport w :
  ∃ ms, trace (moveInsideViewport pg elements viewport w).1 = trace w ++ ms ∧
        Forall isMeasured ms.
Proof.
  unfold moveInsideViewport. generalize false as moved. revert w.
  induction elements as [|r elements IH]; intros w moved; cbn [foldl].
  - exists []. split; [by rewrite app_nil_r|constructor].
  - destruct (moveOne_trace pg viewport w moved r) as (ms1 & E1 & F1).
    destruct (moveOne pg viewport (w, moved) r) as [w1 moved1].
    destruct (IH w1 moved1) as (ms2 & E2 & F2). cbn [fst] in E1.
    exists (ms1 ++ ms2). split.
    + by rewrite E2, E1, app_assoc.
    + by apply Forall_app.
Qed.



(** ** The rectangle cache *)

Lemma lastMeasured_app r tr ev :
  lastMeasured r (tr ++ [ev]) =
    match ev with
    | Measured r' rect => if decide (r' = r) then Some rect else lastMeasured r tr
    | _ => lastMeasured r tr
    end.
Proof.
  induction tr as [|ev' tr IH]; cbn [app lastMeasured].
  - destruct ev as [r' rect| |]; [destruct (decide (r' = r))|..]; done.
  - rewrite IH. destruct ev as [r' rect| |]; [destruct (decide (r' = r))|..];
      try done.
Qed.

Lemma lastMeasured_other r tr evs :
  Forall (λ ev, ¬ isMeasured ev) evs →
  lastMeasured r (tr ++ evs) = lastMeasured r tr.
Proof.
  intros H. revert tr. induction H as [|ev evs Hev _ IH]; intros tr.
  - by rewrite app_nil_r.
  - rewrite (cons_middle ev), app_assoc, IH, lastMeasured_app.
    destruct ev; [by destruct Hev|done..].
Qed.

Lemma cacheCurrent_keep w w' evs :
  (∀ r rect, rects w' !! r = Some rect → rects w !! r = Some rect) →
  trace w' = trace w ++ evs → Forall (λ ev, ¬ isMeasured ev) evs →
  cacheCurrent w → cacheCurrent w'.
Proof.
  intros Hr Ht Hevs Hinv r rect H. rewrite Ht, lastMeasured_other by done.
  apply Hinv, Hr, H.
Qed.

Lemma cacheCurrent_static w w' :
  static w' = static w → cacheCurrent w → cacheCurrent w'.
Proof.
  intros E. apply (cacheCurrent_keep w w' []).
  - unfold static in E. intros r rect. congruence.
  - unfold static in E. rewrite app_nil_r. congruence.
  - constructor.
Qed.

Lemma cacheCurrent_empty w : rects w = ∅ → cacheCurrent w.
Proof. intros E r rect H. rewrite E in H. by rewrite lookup_empty in H. Qed.

Lemma cacheCurrent_moveOne pg viewport w moved r :
  cacheCurrent w → cacheCurrent (moveOne pg viewport (w, moved) r).1.
Proof.
  intros Hinv. destruct (heap w !! r) as [e|] eqn:H.
  - rewrite (moveOne_Some pg viewport w moved r e H). cbn [fst].
    intros r' rect'. unfold afterMove. cbn [rects trace with_heap with_trace with_rects].
    rewrite lastMeasured_app. destruct (decide (r = r')) as [->|Hne].
    + rewrite lookup_insert_eq. done.
    + rewrite lookup_insert_ne by done. apply Hinv.
  - by rewrite (moveOne_None pg viewport w moved r H).
Qed.

Lemma cacheCurrent_moveInsideViewport pg elements viewport w :
  cacheCurrent w → cacheCurrent (moveInsideViewport pg elements viewport w).1.
Proof.
  unfold moveInsideViewport. generalize false as moved. revert w.
  induction elements as [|r elements IH]; intros w moved Hinv; cbn [foldl].
  - exact Hinv.
  - pose proof (cacheCurrent_moveOne pg viewport w moved r Hinv) as H1.
    destruct (moveOne pg viewport (w, moved) r) as [w1 moved1]. by apply IH.
Qed.

Lemma cacheCurrent_unrender w : cacheCurrent (unrender w).
Proof. apply cacheCurrent_empty. by rewrite unrender_eq. Qed.

Lemma cacheCurrent_renderStart pg elements w :
  cacheCurrent w → cacheCurrent (renderStart pg elements w).1.
Proof.
  intros Hinv. unfold renderStart. destruct (document w); [|exact Hinv].
  destruct (prepare_static pg w) as (_ & R & _).
  assert (H0 : cacheCurrent (prepare pg w)) by (by apply cacheCurrent_empty).
  revert H0. generalize (prepare pg w). intros w0 H0.
  destruct elements as [|e elements].
  { cbn [fst]. exact H0. }
  pose proof (probe_static pg w0) as S.
  destruct (probe pg w0) as [wp p]. cbn [fst] in S.
  set (l := renderLoop _ _ _ _ _ _).
  assert (Hl : cacheCurrent (world l)).
  { apply (cacheCurrent_static wp).
    - apply renderLoop_static.
    - by apply (cacheCurrent_static w0). }
  cbn [fst]. destruct (0 <? numEdgeElements l); [|exact Hl].
  by apply cacheCurrent_moveInsideViewport.
Qed.

Lemma cacheCurrent_sent m w : cacheCurrent w → cacheCurrent (sendMessage m w).
Proof.
  apply (cacheCurrent_keep w _ [Sent m]); [done|done|].
  repeat constructor. by intros [].
Qed.

Lemma cacheCurrent_renderFinish pg k w :
  cacheCurrent w → cacheCurrent (renderFinish pg k w).
Proof.
  intros Hinv. unfold renderFinish.
  pose proof (cacheCurrent_moveInsideViewport pg (restElements k) (captured k) w Hinv) as H.
  destruct (moveInsideViewport pg (restElements k) (captured k) w) as [w1 moved].
  by apply (cacheCurrent_sent Rendered).
Qed.

Lemma cacheCurrent_updateHints pg updates enteredText w :
  cacheCurrent w → cacheCurrent (updateHints pg updates enteredText w).
Proof.
  intros Hinv. rewrite updateHints_finish.
  destruct (updateLoop_frame pg enteredText updates w) as (_ & R & T).
  cbn zeta in R, T.
  assert (Ha : cacheCurrent (current (updateLoop pg enteredText updates w))).
  { apply (cacheCurrent_keep w _ (missing w updates)); try done.
    - intros r rect. by rewrite R.
    - unfold missing. apply Forall_fmap, Forall_forall. intros u _. by intros []. }
  revert Ha. generalize (updateLoop pg enteredText updates w). intros a Ha.
  unfold finishUpdate. cbv zeta.
  set (w2 := if decide (enteredText = "") then _ else _).
  assert (H2 : cacheCurrent w2).
  { unfold w2. destruct (decide (enteredText = "")), (decide (numHidden a = _));
      exact Ha. }
  destruct (maybeNeedsMoveInsideViewport a) as [|r q]; [exact H2|].
  exact (cacheCurrent_moveInsideViewport pg (r :: q) (getViewport pg) w2 H2).
Qed.

Lemma cacheCurrent_step w w' : step w w' → cacheCurrent w → cacheCurrent w'.
Proof.
  intros Hstep Hinv. destruct Hstep as [pg m w|t w Ht|pg k ks w Hk|w].
  - destruct m as [|message|]; cbn [onMessage];
      [by apply cacheCurrent_sent| |exact Hinv].
    destruct message as [|elements|updates text|forward|boxes frameId| |mode].
    + exact Hinv.
    + pose proof (cacheCurrent_renderStart pg elements w Hinv) as H.
      destruct (renderStart pg elements w) as [w1 [k|]]; exact H.
    + by apply cacheCurrent_updateHints.
    + eapply cacheCurrent_static; [|exact Hinv]. apply rotateHints_static.
    + exact Hinv.
    + exact Hinv.
    + destruct mode.
      * apply cacheCurrent_unrender.
      * unfold unrenderDelayed. destruct (unrenderTimeoutId w); exact Hinv.
      * unfold unrenderToTitle. destruct (unrenderTimeoutId w); exact Hinv.
  - destruct (callback t); cbn [runCallback].
    + apply cacheCurrent_unrender.
    + by apply cacheCurrent_empty.
  - apply (resume_inv cacheCurrent).
    + intros k0. by apply cacheCurrent_moveInsideViewport.
    + intros w' H'. exact H'.
    + intros w' H'. by apply (cacheCurrent_sent Rendered).
    + exact Hinv.
  - apply cacheCurrent_unrender.
Qed.

Lemma reachable_cacheCurrent w : reachable w → cacheCurrent w.
Proof.
  induction 1 as [doc|w w' _ IH Hstep].
  - apply cacheCurrent_unrender.
  - by eapply cacheCurrent_step.
Qed.

(** ** Overlap stacks: termination and dependence on the rectangles *)

Lemma getStackLoop_total rectOf : ∀ fuel element elements index stack,
  stackFuel (length elements) index ≤ fuel →
  ∃ stack' elements',
    getStackLoop fuel rectOf element elements index stack =
      Some (stack', elements') ∧
    length elements' ≤ length elements.
Proof.
  unfold stackFuel.
  induction fuel as [|fuel IH]; intros element elements index stack Hf; [lia|].
  cbn [getStackLoop].
  destruct (elements !! index) as [nextElement|] eqn:E; [|eauto].
  apply lookup_lt_Some in E.
  destruct (overlaps (rectOf nextElement) (rectOf element)).
  - assert (Hd : length (delete index elements) = length elements - 1).
    { rewrite length_delete; [done|]. by apply lookup_lt_is_Some_2. }
    destruct (IH nextElement (delete index elements) 0 [nextElement])
      as (sub & elements1 & E1 & L1).
    { rewrite Hd. nia. }
    rewrite E1.
    destruct (IH element elements1 index (stack ++ sub))
      as (stack2 & elements2 & E2 & L2).
    { assert (length elements1 ≤ length elements - 1) by lia.
      assert (S (length elements1) * S (length elements1)
              ≤ length elements * length elements) by nia.
      nia. }
    rewrite E2. exists stack2, elements2. split; [done|]. lia.
  - apply IH. nia.
Qed.

Lemma getStackFor_total rectOf element elements :
  ∃ stack elements',
    getStackFor rectOf element elements = Some (stack, elements') ∧
    length elements' ≤ length elements.
Proof. apply getStackLoop_total. lia. Qed.

Lemma pop_length elements element elements' :
  pop elements = Some (element, elements') →
  length elements = S (length elements').
Proof.
  unfold pop. destruct (last elements) as [x|] eqn:E; [|done].
  intros H. injection H as <- <-.
  destruct elements as [|a l] using rev_ind; [done|].
  rewrite removelast_last, length_app. cbn. lia.
Qed.

Lemma getStacksLoop_total rectOf : ∀ fuel elements stacks,
  length elements < fuel →
  is_Some (getStacksLoop fuel rectOf elements stacks).
Proof.
  induction fuel as [|fuel IH]; intros elements stacks Hf; [lia|].
  cbn [getStacksLoop].
  destruct (pop elements) as [[element elements1]|] eqn:E; [|eauto].
  apply pop_length in E.
  destruct (getStackFor_total rectOf element elements1)
    as (stack & elements2 & E2 & L2).
  rewrite E2. apply IH. lia.
Qed.

Lemma getStacks_total rectOf originalElements :
  is_Some (getStacks rectOf originalElements).
Proof. apply getStacksLoop_total. lia. Qed.

Lemma getStackLoop_ext f g :
  (∀ r, f r = g r) →
  ∀ fuel element elements index stack,
    getStackLoop fuel f element elements index stack =
      getStackLoop fuel g element elements index stack.
Proof.
  intros H. induction fuel as [|fuel IH]; intros element elements index stack;
    [done|].
  cbn [getStackLoop]. destruct (elements !! index) as [nextElement|]; [|done].
  rewrite !H. destruct (overlaps (g nextElement) (g element)); [|apply IH].
  rewrite IH.
  destruct (getStackLoop fuel g nextElement (delete index elements) 0 [nextElement])
    as [[sub elements1]|]; [apply IH|done].
Qed.

Lemma getStacks_ext f g originalElements :
  (∀ r, f r = g r) → getStacks f originalElements = getStacks g originalElements.
Proof.
  intros H. unfold getStacks. generalize (@nil (list nat)) as stacks.
  generalize (S (length originalElements)) as fuel. intros fuel. revert originalElements.
  induction fuel as [|fuel IH]; intros elements stacks; [done|].
  cbn [getStacksLoop]. destruct (pop elements) as [[element elements1]|]; [|done].
  unfold getStackFor. rewrite (getStackLoop_ext f g H).
  destruct (getStackLoop _ g element elements1 0 [element]) as [[stack elements2]|];
    [apply IH|done].
Qed.

(** ** Claim C7 *)

Lemma reachable_render pg elements w :
  reachable w → paints w = [] → paints (renderStart pg elements w).1 = [] →
  reachable (render pg elements w).
Proof.
  intros R P P1.
  pose proof (reachable_step _ _ R
                (step_message pg (ToRendererMsg (Render elements)) w)) as R1.
  cbn [onMessage] in R1. unfold render.
  destruct (renderStart pg elements w) as [w1 [k|]]; [|exact R1].
  cbn [fst] in P1. rewrite P1 in R1. cbn [app] in R1.
  pose proof (step_paint pg (FirstPaint k) [] (with_paints [FirstPaint k] w1)
                eq_refl) as S.
  replace (with_paints [] (with_paints [FirstPaint k] w1)) with w1 in S
    by (destruct w1; cbn in P1; by subst).
  pose proof (reachable_step _ _ R1 S) as R2. clear R1 S.
  cbn [resume] in R2. unfold renderFinish.
  destruct (moveInsideViewport_frame pg (restElements k) (captured k) w1)
    as [F _].
  destruct (moveInsideViewport pg (restElements k) (captured k) w1)
    as [w2 moved].
  destruct moved; [|exact R2].
  assert (P2 : paints w2 = []).
  { cbn [fst] in F. unfold frame in F. congruence. }
  rewrite P2 in R2. cbn [app] in R2.
  pose proof (step_paint pg SecondPaint [] (with_paints [SecondPaint] w2)
                eq_refl) as S.
  cbn [resume] in S.
  replace (with_paints [] (with_paints [SecondPaint] w2)) with w2 in S
    by (destruct w2; cbn in P2; by subst).
  exact (reachable_step _ _ R2 S).
Qed.

Lemma reachable_twoHints : reachable twoHints.
Proof.
  apply reachable_render; [apply reachable_start|vm_compute; reflexivity..].
Qed.

(** C7 fails on the code.  [moveInsideViewport] caches the rectangle it
    measured before it writes the margin that moves the node, so the cached
    rectangle of a node it moved is not the node's position after the pass.
    In [pulledOver] the hint of A was measured from -4 to 14 and now lies
    from 0 to 18, where it overlaps the hint of B, which starts at 16.
    With the cache [getStacks] finds two stacks of one hint each and
    [rotateHints] changes nothing; with live measurements, or an empty
    cache, it finds one stack of both hints and [rotateHints] swaps their
    stacking indices. *)
Theorem C7_cache_stale :
  let pg := Example.page in
  reachable pulledOver ∧
  hints pulledOver = [3; 4] ∧
  (∃ rect, rects pulledOver !! 3 = Some rect ∧
     lastMeasured 3 (trace pulledOver) = Some rect ∧
     (r_bottom rect == inject_Z 14)%Q ∧
     (r_bottom (liveRect pg pulledOver 3) == inject_Z 18)%Q ∧
     (r_top (liveRect pg pulledOver 4) == inject_Z 16)%Q) ∧
  getStacks (rectFor pg pulledOver) (hints pulledOver) = Some [[4]; [3]] ∧
  getStacks (liveRect pg pulledOver) (hints pulledOver) = Some [[4; 3]] ∧
  getStacks (rectFor pg (with_rects ∅ pulledOver)) (hints pulledOver)
    = Some [[4; 3]] ∧
  stacking (rotateHints true pg pulledOver) = stacking pulledOver ∧
  stacking (rotateHints true pg (with_rects ∅ pulledOver))
    = rev (stacking pulledOver).
Proof.
  cbv zeta.
  assert (R : reachable pulledOver).
  { apply reachable_render;
      [apply reachable_start|vm_compute; reflexivity..]. }
  split; [exact R|]. split; [vm_compute; reflexivity|]. split.
  - destruct (rects pulledOver !! 3) as [rect|] eqn:E;
      [|vm_compute in E; discriminate E].
    exists rect. split; [reflexivity|].
    split; [exact (reachable_cacheCurrent pulledOver R 3 rect E)|].
    split; [|split; vm_compute; reflexivity].
    vm_compute in E. injection E as <-. vm_compute. reflexivity.
  - split; [vm_compute; reflexivity|].
    split; [vm_compute; reflexivity|].
    split; [vm_compute; reflexivity|].
    split; vm_compute; reflexivity.
Qed.

(** ** What [moveInsideViewport] writes *)

Lemma afterMove_heap pg viewport r e rect w r' :
  heap (afterMove pg viewport r e rect w) !! r' =
    if decide (r = r') then Some (setStyles e (correction pg viewport rect))
    else heap w !! r'.
Proof.
  unfold afterMove. cbn [heap with_heap]. destruct (decide (r = r')) as [->|Hne].
  - apply lookup_insert_eq.
  - by apply lookup_insert_ne.
Qed.

Lemma occurrences_cons r r' elements :
  occurrences r (r' :: elements) =
    if decide (r' = r) then S (occurrences r elements)
    else occurrences r elements.
Proof.
  unfold occurrences. destruct (decide (r' = r)) as [H|H].
  - by rewrite filter_cons_True.
  - by rewrite filter_cons_False.
Qed.

Lemma correction_nil pg viewport rect :
  crossed viewport rect = false → correction pg viewport rect = [].
Proof.
  unfold crossed, correction.
  destruct (r_left rect <q 0), (r_top rect <q 0),
    (width viewport <q r_right rect), (height viewport <q r_bottom rect);
    done.
Qed.

Lemma moveElement_uncrossed pg viewport r e :
  crossed viewport (getBoundingClientRect pg r e) = false →
  moveElement pg viewport r e = e.
Proof.
  intros Hc. unfold moveElement. rewrite correction_nil by exact Hc.
  apply setStyles_nil.
Qed.

Lemma iter_moveElement_uncrossed pg viewport r e n :
  crossed viewport (getBoundingClientRect pg r e) = false →
  Nat.iter n (moveElement pg viewport r) e = e.
Proof.
  intros Hc. induction n as [|n IH]; [reflexivity|].
  rewrite Nat.iter_succ, IH. by apply moveElement_uncrossed.
Qed.

Lemma foldl_moveOne_spec pg viewport elements : ∀ w moved,
  let res := foldl (moveOne pg viewport) (w, moved) elements in
  (∀ r e, heap w !! r = Some e →
     heap res.1 !! r =
       Some (Nat.iter (occurrences r elements) (moveElement pg viewport r) e)) ∧
  (res.2 = true ↔
     moved = true ∨
     ∃ r e, r ∈ elements ∧ heap w !! r = Some e ∧
            crossed viewport (getBoundingClientRect pg r e) = true).
Proof.
  induction elements as [|r elements IH]; intros w moved; cbn [foldl].
  - cbn zeta. cbn [fst snd]. split.
    + intros r e He. exact He.
    + split; [by left|].
      intros [H|(r & e & Hr & _)]; [done|]. by apply elem_of_nil in Hr.
  - destruct (heap w !! r) as [e|] eqn:He.
    + rewrite (moveOne_Some pg viewport w moved r e He).
      set (rect := getBoundingClientRect pg r e).
      destruct (IH (afterMove pg viewport r e rect w)
                  (moved || crossed viewport rect)) as (A & C).
      cbn zeta in *. split.
      * intros r' e' He'. rewrite occurrences_cons.
        destruct (decide (r = r')) as [<-|Hne].
        -- rewrite He in He'. injection He' as <-.
           rewrite Nat.iter_succ_r. apply A. rewrite afterMove_heap.
           destruct (decide (r = r)); [reflexivity|done].
        -- apply A. rewrite afterMove_heap.
           destruct (decide (r = r')); [done|exact He'].
      * destruct (crossed viewport rect) eqn:Hc.
        -- split.
           ++ intros _. right. exists r, e.
              split; [apply elem_of_cons; by left|done].
           ++ intros _. apply C. left. apply orb_true_r.
        -- assert (Hsame : ∀ r', heap (afterMove pg viewport r e rect w) !! r'
                                 = heap w !! r').
           { intros r'. rewrite afterMove_heap.
             destruct (decide (r = r')) as [<-|_]; [|reflexivity].
             rewrite correction_nil by exact Hc. by rewrite setStyles_nil. }
           rewrite C, orb_false_r. split.
           ++ intros [H|(r' & e' & Hr' & He' & Hc')]; [by left|].
              right. exists r', e'. split; [apply elem_of_cons; by right|].
              split; [by rewrite <- Hsame|done].
           ++ intros [H|(r' & e' & Hr' & He' & Hc')]; [by left|].
              apply elem_of_cons in Hr' as [->|Hr'].
              { rewrite He in He'. injection He' as <-. fold rect in Hc'.
                congruence. }
              right. exists r', e'. split; [done|].
              split; [by rewrite Hsame|done].
    + rewrite (moveOne_None pg viewport w moved r He).
      destruct (IH w moved) as (A & C). cbn zeta in *. split.
      * intros r' e' He'. rewrite occurrences_cons.
        destruct (decide (r = r')) as [<-|_]; [congruence|by apply A].
      * rewrite C. split.
        -- intros [H|(r' & e' & Hr' & He' & Hc)]; [by left|].
           right. exists r', e'. split; [apply elem_of_cons; by right|done].
        -- intros [H|(r' & e' & Hr' & He' & Hc)]; [by left|].
           apply elem_of_cons in Hr' as [->|Hr']; [congruence|].
           right. eauto.
Qed.

Lemma correction_marginRight pg viewport rect e :
  style (setStyles e (correction pg viewport rect)) !! "margin-right" =
    if width viewport <q r_right rect
    then Some (Px (Math.round (fsub pg (r_right rect) (width viewport))))
    else if r_left rect <q 0 then Some (Px (Math.round (r_left rect)))
    else style e !! "margin-right".
Proof.
  unfold correction, setStyles. cbn [style].
  destruct (r_left rect <q 0), (r_top rect <q 0),
    (width viewport <q r_right rect), (height viewport <q r_bottom rect);
    cbn [app foldl fst snd];
    rewrite ?(setProperty_lookup_ne "margin-right" "margin-top") by done;
    rewrite ?setProperty_lookup_eq; try done;
    rewrite ?(setProperty_lookup_ne "margin-right" "margin-top") by done;
    rewrite ?setProperty_lookup_eq; done.
Qed.

Lemma correction_marginTop pg viewport rect e :
  style (setStyles e (correction pg viewport rect)) !! "margin-top" =
    if height viewport <q r_bottom rect
    then Some (Px (Math.round (fsub pg (height viewport) (r_bottom rect))))
    else if r_top rect <q 0 then Some (Px (Math.round (- r_top rect)))
    else style e !! "margin-top".
Proof.
  unfold correction, setStyles. cbn [style].
  destruct (r_left rect <q 0), (r_top rect <q 0),
    (width viewport <q r_right rect), (height viewport <q r_bottom rect);
    cbn [app foldl fst snd];
    rewrite ?(setProperty_lookup_ne "margin-top" "margin-right") by done;
    rewrite ?setProperty_lookup_eq; try done;
    rewrite ?(setProperty_lookup_ne "margin-top" "margin-right") by done;
    rewrite ?setProperty_lookup_eq; done.
Qed.

(** ** Corrected nodes in the layout model *)

Lemma round_exactSub pg (a b : Q) :
  exactSub pg a b → Math.round (fsub pg a b) = Math.round (a - b).
Proof.
  unfold exactSub, Math.round. intros H. apply Qfloor_comp. by rewrite H.
Qed.

(** [margin-top] shifts every box. *)
Lemma cssLayout_vertical pg viewport container size r e rect0 :
  style e !! "margin-top" = None →
  let rect := cssLayout container size r e in
  let e' := setStyles e (correction pg viewport rect0) in
  let rect' := cssLayout container size r e' in
  let mt := pxOf (getPropertyValue (style e') "margin-top") in
  (r_top rect' == r_top rect + mt ∧ r_bottom rect' == r_bottom rect + mt)%Q.
Proof.
  intros Hmt. cbn zeta.
  unfold cssLayout, getPropertyValue.
  rewrite setStyles_children.
  rewrite (setStyles_lookup_other e _ "top");
    try (intros H; apply correction_keys in H; by destruct H).
  rewrite Hmt.
  destruct (size (children e)) as [bw bh].
  cbn [r_left r_top r_right r_bottom default pxOf].
  generalize (pxOf (default Empty (style (setStyles e (correction pg viewport rect0)) !! "margin-top"))).
  intros mt. destruct (style e !! "top") as [t|]; cbn [default];
    split; ring.
Qed.

(** [margin-right] shifts a box positioned by [right]. *)
Lemma cssLayout_horizontal pg viewport container size r e rect0 :
  rightAnchored e →
  let rect := cssLayout container size r e in
  let e' := setStyles e (correction pg viewport rect0) in
  let rect' := cssLayout container size r e' in
  let mr := pxOf (getPropertyValue (style e') "margin-right") in
  (r_left rect' == r_left rect - mr ∧ r_right rect' == r_right rect - mr)%Q.
Proof.
  intros (Hl & [rr Hr] & Hmr). cbn zeta.
  unfold cssLayout, getPropertyValue.
  rewrite setStyles_children.
  rewrite (setStyles_lookup_other e _ "left"), (setStyles_lookup_other e _ "right");
    try (intros H; apply correction_keys in H; by destruct H).
  rewrite Hl, Hr, Hmr.
  destruct (size (children e)) as [bw bh].
  cbn [r_left r_top r_right r_bottom default pxOf].
  generalize (pxOf (default Empty (style (setStyles e (correction pg viewport rect0)) !! "margin-right"))).
  intros mr. split; ring.
Qed.

Lemma pulledBackVertically_corrected pg viewport size r e :
  style e !! "margin-top" = None →
  let rect := cssLayout viewport size r e in
  pulledBackVertically pg viewport rect
    (cssLayout viewport size r (setStyles e (correction pg viewport rect))).
Proof.
  intros Hmt. cbn zeta.
  destruct (cssLayout_vertical pg viewport viewport size r e
              (cssLayout viewport size r e) Hmt) as (C & D).
  cbn zeta in C, D. revert C D.
  unfold getPropertyValue.
  rewrite correction_marginTop. rewrite Hmt.
  set (rect := cssLayout viewport size r e).
  generalize (cssLayout viewport size r (setStyles e (correction pg viewport rect))).
  intros rect' C D. unfold pulledBackVertically, halfPixel, wholePixels.
  split.
  - intros H Hex. apply Qltb_lt in H as Hb. rewrite Hb in D.
    cbv [default from_option id pxOf] in D.
    rewrite (round_exactSub pg _ _ Hex) in D.
    pose proof (round_bounds (height viewport - r_bottom rect)) as [? ?].
    split; [split; lra|].
    intros [k Hk]. rewrite (round_inject_Z k _ Hk) in D. lra.
  - intros H1 H2. apply Qltb_ge in H1 as Hb1. apply Qltb_lt in H2 as Hb2.
    rewrite Hb1, Hb2 in C. cbv [default from_option id pxOf] in C.
    pose proof (round_bounds (- r_top rect)) as [? ?].
    split; [split; lra|].
    intros [k Hk].
    assert (Hk' : (- r_top rect == inject_Z (- k))%Q)
      by (rewrite inject_Z_opp; lra).
    rewrite (round_inject_Z (- k) _ Hk'), inject_Z_opp in C. lra.
Qed.

Lemma pulledBackHorizontally_corrected pg viewport size r e :
  rightAnchored e →
  let rect := cssLayout viewport size r e in
  pulledBackHorizontally pg viewport rect
    (cssLayout viewport size r (setStyles e (correction pg viewport rect))).
Proof.
  intros Ha. cbn zeta.
  destruct (cssLayout_horizontal pg viewport viewport size r e
              (cssLayout viewport size r e) Ha) as (A & B).
  cbn zeta in A, B. revert A B.
  unfold getPropertyValue.
  rewrite correction_marginRight.
  destruct Ha as (_ & _ & Hmr). rewrite Hmr.
  set (rect := cssLayout viewport size r e).
  generalize (cssLayout viewport size r (setStyles e (correction pg viewport rect))).
  intros rect' A B. unfold pulledBackHorizontally, halfPixel, wholePixels.
  split.
  - intros H Hex. apply Qltb_lt in H as Hb. rewrite Hb in B.
    cbv [default from_option id pxOf] in B.
    rewrite (round_exactSub pg _ _ Hex) in B.
    pose proof (round_bounds (r_right rect - width viewport)) as [? ?].
    split; [split; lra|].
    intros [k Hk]. rewrite (round_inject_Z k _ Hk) in B. lra.
  - intros H1 H2. apply Qltb_ge in H1 as Hb1. apply Qltb_lt in H2 as Hb2.
    rewrite Hb1, Hb2 in A. cbv [default from_option id pxOf] in A.
    pose proof (round_bounds (r_left rect)) as [? ?].
    split; [split; lra|].
    intros [k Hk]. rewrite (round_inject_Z k _ Hk) in A. lra.
Qed.

(** ** Claim C2 *)

Lemma insideOnCrossedEdgesb_spec viewport before after :
  insideOnCrossedEdges viewport before after →
  insideOnCrossedEdgesb viewport before after = true.
Proof.
  intros (A & B & C & D). unfold insideOnCrossedEdgesb.
  assert (I : ∀ a b c d, ((a < b)%Q → (c <= d)%Q) →
            implb (a <q b) (c <=q d) = true).
  { intros a b c d H. destruct (a <q b) eqn:E; [|done].
    apply Qleb_le, H, Qltb_lt, E. }
  by rewrite !I.
Qed.

Lemma insideAfterMove_fails size viewport elements w r :
  r ∈ elements →
  match heap w !! r,
        heap (moveInsideViewport (cssPage viewport size) elements viewport w).1
          !! r with
  | Some e, Some e' =>
      insideOnCrossedEdgesb viewport
        (cssLayout viewport size r e) (cssLayout viewport size r e')
  | _, _ => true
  end = false →
  ¬ insideAfterMove size viewport elements w.
Proof.
  intros Hr Hb H.
  destruct (heap w !! r) as [e|] eqn:He; [|done].
  destruct (heap (moveInsideViewport (cssPage viewport size) elements
                    viewport w).1 !! r) as [e'|] eqn:He'; [|done].
  pose proof (insideOnCrossedEdgesb_spec _ _ _ (H r e e' Hr He He')) as Hs.
  congruence.
Qed.

(** C2, as stated, fails in the layout model, in four ways.  A node whose
    top edge is a quarter of a pixel above the viewport is given a margin
    of zero pixels, the overshoot rounded, and stays where it was.  A
    left-aligned node whose right edge is one pixel beyond the viewport is
    given a [margin-right] of one pixel, which does not move a box
    positioned by [left]: it stays where it was, one pixel outside.  A node
    wider than the viewport that crosses both its left and its right edge is
    given the margin for the right edge, which moves its left edge further
    out.  And a node that occurs twice in the array, with its top edge a
    pixel and a quarter above the viewport, is given a margin of one pixel
    by the first iteration and, a quarter of a pixel still outside, a margin
    of zero pixels instead by the second: it ends where it started.  All
    calls report that they moved a node. *)
Lemma C2_counterexample :
  (¬ insideAfterMove HalfPixel.size Example.viewport [3] HalfPixel.atLoopEnd ∧
   (moveInsideViewport HalfPixel.page [3] Example.viewport
      HalfPixel.atLoopEnd).2 = true) ∧
  (¬ insideAfterMove Example.size Example.viewport [3] atRightEdge ∧
   (moveInsideViewport Example.page [3] Example.viewport atRightEdge).2 = true ∧
   ∃ e e',
     heap atRightEdge !! 3 = Some e ∧
     heap (moveInsideViewport Example.page [3] Example.viewport atRightEdge).1
       !! 3 = Some e' ∧
     style e !! "left" = Some (Px 990) ∧
     style e' !! "margin-right" = Some (Px 1) ∧
     (r_right (cssLayout Example.viewport Example.size 3 e)
      == inject_Z 1001)%Q ∧
     (r_right (cssLayout Example.viewport Example.size 3 e')
      == inject_Z 1001)%Q) ∧
  (¬ insideAfterMove Example.size Narrow.viewport [3] Narrow.atLoopEnd ∧
   (moveInsideViewport Narrow.page [3] Narrow.viewport Narrow.atLoopEnd).2
     = true ∧
   ∃ e e',
     heap Narrow.atLoopEnd !! 3 = Some e ∧
     heap (moveInsideViewport Narrow.page [3] Narrow.viewport
             Narrow.atLoopEnd).1 !! 3 = Some e' ∧
     (r_left (cssLayout Narrow.viewport Example.size 3 e) == inject_Z (-1))%Q ∧
     (r_left (cssLayout Narrow.viewport Example.size 3 e')
      == inject_Z (-3))%Q) ∧
  (¬ insideAfterMove HalfPixel.size Example.viewport [3; 3] HalfPixel.higher ∧
   (moveInsideViewport HalfPixel.page [3; 3] Example.viewport
      HalfPixel.higher).2 = true ∧
   ∃ e e1 e2,
     heap HalfPixel.higher !! 3 = Some e ∧
     heap (moveInsideViewport HalfPixel.page [3] Example.viewport
             HalfPixel.higher).1 !! 3 = Some e1 ∧
     heap (moveInsideViewport HalfPixel.page [3; 3] Example.viewport
             HalfPixel.higher).1 !! 3 = Some e2 ∧
     style e1 !! "margin-top" = Some (Px 1) ∧
     style e2 !! "margin-top" = Some (Px 0) ∧
     (r_top (cssLayout Example.viewport HalfPixel.size 3 e) == - (5 # 4))%Q ∧
     (r_top (cssLayout Example.viewport HalfPixel.size 3 e1) == - (1 # 4))%Q ∧
     (r_top (cssLayout Example.viewport HalfPixel.size 3 e2) == - (5 # 4))%Q).
Proof.
  assert (Hin : 3 ∈ [3]) by (apply list_elem_of_singleton; reflexivity).
  assert (Hin2 : 3 ∈ [3; 3]) by (apply elem_of_cons; by left).
  assert (Px_eq : ∀ (o : option CssValue) (k : Z),
            match o with Some (Px n) => (n =? k)%Z | _ => false end = true →
            o = Some (Px k)).
  { intros [[|n|]|] k H; try discriminate H. apply Z.eqb_eq in H. by subst. }
  split; [|split; [|split]].
  - split; [|vm_compute; reflexivity].
    apply (insideAfterMove_fails _ _ _ _ 3 Hin). vm_compute. reflexivity.
  - split; [|split; [vm_compute; reflexivity|]].
    { apply (insideAfterMove_fails _ _ _ _ 3 Hin). vm_compute. reflexivity. }
    destruct (heap atRightEdge !! 3) as [e|] eqn:He;
      [|vm_compute in He; discriminate He].
    destruct (heap (moveInsideViewport Example.page [3] Example.viewport
                      atRightEdge).1 !! 3) as [e'|] eqn:He';
      [|vm_compute in He'; discriminate He'].
    exists e, e'. split; [reflexivity|]. split; [reflexivity|].
    vm_compute in He, He'. injection He as <-. injection He' as <-.
    split; [apply Px_eq; vm_compute; reflexivity|].
    split; [apply Px_eq; vm_compute; reflexivity|].
    split; vm_compute; reflexivity.
  - split; [|split; [vm_compute; reflexivity|]].
    { apply (insideAfterMove_fails _ _ _ _ 3 Hin). vm_compute. reflexivity. }
    destruct (heap Narrow.atLoopEnd !! 3) as [e|] eqn:He;
      [|vm_compute in He; discriminate He].
    destruct (heap (moveInsideViewport Narrow.page [3] Narrow.viewport
                      Narrow.atLoopEnd).1 !! 3) as [e'|] eqn:He';
      [|vm_compute in He'; discriminate He'].
    exists e, e'. split; [reflexivity|]. split; [reflexivity|].
    vm_compute in He, He'. injection He as <-. injection He' as <-.
    split; vm_compute; reflexivity.
  - split; [|split; [vm_compute; reflexivity|]].
    { apply (insideAfterMove_fails _ _ _ _ 3 Hin2). vm_compute. reflexivity. }
    destruct (heap HalfPixel.higher !! 3) as [e|] eqn:He;
      [|vm_compute in He; discriminate He].
    destruct (heap (moveInsideViewport HalfPixel.page [3] Example.viewport
                      HalfPixel.higher).1 !! 3) as [e1|] eqn:He1;
      [|vm_compute in He1; discriminate He1].
    destruct (heap (moveInsideViewport HalfPixel.page [3; 3] Example.viewport
                      HalfPixel.higher).1 !! 3) as [e2|] eqn:He2;
      [|vm_compute in He2; discriminate He2].
    exists e, e1, e2. split; [reflexivity|]. split; [reflexivity|].
    split; [reflexivity|].
    vm_compute in He, He1, He2.
    injection He as <-. injection He1 as <-. injection He2 as <-.
    split; [apply Px_eq; vm_compute; reflexivity|].
    split; [apply Px_eq; vm_compute; reflexivity|].
    split; [vm_compute; reflexivity|].
    split; vm_compute; reflexivity.
Qed.

(** C2, amended.  [moveInsideViewport] applies one iteration of its loop to
    a node for each time the node occurs in the array, and leaves every
    other node as it was.  An iteration leaves a node whose measured
    rectangle crossed no boundary as it was; on a node whose rectangle
    crossed one it changes the two margins only, and gives it the overshoot,
    rounded to whole pixels, as its margin ([margin-right] for the right
    edge, else the left one; [margin-top] for the bottom edge, else the top
    one).  In the layout model a node that entered without [margin-top]
    then has the bottom edge, or else the top edge, within half a pixel of
    the viewport's bound, and on the bound when the overshoot was whole
    pixels; a node positioned by [right] that entered without
    [margin-right] has the same for the right edge, or else the left edge;
    for the bottom and the right edge this holds when the engine's
    subtraction of the bound is exact.  The call returns true exactly when
    the rectangle of some node of the array crossed a boundary. *)
Theorem C2_moveInsideViewport pg elements viewport w :
  let res := moveInsideViewport pg elements viewport w in
  (res.2 = true ↔
   ∃ r e, r ∈ elements ∧ heap w !! r = Some e ∧
          crossed viewport (getBoundingClientRect pg r e) = true) ∧
  (∀ r e, heap w !! r = Some e →
     heap res.1 !! r =
       Some (Nat.iter (occurrences r elements) (moveElement pg viewport r) e) ∧
     (crossed viewport (getBoundingClientRect pg r e) = false →
      heap res.1 !! r = Some e)) ∧
  ∀ r e,
    let rect := getBoundingClientRect pg r e in
    let e' := moveElement pg viewport r e in
    (crossed viewport rect = false → e' = e) ∧
    sameOutsideMargins e e' ∧
    style e' !! "margin-right" = marginRightAfter pg viewport rect e ∧
    style e' !! "margin-top" = marginTopAfter pg viewport rect e ∧
    ∀ size, getBoundingClientRect pg = cssLayout viewport size →
      (style e !! "margin-top" = None →
       pulledBackVertically pg viewport rect (getBoundingClientRect pg r e')) ∧
      (rightAnchored e →
       pulledBackHorizontally pg viewport rect (getBoundingClientRect pg r e')).
Proof.
  cbn zeta.
  destruct (foldl_moveOne_spec pg viewport elements w false) as (A & C).
  cbn zeta in A, C. split; [|split].
  - unfold moveInsideViewport. rewrite C. split; [|by right].
    intros [H|H]; [discriminate H|exact H].
  - intros r e He. split; [exact (A r e He)|].
    intros Hc. unfold moveInsideViewport. rewrite (A r e He).
    by rewrite iter_moveElement_uncrossed.
  - intros r e. split; [|split; [|split; [|split]]].
    + apply moveElement_uncrossed.
    + apply sameOutsideMargins_correction.
    + apply correction_marginRight.
    + apply correction_marginTop.
    + intros size Hpg. unfold moveElement. rewrite Hpg. split.
      * intros Hmt. by apply pulledBackVertically_corrected.
      * intros Ha. by apply pulledBackHorizontally_corrected.
Qed.

Lemma C2_moveInsideViewport_witness :
  (moveInsideViewport HalfPixel.page [3] Example.viewport HalfPixel.atLoopEnd).2
    = true ∧
  (∃ e', heap (moveInsideViewport HalfPixel.page [3] Example.viewport
                 HalfPixel.atLoopEnd).1 !! 3 = Some e' ∧
         style e' !! "margin-top" = Some (Px 0)) ∧
  (∃ e e', heap atLeftEdge !! 3 = Some e ∧ rightAnchored e ∧
     heap (moveInsideViewport Example.page [3] Example.viewport atLeftEdge).1 !! 3
       = Some e' ∧
     (r_left (cssLayout Example.viewport Example.size 3 e) < 0)%Q ∧
     (r_left (cssLayout Example.viewport Example.size 3 e') == 0)%Q) ∧
  ∃ e e', heap atBottomEdge !! 3 = Some e ∧ is_Some (style e !! "left") ∧
    heap (moveInsideViewport Example.page [3] Example.viewport atBottomEdge).1 !! 3
      = Some e' ∧
    (height Example.viewport
     < r_bottom (cssLayout Example.viewport Example.size 3 e))%Q ∧
    (r_bottom (cssLayout Example.viewport Example.size 3 e')
     == height Example.viewport)%Q.
Proof.
  assert (Hin : 3 ∈ [3]) by (apply list_elem_of_singleton; reflexivity).
  assert (Hone : occurrences 3 [3] = 1) by reflexivity.
  split; [|split; [|split]].
  - assert (He : ∃ e, heap HalfPixel.atLoopEnd !! 3 = Some e ∧
                      crossed Example.viewport
                        (getBoundingClientRect HalfPixel.page 3 e) = true).
    { assert (Hb : match heap HalfPixel.atLoopEnd !! 3 with
                   | Some e =>
                       crossed Example.viewport
                         (getBoundingClientRect HalfPixel.page 3 e)
                   | None => false
                   end = true) by (vm_compute; reflexivity).
      destruct (heap HalfPixel.atLoopEnd !! 3) as [e|]; [|discriminate Hb].
      by exists e. }
    destruct He as (e & He & Hc).
    apply (proj1 (C2_moveInsideViewport HalfPixel.page [3] Example.viewport
                    HalfPixel.atLoopEnd)).
    exists 3, e. split; [exact Hin|]. split; [exact He|exact Hc].
  - assert (He : ∃ e, heap HalfPixel.atLoopEnd !! 3 = Some e ∧
                      marginTopAfter HalfPixel.page Example.viewport
                        (getBoundingClientRect HalfPixel.page 3 e) e
                        = Some (Px 0)).
    { assert (Hb : match heap HalfPixel.atLoopEnd !! 3 with
                   | Some e =>
                       match marginTopAfter HalfPixel.page Example.viewport
                               (getBoundingClientRect HalfPixel.page 3 e) e with
                       | Some (Px 0) => true
                       | _ => false
                       end
                   | None => false
                   end = true) by (vm_compute; reflexivity).
      destruct (heap HalfPixel.atLoopEnd !! 3) as [e|]; [|discriminate Hb].
      exists e. split; [reflexivity|].
      destruct (marginTopAfter _ _ _ e) as [[|[| |]|]|]; try discriminate Hb.
      reflexivity. }
    destruct He as (e & He & Hm).
    destruct (C2_moveInsideViewport HalfPixel.page [3] Example.viewport
                HalfPixel.atLoopEnd) as (_ & Hheap & Hstep).
    destruct (Hheap 3 e He) as [E1 _]. rewrite Hone in E1.
    destruct (Hstep 3 e) as (_ & _ & _ & E2 & _).
    eexists. split; [exact E1|]. cbn [Nat.iter nat_rect]. rewrite E2. exact Hm.
  - destruct (heap atLeftEdge !! 3) as [e|] eqn:He;
      [|vm_compute in He; discriminate He].
    assert (Ha : rightAnchored e).
    { vm_compute in He. injection He as <-.
      repeat split; try (vm_compute; reflexivity).
      eexists. vm_compute. reflexivity. }
    assert (Hl : (r_left (cssLayout Example.viewport Example.size 3 e) < 0)%Q).
    { vm_compute in He. injection He as <-. vm_compute. reflexivity. }
    assert (Hr : (r_right (cssLayout Example.viewport Example.size 3 e)
                  <= width Example.viewport)%Q).
    { vm_compute in He. injection He as <-. vm_compute. discriminate. }
    assert (Hw : wholePixels (r_left (cssLayout Example.viewport Example.size 3 e))).
    { exists (-6)%Z. vm_compute in He. injection He as <-. vm_compute. reflexivity. }
    destruct (C2_moveInsideViewport Example.page [3] Example.viewport
                atLeftEdge) as (_ & Hheap & Hstep).
    destruct (Hheap 3 e He) as [E1 _]. rewrite Hone in E1.
    destruct (Hstep 3 e) as (_ & _ & _ & _ & G).
    destruct (G Example.size eq_refl) as [_ Gh].
    destruct (Gh Ha) as [_ G2].
    exists e. eexists. split; [reflexivity|]. split; [exact Ha|].
    split; [exact E1|]. split; [exact Hl|]. exact (proj2 (G2 Hr Hl) Hw).
  - destruct (heap atBottomEdge !! 3) as [e|] eqn:He;
      [|vm_compute in He; discriminate He].
    assert (Hleft : is_Some (style e !! "left")).
    { vm_compute in He. injection He as <-. eexists. vm_compute. reflexivity. }
    assert (Hmt : style e !! "margin-top" = None).
    { vm_compute in He. injection He as <-. vm_compute. reflexivity. }
    assert (Hb : (height Example.viewport
                  < r_bottom (cssLayout Example.viewport Example.size 3 e))%Q).
    { vm_compute in He. injection He as <-. vm_compute. reflexivity. }
    assert (Hw : wholePixels (height Example.viewport
                              - r_bottom (cssLayout Example.viewport Example.size 3 e))).
    { exists (-4)%Z. vm_compute in He. injection He as <-. vm_compute. reflexivity. }
    destruct (C2_moveInsideViewport Example.page [3] Example.viewport
                atBottomEdge) as (_ & Hheap & Hstep).
    destruct (Hheap 3 e He) as [E1 _]. rewrite Hone in E1.
    destruct (Hstep 3 e) as (_ & _ & _ & _ & G).
    destruct (G Example.size eq_refl) as [Gv _].
    destruct (Gv Hmt) as [G1 _].
    assert (Hex : exactSub Example.page (height Example.viewport)
                    (r_bottom (cssLayout Example.viewport Example.size 3 e)))
      by apply Qeq_refl.
    exists e. eexists. split; [reflexivity|]. split; [exact Hleft|].
    split; [exact E1|]. split; [exact Hb|]. exact (proj2 (G1 Hb Hex) Hw).
Defined.

(** ** Claim C3 *)

(** C3 fails on the code.  The four hints of [row] overlap in a chain
    A-B-E-C, one cluster of size four.  [getStackFor] keeps its position in
    the array while the recursive call splices elements out in front of it,
    so it never compares C with E: the cluster is split into the stacks
    [E; B; A] and [C].  One rotation gives E, the lowest node, the index of
    B and not that of C, the next-lowest; four rotations do not restore the
    indices. *)
Theorem C3_rotation_splits_cluster :
  let pg := Example.page in
  hints row = [3; 4; 5; 6] ∧
  overlaps (rectFor pg row 3) (rectFor pg row 4) = true ∧
  overlaps (rectFor pg row 4) (rectFor pg row 6) = true ∧
  overlaps (rectFor pg row 6) (rectFor pg row 5) = true ∧
  getStacks (rectFor pg row) (hints row) = Some [[6; 4; 3]; [5]] ∧
  stacking row =
    [MAX_Z_INDEX; MAX_Z_INDEX - 1; MAX_Z_INDEX - 2; MAX_Z_INDEX - 3]%Z ∧
  stacking (rotateHints true pg row) =
    [MAX_Z_INDEX - 3; MAX_Z_INDEX; MAX_Z_INDEX - 2; MAX_Z_INDEX - 1]%Z ∧
  stacking (Nat.iter 4 (rotateHints true pg) row) =
    [MAX_Z_INDEX - 3; MAX_Z_INDEX; MAX_Z_INDEX - 2; MAX_Z_INDEX - 1]%Z ∧
  stacking (Nat.iter 4 (rotateHints true pg) row) ≠ stacking row.
Proof.
  cbv zeta.
  do 8 (split; [vm_compute; reflexivity|]).
  vm_compute. discriminate.
Qed.

(** * Further properties of the renderer *)

(** ** The shadow root during [render] *)

Lemma prepare_root pg w : root (prepare pg w) = preparedRoot w.
Proof.
  unfold prepare, preparedRoot. rewrite unrender_eq. cbn.
  destruct (parsedCSS w); [reflexivity|].
  destruct (BROWSER pg); [reflexivity|]. by destruct (styleSheetNull pg).
Qed.

Lemma filter_not_isHint r (l : list RootNode) :
  Forall (λ c, hintOf c = None) l →
  filter (λ c, negb (isHint r c)) l = l.
Proof.
  induction 1 as [|c l Hc _ IH]; [reflexivity|].
  rewrite filter_cons, IH. destruct c; try reflexivity. discriminate Hc.
Qed.

Lemma filter_isHint_self r (l : list RootNode) :
  filter (λ c, negb (isHint r c)) (l ++ [RHint r]) =
    filter (λ c, negb (isHint r c)) l.
Proof.
  rewrite filter_app, filter_cons_False, filter_nil, app_nil_r; [reflexivity|].
  cbn [isHint]. rewrite bool_decide_eq_true_2 by reflexivity. cbn. tauto.
Qed.

Lemma probe_root pg w :
  Forall (λ c, hintOf c = None) (root w) → root (probe pg w).1 = root w.
Proof.
  intros H. unfold probe, alloc. cbv zeta. rewrite !maybeApplyStyles_id.
  cbn [fst root rootRemove with_root with_heap with_nextRef nextRef].
  rewrite (filter_app _ (root w ++ [RHint (nextRef w)])).
  rewrite filter_isHint_self, (filter_not_isHint _ (root w) H).
  rewrite filter_cons_True, filter_nil.
  - by rewrite filter_isHint_self, (filter_not_isHint _ (root w) H).
  - cbn [isHint]. rewrite bool_decide_eq_false_2 by lia. exact I.
Qed.

Lemma renderLoop_root pg viewport p elements : ∀ index l,
  root (world (renderLoop pg viewport p index elements l)) =
    root (world l) ++ (RHint <$> seq (nextRef (world l)) (length elements)).
Proof.
  induction elements as [|e elements IH]; intros index l; cbn [renderLoop].
  - cbn. by rewrite app_nil_r.
  - rewrite IH, renderOne_world. cbn. by rewrite <- app_assoc.
Qed.

Lemma preparedRoot_no_hints w : Forall (λ c, hintOf c = None) (preparedRoot w).
Proof. unfold preparedRoot. destruct (parsedCSS w); repeat constructor. Qed.

(** ** The two passes of [render] *)

Lemma renderOne_lists pg viewport p index e l :
  let l' := renderOne pg viewport p index e l in
  let n := nextRef (world l) in
  (edgeElements l' = edgeElements l ++ [n] ∧
   restOfElements l' = restOfElements l ∧
   numEdgeElements l' = S (length (edgeElements l)) ∧
   numEdgeElements l < MAX_IMMEDIATE_HINT_MOVEMENTS) ∨
  (edgeElements l' = edgeElements l ∧
   restOfElements l' = restOfElements l ++ [n] ∧
   numEdgeElements l' = numEdgeElements l).
Proof.
  unfold renderOne, alloc. cbv zeta.
  destruct (numEdgeElements l <? MAX_IMMEDIATE_HINT_MOVEMENTS) eqn:E;
    [destruct (outsideHorizontally pg viewport p e || outsideVertically pg viewport p e)|];
    cbn [andb edgeElements restOfElements numEdgeElements fst snd nextRef].
  - left. apply Nat.ltb_lt in E. rewrite length_app. cbn. repeat split; [lia|done].
  - by right.
  - by right.
Qed.

Lemma renderLoop_lists pg viewport p elements : ∀ index l,
  numEdgeElements l = length (edgeElements l) →
  let l' := renderLoop pg viewport p index elements l in
  numEdgeElements l' = length (edgeElements l') ∧
  edgeElements l' ++ restOfElements l' ≡ₚ
    edgeElements l ++ restOfElements l ++
    seq (nextRef (world l)) (length elements) ∧
  length (edgeElements l') ≤
    max (length (edgeElements l)) MAX_IMMEDIATE_HINT_MOVEMENTS.
Proof.
  induction elements as [|e elements IH]; intros index l Hn; cbn [renderLoop].
  - cbv zeta. split; [exact Hn|]. split; [|apply Nat.le_max_l].
    cbn [length seq]. by rewrite !app_nil_r.
  - pose proof (renderOne_lists pg viewport p index e l) as H1.
    pose proof (renderOne_world pg viewport p index e l) as Hw.
    cbv zeta in H1, Hw.
    assert (Hnext : nextRef (world (renderOne pg viewport p index e l)) =
                    S (nextRef (world l))) by (by rewrite Hw).
    set (l1 := renderOne pg viewport p index e l) in *.
    destruct H1 as [(E1 & E2 & E3 & E4)|(E1 & E2 & E3)].
    + destruct (IH (S index) l1) as (A & B & C).
      { rewrite E3, E1, length_app. cbn. lia. }
      cbv zeta in A, B, C. rewrite Hnext, E1, E2 in B. rewrite E1 in C.
      split; [exact A|]. split.
      * rewrite B. cbn [length seq]. rewrite <- !app_assoc. cbn [app].
        apply Permutation_app_head. apply Permutation_middle.
      * rewrite length_app in C. cbn [length] in C. rewrite Hn in E4.
        rewrite Nat.max_r in C by lia. rewrite Nat.max_r by lia. exact C.
    + destruct (IH (S index) l1) as (A & B & C).
      { rewrite E3, E1. exact Hn. }
      cbv zeta in A, B, C. rewrite Hnext, E1, E2 in B. rewrite E1 in C.
      split; [exact A|]. split; [|exact C].
      rewrite B. cbn [length seq]. by rewrite <- !app_assoc.
Qed.

Lemma moveOne_rects pg viewport w moved r r' :
  let w' := (moveOne pg viewport (w, moved) r).1 in
  is_Some (rects w' !! r') ↔
  is_Some (rects w !! r') ∨ (r' = r ∧ is_Some (heap w !! r)).
Proof.
  cbv zeta. destruct (heap w !! r) as [e|] eqn:H.
  - rewrite (moveOne_Some pg viewport w moved r e H). unfold afterMove.
    cbn [fst rects with_heap with_trace with_rects].
    destruct (decide (r = r')) as [->|Hne].
    + rewrite lookup_insert_eq. split; [intros _; right; eauto|eauto].
    + rewrite lookup_insert_ne by done. split; [tauto|].
      intros [?|[? _]]; [done|congruence].
  - rewrite (moveOne_None pg viewport w moved r H). cbn [fst]. split; [tauto|].
    intros [?|[_ [? ?]]]; [done|discriminate].
Qed.

Lemma moveOne_live pg viewport w moved r r' :
  is_Some (heap (moveOne pg viewport (w, moved) r).1 !! r') ↔
  is_Some (heap w !! r').
Proof.
  destruct (moveOne_frame pg viewport w moved r) as [_ H].
  specialize (H r'). destruct H; split; intros [? ?]; eauto; discriminate.
Qed.

Lemma moveOne_measured pg viewport w moved r :
  measuredRefs (trace (moveOne pg viewport (w, moved) r).1) =
    measuredRefs (trace w) ++ (if heap w !! r is Some _ then [r] else []).
Proof.
  destruct (heap w !! r) as [e|] eqn:H.
  - rewrite (moveOne_Some pg viewport w moved r e H). unfold afterMove, measuredRefs.
    cbn [fst trace with_heap with_trace with_rects]. by rewrite omap_app.
  - rewrite (moveOne_None pg viewport w moved r H). cbn [fst]. by rewrite app_nil_r.
Qed.

Lemma moveInsideViewport_rects pg elements viewport w :
  (∀ r, r ∈ elements → is_Some (heap w !! r)) →
  let w' := (moveInsideViewport pg elements viewport w).1 in
  (∀ r, is_Some (rects w' !! r) ↔ is_Some (rects w !! r) ∨ r ∈ elements) ∧
  measuredRefs (trace w') = measuredRefs (trace w) ++ elements.
Proof.
  unfold moveInsideViewport. generalize false as moved. revert w.
  induction elements as [|r elements IH]; intros w moved Hlive; cbn [foldl].
  - cbv zeta. cbn [fst]. split; [|by rewrite app_nil_r].
    intros r. rewrite elem_of_nil. tauto.
  - pose proof (moveOne_rects pg viewport w moved r) as R1.
    pose proof (moveOne_measured pg viewport w moved r) as M1.
    pose proof (moveOne_live pg viewport w moved r) as L1.
    destruct (moveOne pg viewport (w, moved) r) as [w1 moved1].
    cbv zeta in R1. cbn [fst] in R1, M1, L1.
    destruct (IH w1 moved1) as [R2 M2].
    { intros r' Hr'. apply L1, Hlive, elem_of_cons. by right. }
    cbv zeta in R2 |- *. split.
    + intros r'. rewrite R2, R1, elem_of_cons.
      assert (is_Some (heap w !! r)) by (apply Hlive, elem_of_cons; by left).
      tauto.
    + rewrite M2, M1.
      destruct (Hlive r) as [e ->]; [apply elem_of_cons; by left|].
      by rewrite <- app_assoc.
Qed.

Lemma moveInsideViewport_nil pg viewport w :
  moveInsideViewport pg [] viewport w = (w, false).
Proof. reflexivity. Qed.

Lemma renderStart_nonempty pg elements w :
  is_Some (document w) → elements ≠ [] →
  let l := loopResult pg elements w in
  numEdgeElements l = length (edgeElements l) ∧
  renderStart pg elements w =
    ((moveInsideViewport pg (edgeElements l) (getViewport pg) (world l)).1,
     Some {| restElements := restOfElements l; captured := getViewport pg |}).
Proof.
  intros [d Hd] Hne. cbv zeta.
  assert (Hn : numEdgeElements (loopResult pg elements w) =
               length (edgeElements (loopResult pg elements w))).
  { unfold loopResult. by apply renderLoop_lists. }
  split; [exact Hn|].
  unfold renderStart. rewrite Hd. destruct elements as [|e0 elements]; [done|].
  unfold loopResult in *. destruct (probe pg (prepare pg w)) as [wp p].
  cbn [fst snd] in *. set (l := renderLoop _ _ _ _ _ _) in *.
  destruct (0 <? numEdgeElements l) eqn:E; [reflexivity|].
  apply Nat.ltb_ge in E.
  assert (E0 : edgeElements l = []).
  { apply length_zero_iff_nil. lia. }
  by rewrite E0.
Qed.

Lemma loopResult_world pg elements w :
  let l := loopResult pg elements w in
  (∃ n, hints (world l) = seq n (length elements)) ∧
  (∀ r, r ∈ hints (world l) → is_Some (heap (world l) !! r)) ∧
  edgeElements l ++ restOfElements l ≡ₚ hints (world l) ∧
  length (edgeElements l) ≤ MAX_IMMEDIATE_HINT_MOVEMENTS ∧
  rects (world l) = ∅ ∧ trace (world l) = trace w ∧
  root (world l) = preparedRoot w ++ (RHint <$> hints (world l)).
Proof.
  cbv zeta. unfold loopResult.
  pose proof (probe_hints pg (prepare pg w)) as Hh.
  pose proof (probe_static pg (prepare pg w)) as Hs.
  pose proof (probe_root pg (prepare pg w)) as Hr.
  rewrite prepare_root in Hr. specialize (Hr (preparedRoot_no_hints w)).
  rewrite prepare_hints in Hh.
  destruct (prepare_static pg w) as (_ & R0 & T0 & _).
  destruct (probe pg (prepare pg w)) as [wp p]. cbn [fst snd] in *.
  destruct (renderLoop_spec pg (getViewport pg) p elements 0 (startLoop wp))
    as (_ & B & C & _).
  destruct (renderLoop_lists pg (getViewport pg) p elements 0 (startLoop wp) eq_refl)
    as (_ & P & L).
  pose proof (renderLoop_static pg (getViewport pg) p elements 0 (startLoop wp)) as S.
  pose proof (renderLoop_root pg (getViewport pg) p elements 0 (startLoop wp)) as Rt.
  cbv zeta in B, C, P, L. cbn [startLoop world edgeElements restOfElements] in *.
  set (l := renderLoop _ _ _ _ _ _) in *.
  rewrite Hh in B. cbn [app] in B.
  split; [eauto|]. split; [|split; [|split; [|split; [|split]]]].
  - intros r Hr'. rewrite B in Hr'. apply elem_of_seq in Hr'.
    assert (Hj : r - nextRef wp < length elements) by lia.
    destruct (lookup_lt_is_Some_2 elements _ Hj) as [e He].
    pose proof (C _ e He) as Hc.
    replace (nextRef wp + (r - nextRef wp)) with r in Hc by lia. eauto.
  - rewrite P, B. reflexivity.
  - cbn [length] in L. rewrite Nat.max_r in L by lia. exact L.
  - unfold static in S, Hs. congruence.
  - unfold static in S, Hs. congruence.
  - rewrite Rt, Hr, B. reflexivity.
Qed.

Lemma moveInsideViewport_live pg elements viewport w r :
  is_Some (heap (moveInsideViewport pg elements viewport w).1 !! r) ↔
  is_Some (heap w !! r).
Proof.
  destruct (moveInsideViewport_frame pg elements viewport w) as [_ H].
  specialize (H r). destruct H; split; intros [? ?]; eauto; discriminate.
Qed.

Lemma render_passes pg elements w :
  is_Some (document w) → elements ≠ [] →
  let l := loopResult pg elements w in
  let w1 := (moveInsideViewport pg (edgeElements l) (getViewport pg) (world l)).1 in
  let w2 := (moveInsideViewport pg (restOfElements l) (getViewport pg) w1).1 in
  render pg elements w = with_trace (trace w2 ++ [Sent Rendered]) w2.
Proof.
  intros Hd Hne. cbv zeta. unfold render.
  destruct (renderStart_nonempty pg elements w Hd Hne) as [_ ->].
  unfold renderFinish. cbn [restElements captured].
  by destruct (moveInsideViewport pg (restOfElements (loopResult pg elements w)) _ _).
Qed.

Lemma render_measured pg elements w :
  is_Some (document w) → elements ≠ [] →
  let w' := render pg elements w in
  let l := loopResult pg elements w in
  hints w' = hints (world l) ∧ root w' = root (world l) ∧
  (∀ r, is_Some (rects w' !! r) ↔ r ∈ hints w') ∧
  ∃ ms, Forall isMeasured ms ∧
        measuredRefs ms = edgeElements l ++ restOfElements l ∧
        trace w' = trace w ++ ms ++ [Sent Rendered].
Proof.
  intros Hd Hne. cbv zeta. rewrite (render_passes pg elements w Hd Hne).
  destruct (loopResult_world pg elements w) as (_ & Hlive & Hperm & _ & R0 & T0 & _).
  cbv zeta in Hlive, Hperm, R0, T0.
  set (l := loopResult pg elements w) in *.
  set (vp := getViewport pg).
  assert (Le : ∀ r, r ∈ edgeElements l → is_Some (heap (world l) !! r)).
  { intros r Hr. apply Hlive. rewrite <- Hperm. apply elem_of_app. by left. }
  destruct (moveInsideViewport_rects pg (edgeElements l) vp (world l) Le) as [R1 M1].
  destruct (moveInsideViewport_trace pg (edgeElements l) vp (world l)) as (ms1 & T1 & F1).
  destruct (moveInsideViewport_frame pg (edgeElements l) vp (world l)) as [Fr1 _].
  cbv zeta in R1, M1.
  set (w1 := (moveInsideViewport pg (edgeElements l) vp (world l)).1) in *.
  assert (Lr : ∀ r, r ∈ restOfElements l → is_Some (heap w1 !! r)).
  { intros r Hr. apply moveInsideViewport_live, Hlive. rewrite <- Hperm.
    apply elem_of_app. by right. }
  destruct (moveInsideViewport_rects pg (restOfElements l) vp w1 Lr) as [R2 M2].
  destruct (moveInsideViewport_trace pg (restOfElements l) vp w1) as (ms2 & T2 & F2).
  destruct (moveInsideViewport_frame pg (restOfElements l) vp w1) as [Fr2 _].
  cbv zeta in R2, M2.
  set (w2 := (moveInsideViewport pg (restOfElements l) vp w1).1) in *.
  cbn [hints root rects trace with_trace].
  assert (Hh : hints w2 = hints (world l)) by (unfold frame in Fr1, Fr2; congruence).
  assert (Hr : root w2 = root (world l)) by (unfold frame in Fr1, Fr2; congruence).
  split; [exact Hh|]. split; [exact Hr|]. split.
  - intros r. rewrite R2, R1, R0, lookup_empty, Hh, <- Hperm, elem_of_app.
    split; [intros [[[? ?]|?]|?]; [discriminate|by left|by right]|tauto].
  - exists (ms1 ++ ms2). split; [by apply Forall_app|]. split.
    + rewrite M1 in M2. rewrite T2, T1 in M2.
      unfold measuredRefs in M2 |- *. rewrite !omap_app in M2.
      rewrite <- !app_assoc in M2. apply app_inv_head in M2.
      by rewrite omap_app.
    + rewrite T2, T1, T0. by rewrite <- !app_assoc.
Qed.

Lemma example_has_root : is_Some (document Example.start).
Proof. vm_compute. eauto. Qed.

Lemma twoTargets_nonempty : twoTargets ≠ [].
Proof. discriminate. Qed.

(** X1: rendering an empty list on a document with a root leaves no hint
    and no cached rectangle, shows the placeholder as the last child of the
    shadow root, does not wait for a paint and sends no message. *)
Theorem X1_render_empty pg w :
  is_Some (document w) →
  renderStart pg [] w = (render pg [] w, None) ∧
  hints (render pg [] w) = [] ∧ rects (render pg [] w) = ∅ ∧
  root (render pg [] w) = preparedRoot w ++ [RShruggie] ∧
  trace (render pg [] w) = trace w.
Proof.
  intros [d Hd]. unfold render, renderStart. rewrite Hd.
  destruct (prepare_static pg w) as (_ & R & T & _).
  pose proof (prepare_hints pg w) as H. pose proof (prepare_root pg w) as Rt.
  revert R T H Rt. generalize (prepare pg w). intros w0 R T H Rt.
  split; [reflexivity|]. split; [exact H|]. split; [exact R|]. split; [|exact T].
  change (filter (λ c, negb (isShruggie c)) (root w0) ++ [RShruggie] =
          preparedRoot w ++ [RShruggie]).
  rewrite Rt. unfold preparedRoot. by destruct (parsedCSS w).
Qed.

Lemma X1_render_empty_witness :
  is_Some (document Example.start) ∧
  root (render Example.page [] Example.start) = [RStyle; RShruggie].
Proof.
  split; [exact example_has_root|].
  destruct (X1_render_empty Example.page Example.start example_has_root)
    as (_ & _ & _ & H & _).
  rewrite H. reflexivity.
Defined.

(** X2: after an uninterrupted render of a non-empty list on a document
    with a root, exactly the hints have a cached rectangle; every hint was
    measured exactly once, and the Rendered message is sent after all
    measurements. *)
Theorem X2_render_measures_every_hint pg elements w :
  is_Some (document w) → elements ≠ [] →
  let w' := render pg elements w in
  (∀ r, is_Some (rects w' !! r) ↔ r ∈ hints w') ∧
  ∃ ms, Forall isMeasured ms ∧ measuredRefs ms ≡ₚ hints w' ∧
        trace w' = trace w ++ ms ++ [Sent Rendered].
Proof.
  intros Hd Hne. cbv zeta.
  destruct (render_measured pg elements w Hd Hne) as (Hh & _ & R & ms & F & M & T).
  destruct (loopResult_world pg elements w) as (_ & _ & P & _).
  cbv zeta in Hh, R, M, T, P. split; [exact R|].
  exists ms. split; [exact F|]. split; [|exact T]. by rewrite M, Hh.
Qed.

Lemma X2_render_measures_every_hint_witness :
  is_Some (document Example.start) ∧ twoTargets ≠ [] ∧
  ∀ r, is_Some (rects (render Example.page twoTargets Example.start) !! r) ↔
       r ∈ hints (render Example.page twoTargets Example.start).
Proof.
  split; [exact example_has_root|]. split; [exact twoTargets_nonempty|].
  exact (proj1 (X2_render_measures_every_hint Example.page twoTargets
                  Example.start example_has_root twoTargets_nonempty)).
Defined.

(** X3: after a render of a non-empty list the children of the shadow root
    are the stylesheet, when it was inserted, followed by the hint elements
    in the order of [hints], the input order; the probes are gone. *)
Theorem X3_render_root_order pg elements w :
  is_Some (document w) → elements ≠ [] →
  let w' := render pg elements w in
  root w' = preparedRoot w ++ (RHint <$> hints w') ∧
  length (hints w') = length elements.
Proof.
  intros Hd Hne. cbv zeta.
  destruct (render_measured pg elements w Hd Hne) as (Hh & Hr & _).
  destruct (loopResult_world pg elements w) as ([n Hn] & _ & _ & _ & _ & _ & Rt).
  cbv zeta in Hh, Hr, Hn, Rt. rewrite Hr, Hh, Rt. split; [reflexivity|].
  rewrite Hn. apply length_seq.
Qed.

Lemma X3_render_root_order_witness :
  is_Some (document Example.start) ∧ twoTargets ≠ [] ∧
  root (render Example.page twoTargets Example.start) =
    [RStyle; RHint 3; RHint 4].
Proof.
  split; [exact example_has_root|]. split; [exact twoTargets_nonempty|].
  destruct (X3_render_root_order Example.page twoTargets Example.start
              example_has_root twoTargets_nonempty) as [H _].
  rewrite H. vm_compute. reflexivity.
Defined.

(** X4: when [render] suspends for the first paint, its first pass has
    measured at most [MAX_IMMEDIATE_HINT_MOVEMENTS] hints, and the hints it
    has not measured are exactly those left for the second pass, which will
    use the viewport read at the start. *)
Theorem X4_first_pass_cap pg elements w w1 k :
  renderStart pg elements w = (w1, Some k) →
  ∃ edge, measuredRefs (trace w1) = measuredRefs (trace w) ++ edge ∧
          length edge ≤ MAX_IMMEDIATE_HINT_MOVEMENTS ∧
          edge ++ restElements k ≡ₚ hints w1 ∧
          captured k = getViewport pg.
Proof.
  intros E.
  assert (Hd : is_Some (document w)).
  { unfold renderStart in E. destruct (document w); [eauto|discriminate E]. }
  assert (Hne : elements ≠ []).
  { intros ->. unfold renderStart in E. destruct (document w); discriminate E. }
  destruct (renderStart_nonempty pg elements w Hd Hne) as [_ E'].
  cbv zeta in E'. rewrite E' in E. injection E as <- <-.
  destruct (loopResult_world pg elements w) as (_ & Hlive & P & L & _ & T0 & _).
  cbv zeta in Hlive, P, L, T0. set (l := loopResult pg elements w) in *.
  assert (Le : ∀ r, r ∈ edgeElements l → is_Some (heap (world l) !! r)).
  { intros r Hr. apply Hlive. rewrite <- P. apply elem_of_app. by left. }
  destruct (moveInsideViewport_rects pg (edgeElements l) (getViewport pg) (world l) Le)
    as [_ M].
  destruct (moveInsideViewport_frame pg (edgeElements l) (getViewport pg) (world l))
    as [Fr _].
  cbv zeta in M. exists (edgeElements l). rewrite T0 in M.
  split; [exact M|]. split; [exact L|]. split; [|reflexivity].
  cbn [restElements]. rewrite P.
  assert (Hh : hints (moveInsideViewport pg (edgeElements l) (getViewport pg)
                        (world l)).1 = hints (world l))
    by (unfold frame in Fr; congruence).
  by rewrite Hh.
Qed.

Lemma X4_first_pass_cap_witness :
  ∃ w1 k, renderStart Example.page twoTargets Example.start = (w1, Some k) ∧
    ∃ edge, length edge ≤ MAX_IMMEDIATE_HINT_MOVEMENTS ∧
            edge ++ restElements k ≡ₚ hints w1.
Proof.
  destruct (renderStart Example.page twoTargets Example.start) as [w1 [k|]] eqn:E;
    [|vm_compute in E; discriminate E].
  exists w1, k. split; [reflexivity|].
  destruct (X4_first_pass_cap Example.page twoTargets Example.start w1 k E)
    as (edge & _ & L & P & _).
  exists edge. split; [exact L|exact P].
Defined.

(** ** The list of hints and the shadow root stay in step *)

Lemma omap_hintOf_cons c (l : list RootNode) :
  omap hintOf (c :: l) =
    match hintOf c with Some r => r :: omap hintOf l | None => omap hintOf l end.
Proof. reflexivity. Qed.

Lemma omap_hintOf_filter (P : RootNode → Prop) `{∀ c, Decision (P c)}
  (l : list RootNode) :
  (∀ r, P (RHint r)) → omap hintOf (filter P l) = omap hintOf l.
Proof.
  intros HP. induction l as [|c l IH]; [reflexivity|].
  rewrite filter_cons, (omap_hintOf_cons c l).
  destruct (decide (P c)) as [Hc|Hc].
  - by rewrite omap_hintOf_cons, IH.
  - rewrite IH. destruct c; try reflexivity. exfalso. apply Hc, HP.
Qed.

Lemma omap_hintOf_remove r (l : list RootNode) :
  omap hintOf (filter (λ c, negb (isHint r c)) l) =
    filter (λ x, x ≠ r) (omap hintOf l).
Proof.
  induction l as [|c l IH]; [reflexivity|].
  rewrite filter_cons, (omap_hintOf_cons c l).
  destruct (decide (negb (isHint r c))) as [Hc|Hc].
  - rewrite omap_hintOf_cons, IH. destruct c as [|r'| | |f b]; try reflexivity.
    cbn [hintOf]. rewrite filter_cons_True; [reflexivity|].
    cbn [isHint] in Hc. intros ->. rewrite bool_decide_eq_true_2 in Hc by done.
    exact Hc.
  - rewrite IH. destruct c as [|r'| | |f b]; try (exfalso; apply Hc; exact I).
    cbn [hintOf]. rewrite filter_cons_False; [reflexivity|].
    cbn [isHint] in Hc. intros Hne. apply Hc.
    by rewrite bool_decide_eq_false_2.
Qed.

Lemma omap_hintOf_RHint (l : list nat) : omap hintOf (RHint <$> l) = l.
Proof.
  induction l as [|r l IH]; [reflexivity|].
  rewrite fmap_cons, omap_hintOf_cons. cbn [hintOf]. by rewrite IH.
Qed.

Lemma omap_hintOf_none (l : list RootNode) :
  Forall (λ c, hintOf c = None) l → omap hintOf l = [].
Proof.
  induction 1 as [|c l Hc _ IH]; [reflexivity|].
  by rewrite omap_hintOf_cons, Hc.
Qed.

Lemma countOf_app p l1 l2 : countOf p (l1 ++ l2) = countOf p l1 + countOf p l2.
Proof. unfold countOf. by rewrite filter_app, length_app. Qed.

Lemma countOf_filter_le p (P : RootNode → Prop) `{∀ c, Decision (P c)} l :
  countOf p (filter P l) ≤ countOf p l.
Proof.
  unfold countOf. induction l as [|c l IH]; [reflexivity|].
  rewrite (filter_cons P). destruct (decide (P c)).
  - rewrite !(filter_cons (λ c, p c = true)).
    destruct (decide (p c = true)); cbn [length]; lia.
  - rewrite (filter_cons (λ c, p c = true)).
    destruct (decide (p c = true)); cbn [length]; lia.
Qed.

Lemma countOf_removed p l : countOf p (filter (λ c, negb (p c)) l) = 0.
Proof.
  unfold countOf. induction l as [|c l IH]; [reflexivity|].
  rewrite (filter_cons (λ c, negb (p c))). destruct (p c) eqn:E; cbn [negb].
  - destruct (decide (Is_true false)) as [[]|_]. exact IH.
  - destruct (decide (Is_true true)) as [_|n]; [|by destruct n].
    rewrite filter_cons. destruct (decide (p c = true)); [congruence|exact IH].
Qed.

Lemma countOf_plain p l :
  Forall (λ c, p c = false) l → countOf p l = 0.
Proof.
  unfold countOf. induction 1 as [|c l Hc _ IH]; [reflexivity|].
  rewrite filter_cons. destruct (decide (p c = true)); [congruence|exact IH].
Qed.

Lemma tidy_nil : tidy [].
Proof. unfold tidy, countOf. cbn. lia. Qed.

Lemma tidy_filter (P : RootNode → Prop) `{∀ c, Decision (P c)} l :
  tidy l → tidy (filter P l).
Proof.
  intros (A & B & C). unfold tidy.
  pose proof (countOf_filter_le isStyle P l).
  pose proof (countOf_filter_le isShruggie P l).
  pose proof (countOf_filter_le isTitle P l). lia.
Qed.

Lemma tidy_app_plain l l2 : tidy l → Forall plain l2 → tidy (l ++ l2).
Proof.
  intros (A & B & C) H. unfold tidy. rewrite !countOf_app.
  rewrite (countOf_plain isStyle l2), (countOf_plain isShruggie l2),
    (countOf_plain isTitle l2); [lia|..];
    eapply Forall_impl; try exact H; intros c (? & ? & ?); done.
Qed.

Lemma tidy_insertShruggie l :
  tidy l → tidy (filter (λ c, negb (isShruggie c)) l ++ [RShruggie]).
Proof.
  intros H. pose proof (tidy_filter (λ c, negb (isShruggie c)) l H) as (A & _ & C).
  unfold tidy. rewrite !countOf_app, countOf_removed.
  change (countOf isStyle [RShruggie]) with 0.
  change (countOf isShruggie [RShruggie]) with 1.
  change (countOf isTitle [RShruggie]) with 0. lia.
Qed.

Lemma tidy_insertTitle l :
  tidy l → tidy (filter (λ c, negb (isTitle c)) l ++ [RTitle]).
Proof.
  intros H. pose proof (tidy_filter (λ c, negb (isTitle c)) l H) as (A & B & _).
  unfold tidy. rewrite !countOf_app, countOf_removed.
  change (countOf isStyle [RTitle]) with 0.
  change (countOf isShruggie [RTitle]) with 0.
  change (countOf isTitle [RTitle]) with 1. lia.
Qed.

Lemma tidy_preparedRoot w : tidy (preparedRoot w).
Proof.
  unfold preparedRoot, tidy, countOf. destruct (parsedCSS w); vm_compute; lia.
Qed.

Lemma keepsHintElements_refl w : keepsHintElements w w.
Proof. intros r el H1 H2. eauto. Qed.

Lemma keepsHintElements_trans w1 w2 w3 :
  keepsHintElements w1 w2 → keepsHintElements w2 w3 → keepsHintElements w1 w3.
Proof.
  intros H12 H23 r el H1 H2. destruct (H12 r el H1 H2) as (el' & H1' & H2').
  exact (H23 r el' H1' H2').
Qed.

Lemma keepsHintElements_heap w w' : heap w' = heap w → keepsHintElements w w'.
Proof. intros E r el H1 H2. rewrite E. eauto. Qed.

Lemma keepsHintElements_modify r f w :
  (∀ e, isHintElement e → isHintElement (f e)) →
  keepsHintElements w (modify r f w).
Proof.
  intros Hf r' el H1 H2. unfold modify. cbn [heap with_heap].
  destruct (decide (r = r')) as [->|Hne].
  - rewrite lookup_alter_eq, H1. cbn. eauto.
  - rewrite lookup_alter_ne by done. eauto.
Qed.

Lemma keepsHintElements_insert r e w w' :
  heap w' = <[r := e]> (heap w) → isHintElement e → keepsHintElements w w'.
Proof.
  intros E He r' el H1 H2. rewrite E. destruct (decide (r = r')) as [->|Hne].
  - rewrite lookup_insert_eq. eauto.
  - rewrite lookup_insert_ne by done. eauto.
Qed.

Lemma keepsHintElements_margins w w' :
  heapsOutsideMargins w w' → keepsHintElements w w'.
Proof.
  intros H r el H1 H2. specialize (H r). rewrite H1 in H.
  inversion H as [? el' (_ & Hc & _)|]; subst. exists el'. split; [done|].
  unfold isHintElement. by rewrite Hc.
Qed.

Lemma isHintElement_setStyles e l : isHintElement e → isHintElement (setStyles e l).
Proof. done. Qed.

Lemma isHintElement_toggle cls force e :
  cls ≠ HINT_CLASS → isHintElement e → isHintElement (toggle cls force e).
Proof.
  unfold isHintElement, toggle. cbn [classList]. intros Hne H.
  destruct force; set_solver.
Qed.

Lemma isHintElement_created hint : isHintElement (createHintElement hint).
Proof. unfold isHintElement, createHintElement. cbn. set_solver. Qed.

Lemma isHintElement_hintElement pg viewport p j e :
  isHintElement (hintElement pg viewport p j e).
Proof. apply isHintElement_setStyles, isHintElement_created. Qed.

Lemma keepsHintElements_updateOne pg enteredText a u :
  keepsHintElements (current a) (current (updateOne pg enteredText a u)).
Proof.
  unfold updateOne. destruct (hints (current a) !! index u) as [child|];
    [|by apply keepsHintElements_heap].
  assert (Hh : HIDDEN_HINT_CLASS ≠ HINT_CLASS) by done.
  assert (Hl : HIGHLIGHTED_HINT_CLASS ≠ HINT_CLASS) by done.
  intros r el H1 H2.
  destruct u as [i|i matched rest hl].
  - rewrite maybeApplyStyles_id. cbn.
    destruct (decide (child = r)) as [->|Hne].
    + rewrite lookup_alter_eq, H1. cbn. eexists.
      split; [done|]. unfold isHintElement in *. cbn. set_solver.
    + rewrite lookup_alter_ne by done. eauto.
  - destruct (decide (matched ≠ "")); [|destruct (decide (enteredText ≠ _))];
      rewrite maybeApplyStyles_id; cbn;
      (destruct (decide (child = r)) as [->|Hne];
       [rewrite !lookup_alter_eq, H1; cbn; eexists;
        split; [done|];
        unfold isHintElement in *;
        cbn; destruct hl; set_solver
       |rewrite !lookup_alter_ne by done; eauto]).
Qed.

Lemma keepsHintElements_updateLoop pg enteredText updates w :
  keepsHintElements w (current (updateLoop pg enteredText updates w)).
Proof.
  unfold updateLoop.
  set (a0 := {| current := w; numHidden := 0; maybeNeedsMoveInsideViewport := [] |}).
  change (keepsHintElements (current a0)
            (current (foldl (updateOne pg enteredText) a0 updates))).
  generalize a0. induction updates as [|u updates IH]; intros a; cbn [foldl].
  - apply keepsHintElements_refl.
  - eapply keepsHintElements_trans; [apply keepsHintElements_updateOne|apply IH].
Qed.

Lemma updateHints_hints pg updates enteredText w :
  hints (updateHints pg updates enteredText w) = hints w.
Proof.
  rewrite updateHints_finish.
  destruct (updateLoop_frame pg enteredText updates w) as (F & _).
  cbv zeta in F. revert F. generalize (updateLoop pg enteredText updates w).
  intros a F. unfold finishUpdate. cbv zeta.
  set (w2 := if decide (enteredText = "") then _ else _).
  assert (H2 : hints w2 = hints w).
  { unfold w2. unfold frame in F.
    destruct (decide (enteredText = "")), (decide (numHidden a = _));
      cbn [hints removeTitle insertTitle insertShruggie removeShruggie
           rootRemove rootAppendUnique with_root with_titleText]; congruence. }
  destruct (maybeNeedsMoveInsideViewport a) as [|r q]; [exact H2|].
  cbn [hints with_enteredTextChars].
  destruct (moveInsideViewport_frame pg (r :: q) (getViewport pg) w2) as [F2 _].
  unfold frame in F2. congruence.
Qed.

Lemma keepsHintElements_updateHints pg updates enteredText w :
  keepsHintElements w (updateHints pg updates enteredText w).
Proof.
  eapply keepsHintElements_trans; [apply keepsHintElements_updateLoop|].
  apply keepsHintElements_margins, updateHints_heap.
Qed.

Lemma keepsHintElements_setZ (l : list (ref * CssValue)) : ∀ w,
  keepsHintElements w
    (foldl (fun w ez => modify ez.1 (fun e => setStyles e [("z-index", ez.2)]) w)
       w l).
Proof.
  induction l as [|ez l IH]; intros w; cbn [foldl].
  - apply keepsHintElements_refl.
  - eapply keepsHintElements_trans; [|apply IH].
    by apply keepsHintElements_modify.
Qed.

Lemma keepsHintElements_rotateStack sign stack w :
  keepsHintElements w (rotateStack sign stack w).
Proof.
  unfold rotateStack. destruct (map _ _) as [|first rest];
    [apply keepsHintElements_refl|]. apply keepsHintElements_setZ.
Qed.

Lemma keepsHintElements_rotateHints forward pg w :
  keepsHintElements w (rotateHints forward pg w).
Proof.
  unfold rotateHints. cbv zeta.
  generalize (default [] (getStacks (rectFor pg w) (hints w))).
  intros stacks. generalize (if forward then 1%Z else 1%Z). intros sign.
  revert w.
  induction stacks as [|stack stacks IH]; intros w; cbn [foldl].
  - apply keepsHintElements_refl.
  - destruct (2 <=? length stack); [|apply IH].
    eapply keepsHintElements_trans; [apply keepsHintElements_rotateStack|apply IH].
Qed.

Lemma filter_all_id {A} (P : A → Prop) `{∀ x, Decision (P x)} (l : list A) :
  (∀ x, x ∈ l → P x) → filter P l = l.
Proof.
  induction l as [|a l IH]; intros Hall; [done|].
  rewrite filter_cons_True by (apply Hall, elem_of_cons; by left).
  f_equal. apply IH. intros x Hx. apply Hall, elem_of_cons. by right.
Qed.

Lemma filter_none_nil {A} (P : A → Prop) `{∀ x, Decision (P x)} (l : list A) :
  (∀ x, x ∈ l → ¬ P x) → filter P l = [].
Proof.
  induction l as [|a l IH]; intros Hall; [done|].
  rewrite filter_cons_False by (apply Hall, elem_of_cons; by left).
  apply IH. intros x Hx. apply Hall, elem_of_cons. by right.
Qed.

Lemma inSync_frame w w' :
  hints w' = hints w → rootHints w' = rootHints w → keepsHintElements w w' →
  inSync w → inSync w'.
Proof.
  intros Hh Hr Hk (N & L & R). unfold inSync. rewrite Hh, Hr.
  split; [exact N|]. split; [|exact R].
  intros r Hin. destruct (L r Hin) as (el & H1 & H2). exact (Hk r el H1 H2).
Qed.

Lemma domInv_frame w w' :
  hints w' = hints w → root w' = root w → keepsHintElements w w' →
  domInv w → domInv w'.
Proof.
  intros Hh Hr Hk (S & T). split.
  - apply (inSync_frame w); [done| |done|done]. unfold rootHints. by rewrite Hr.
  - by rewrite Hr.
Qed.

Lemma domInv_margins w w' :
  frame w' = frame w → heapsOutsideMargins w w' → domInv w → domInv w'.
Proof.
  intros F H. unfold frame in F.
  apply domInv_frame; [congruence|congruence|by apply keepsHintElements_margins].
Qed.

Lemma domInv_rootRemove isN w :
  (∀ r, isN (RHint r) = false) → domInv w → domInv (rootRemove isN w).
Proof.
  intros Hn (S & T). split.
  - apply (inSync_frame w); [done| |by apply keepsHintElements_heap|done].
    unfold rootHints, rootRemove. cbn [root with_root].
    apply omap_hintOf_filter. intros r. by rewrite Hn.
  - unfold rootRemove. cbn [root with_root]. by apply tidy_filter.
Qed.

Lemma domInv_insertShruggie w : domInv w → domInv (insertShruggie w).
Proof.
  intros (S & T). split.
  - apply (inSync_frame w); [done| |by apply keepsHintElements_heap|done].
    unfold rootHints, insertShruggie, rootAppendUnique. cbn [root with_root].
    rewrite omap_app, omap_hintOf_filter by done. cbn. by rewrite app_nil_r.
  - by apply tidy_insertShruggie.
Qed.

Lemma domInv_insertTitle text w : domInv w → domInv (insertTitle text w).
Proof.
  intros (S & T). split.
  - apply (inSync_frame w); [done| |by apply keepsHintElements_heap|done].
    unfold rootHints, insertTitle, rootAppendUnique. cbn [root with_root with_titleText].
    rewrite omap_app, omap_hintOf_filter by done. cbn. by rewrite app_nil_r.
  - by apply tidy_insertTitle.
Qed.

Lemma domInv_renderTextRects boxes frameId w :
  domInv w → domInv (renderTextRects boxes frameId w).
Proof.
  intros (S & T). split.
  - apply (inSync_frame w); [done| |by apply keepsHintElements_heap|done].
    unfold rootHints, renderTextRects. cbn [root with_root].
    rewrite omap_app, (omap_hintOf_none (map _ _)), app_nil_r; [done|].
    apply Forall_forall. intros c Hc. apply list_elem_of_In, in_map_iff in Hc.
    by destruct Hc as (b & <- & _).
  - unfold renderTextRects. cbn [root with_root]. apply tidy_app_plain; [done|].
    apply Forall_forall. intros c Hc. apply list_elem_of_In, in_map_iff in Hc.
    by destruct Hc as (b & <- & _).
Qed.

Lemma domInv_empty w : hints w = [] → root w = [] → domInv w.
Proof.
  intros Hh Hr. split; [|rewrite Hr; apply tidy_nil].
  unfold inSync, rootHints. rewrite Hh, Hr. split; [constructor|].
  split; [|done]. intros r Hin. by apply elem_of_nil in Hin.
Qed.

Lemma domInv_unrender w : domInv (unrender w).
Proof. rewrite unrender_eq. by apply domInv_empty. Qed.

Lemma domInv_unrenderDelayed w : domInv w → domInv (unrenderDelayed w).
Proof.
  unfold unrenderDelayed. destruct (unrenderTimeoutId w); [done|].
  apply domInv_frame; [done|done|by apply keepsHintElements_heap].
Qed.

Lemma domInv_unrenderToTitle text w : domInv w → domInv (unrenderToTitle text w).
Proof.
  intros H. unfold unrenderToTitle.
  set (w1 := match unrenderTimeoutId w with Some id => clearTimeout id w | None => w end).
  assert (H1 : domInv w1).
  { unfold w1. destruct (unrenderTimeoutId w); [|done]. revert H.
    apply domInv_frame; [done|done|by apply keepsHintElements_heap]. }
  apply (domInv_insertTitle text) in H1. revert H1.
  apply domInv_frame; [done|done|by apply keepsHintElements_heap].
Qed.

Lemma foldl_rootRemove_hints (l : list ref) : ∀ w,
  let w' := foldl (fun w r => rootRemove (isHint r) w) w l in
  hints w' = hints w ∧ heap w' = heap w ∧
  rootHints w' = filter (λ x, x ∉ l) (rootHints w) ∧
  (tidy (root w) → tidy (root w')).
Proof.
  induction l as [|r l IH]; intros w; cbn [foldl]; cbv zeta.
  - split; [done|]. split; [done|]. split; [|done].
    symmetry. apply filter_all_id. intros x _. apply not_elem_of_nil.
  - destruct (IH (rootRemove (isHint r) w)) as (A & B & C & D).
    cbv zeta in *. rewrite A, B, C. split; [done|]. split; [done|]. split.
    + unfold rootHints, rootRemove. cbn [root with_root].
      rewrite omap_hintOf_remove, list_filter_filter.
      apply list_filter_iff. intros x. rewrite elem_of_cons. tauto.
    + intros T. apply D. unfold rootRemove. cbn [root with_root].
      by apply tidy_filter.
Qed.

Lemma domInv_runCallback cb w : domInv w → domInv (runCallback cb w).
Proof.
  intros H. destruct cb; [apply domInv_unrender|].
  unfold runCallback. cbv zeta.
  set (w0 := with_unrenderTimeoutId None w).
  destruct (foldl_rootRemove_hints (hints w0) w0) as (A & B & C & D).
  cbv zeta in *. revert A B C D.
  generalize (foldl (fun w r => rootRemove (isHint r) w) w0 (hints w0)).
  intros w1 A B C D. destruct H as ((N & L & R) & T). split.
  - unfold inSync. cbn [hints with_hints with_rects].
    split; [constructor|]. split; [intros r Hin; by apply elem_of_nil in Hin|].
    unfold rootHints, unrenderTextRects, rootRemove.
    cbn [root with_root with_hints with_rects].
    rewrite omap_hintOf_filter by done.
    change (omap hintOf (root w1)) with (rootHints w1). rewrite C.
    change (rootHints w0) with (rootHints w). change (hints w0) with (hints w).
    rewrite R. apply filter_none_nil. intros x Hx Hn. by apply Hn.
  - unfold unrenderTextRects, rootRemove.
    cbn [root with_root with_hints with_rects]. apply tidy_filter, D, T.
Qed.
Lemma domInv_prepare pg w : domInv (prepare pg w).
Proof.
  split.
  - unfold inSync, rootHints. rewrite prepare_hints, prepare_root.
    split; [constructor|]. split; [intros r Hin; by apply elem_of_nil in Hin|].
    unfold preparedRoot. by destruct (parsedCSS w).
  - rewrite prepare_root. apply tidy_preparedRoot.
Qed.

Lemma domInv_loopResult pg elements w : domInv (world (loopResult pg elements w)).
Proof.
  destruct (loopResult_world pg elements w) as (_ & _ & _ & _ & _ & _ & Hroot).
  destruct (loopEnd_hints pg elements w) as (n & Hh & Hheap).
  change (loopEnd pg elements w) with (world (loopResult pg elements w)) in *.
  cbv zeta in Hroot. revert Hroot Hh Hheap.
  generalize (world (loopResult pg elements w)). intros wl Hroot Hh Hheap.
  split.
  - unfold inSync, rootHints. rewrite Hroot, Hh. split; [apply NoDup_seq|].
    split.
    + intros r Hin. apply elem_of_seq in Hin.
      destruct (lookup_lt_is_Some_2 elements (r - n)) as [e He]; [lia|].
      exists (hintElement pg (getViewport pg) (probed pg w) (r - n) e). split.
      * rewrite <- (Hheap _ _ He). f_equal. lia.
      * apply isHintElement_hintElement.
    + rewrite omap_app, omap_hintOf_RHint, omap_hintOf_none; [done|].
      unfold preparedRoot. destruct (parsedCSS w); by repeat constructor.
  - rewrite Hroot. apply tidy_app_plain; [apply tidy_preparedRoot|].
    apply Forall_fmap, Forall_forall. intros r _. done.
Qed.

Lemma domInv_moveInsideViewport pg elements viewport w :
  domInv w → domInv (moveInsideViewport pg elements viewport w).1.
Proof.
  destruct (moveInsideViewport_frame pg elements viewport w) as [F H].
  by apply domInv_margins.
Qed.

Lemma domInv_renderStart pg elements w :
  domInv w → domInv (renderStart pg elements w).1.
Proof.
  intros H. destruct (document w) as [d|] eqn:Hd.
  - destruct elements as [|e elements].
    + unfold renderStart. rewrite Hd. cbn [fst].
      apply domInv_insertShruggie, domInv_prepare.
    + destruct (renderStart_nonempty pg (e :: elements) w) as [_ E];
        [by rewrite Hd|done|].
      cbv zeta in E. rewrite E. cbn [fst].
      apply domInv_moveInsideViewport, domInv_loopResult.
  - unfold renderStart. by rewrite Hd.
Qed.

Lemma domInv_renderFinish pg k w : domInv w → domInv (renderFinish pg k w).
Proof.
  intros H. unfold renderFinish.
  pose proof (domInv_moveInsideViewport pg (restElements k) (captured k) w H) as H'.
  destruct (moveInsideViewport pg (restElements k) (captured k) w) as [w' moved].
  cbn [fst] in H'. revert H'.
  apply domInv_frame; [done|done|by apply keepsHintElements_heap].
Qed.

Lemma domInv_updateHints pg updates enteredText w :
  domInv w → domInv (updateHints pg updates enteredText w).
Proof.
  intros H. rewrite updateHints_finish.
  destruct (updateLoop_frame pg enteredText updates w) as (F & _).
  pose proof (keepsHintElements_updateLoop pg enteredText updates w) as K.
  cbv zeta in F. revert F K. generalize (updateLoop pg enteredText updates w).
  intros a F K.
  assert (Ha : domInv (current a)).
  { revert H. unfold frame in F. apply domInv_frame; [congruence|congruence|done]. }
  unfold finishUpdate. cbv zeta.
  set (w1 := if decide (numHidden a = _) then _ else _).
  assert (H1 : domInv w1).
  { unfold w1. destruct (decide (numHidden a = _));
      [by apply domInv_insertShruggie|by apply domInv_rootRemove]. }
  set (w2 := if decide (enteredText = "") then _ else _).
  assert (H2 : domInv w2).
  { unfold w2. destruct (decide (enteredText = ""));
      [by apply domInv_rootRemove|by apply domInv_insertTitle]. }
  set (w3 := match maybeNeedsMoveInsideViewport a with [] => _ | _ => _ end).
  assert (H3 : domInv w3).
  { unfold w3. destruct (maybeNeedsMoveInsideViewport a); [done|].
    by apply domInv_moveInsideViewport. }
  revert H3. apply domInv_frame; [done|done|by apply keepsHintElements_heap].
Qed.

Lemma domInv_rotateHints forward pg w :
  domInv w → domInv (rotateHints forward pg w).
Proof.
  destruct (rotateHints_static forward pg w) as (_ & B & C & _).
  apply domInv_frame; [done|done|apply keepsHintElements_rotateHints].
Qed.

Lemma domInv_onMessage pg m w : domInv w → domInv (onMessage pg m w).
Proof.
  intros H. destruct m as [| message |]; cbn [onMessage].
  - revert H. apply domInv_frame; [done|done|by apply keepsHintElements_heap].
  - destruct message as [|elements|updates enteredText|forward|boxes frameId| |mode].
    + done.
    + pose proof (domInv_renderStart pg elements w H) as H'.
      destruct (renderStart pg elements w) as [w' [k|]]; cbn [fst] in H'; [|done].
      revert H'. apply domInv_frame; [done|done|by apply keepsHintElements_heap].
    + by apply domInv_updateHints.
    + by apply domInv_rotateHints.
    + apply domInv_renderTextRects. by apply domInv_rootRemove.
    + by apply domInv_rootRemove.
    + destruct mode; [apply domInv_unrender|by apply domInv_unrenderDelayed
                     |by apply domInv_unrenderToTitle].
  - done.
Qed.

Lemma domInv_step w w' : step w w' → domInv w → domInv w'.
Proof.
  intros S H. destruct S as [pg m w|t w Ht|pg k ks w Hp|w].
  - by apply domInv_onMessage.
  - apply domInv_runCallback. revert H.
    apply domInv_frame; [done|done|by apply keepsHintElements_heap].
  - apply (resume_inv domInv).
    + intros k0. apply domInv_moveInsideViewport. revert H.
      apply domInv_frame; [done|done|by apply keepsHintElements_heap].
    + intros w' H'. revert H'.
      apply domInv_frame; [done|done|by apply keepsHintElements_heap].
    + intros w' H'. revert H'.
      apply domInv_frame; [done|done|by apply keepsHintElements_heap].
    + revert H.
      apply domInv_frame; [done|done|by apply keepsHintElements_heap].
  - apply domInv_unrender.
Qed.

Lemma reachable_domInv w : reachable w → domInv w.
Proof.
  induction 1 as [doc|w w' _ IH S]; [apply domInv_unrender|].
  exact (domInv_step w w' S IH).
Qed.

(** X5: in every reachable state the hints are pairwise distinct, each of
    them is a live element that carries the hint class, and the hint
    elements among the children of the shadow root are the hints, in the
    same order. *)
Theorem X5_hints_in_sync w :
  reachable w →
  NoDup (hints w) ∧
  (∀ r, r ∈ hints w → ∃ el, heap w !! r = Some el ∧ HINT_CLASS ∈ classList el) ∧
  omap hintOf (root w) = hints w.
Proof. intros H. exact (proj1 (reachable_domInv w H)). Qed.

Lemma X5_hints_in_sync_witness :
  reachable twoHints ∧ omap hintOf (root twoHints) = hints twoHints.
Proof.
  split; [exact reachable_twoHints|].
  exact (proj2 (proj2 (X5_hints_in_sync twoHints reachable_twoHints))).
Defined.

(** X6: in every reachable state the shadow root holds the stylesheet, the
    placeholder and the title at most once each. *)
Theorem X6_root_tidy w :
  reachable w →
  countOf isStyle (root w) ≤ 1 ∧ countOf isShruggie (root w) ≤ 1 ∧
  countOf isTitle (root w) ≤ 1.
Proof. intros H. exact (proj2 (reachable_domInv w H)). Qed.

Lemma X6_root_tidy_witness :
  reachable twoHints ∧ countOf isStyle (root twoHints) ≤ 1.
Proof.
  split; [exact reachable_twoHints|].
  exact (proj1 (X6_root_tidy twoHints reachable_twoHints)).
Defined.
(** ** Overlap stacks: what the grouping returns *)

Lemma chained_singleton rectOf r : chained rectOf [r].
Proof. intros i r' H. by destruct i. Qed.

Lemma chained_app rectOf s1 s2 :
  chained rectOf s1 → chained rectOf s2 →
  (∀ r, head s2 = Some r →
     ∃ j r', s1 !! j = Some r' ∧ overlaps (rectOf r) (rectOf r') = true) →
  chained rectOf (s1 ++ s2).
Proof.
  intros H1 H2 Hh i r Hi.
  destruct (decide (S i < length s1)) as [Hlt|Hge].
  - rewrite lookup_app_l in Hi by done.
    destruct (H1 i r Hi) as (j & r' & Hj & Hr' & Ho).
    exists j, r'. split; [done|]. split; [|done].
    rewrite lookup_app_l by lia. done.
  - rewrite lookup_app_r in Hi by lia.
    destruct (S i - length s1) as [|k] eqn:Hk.
    + destruct (Hh r) as (j & r' & Hr' & Ho).
      { destruct s2; [done|]. cbn in Hi. done. }
      pose proof (lookup_lt_Some _ _ _ Hr').
      exists j, r'. split; [lia|]. split; [|done].
      by rewrite lookup_app_l by lia.
    + destruct (H2 k r Hi) as (j & r' & Hj & Hr' & Ho).
      exists (length s1 + j), r'. split; [lia|]. split; [|done].
      rewrite lookup_app_r by lia. rewrite <- Hr'. f_equal. lia.
Qed.

Lemma cons_delete_Permutation {A} (l : list A) i x :
  l !! i = Some x → x :: delete i l ≡ₚ l.
Proof. intros H. symmetry. by apply delete_Permutation. Qed.

Lemma getStackLoop_spec rectOf : ∀ fuel element elements index stack stack' elements',
  getStackLoop fuel rectOf element elements index stack = Some (stack', elements') →
  ∃ tail, stack' = stack ++ tail ∧ tail ++ elements' ≡ₚ elements ∧
    (head stack = Some element → chained rectOf stack → chained rectOf stack').
Proof.
  induction fuel as [|fuel IH];
    intros element elements index stack stack' elements' H; [done|].
  cbn [getStackLoop] in H.
  destruct (elements !! index) as [nextElement|] eqn:E.
  - destruct (overlaps (rectOf nextElement) (rectOf element)) eqn:Ho.
    + destruct (getStackLoop fuel rectOf nextElement (delete index elements) 0
                  [nextElement]) as [[sub elements1]|] eqn:E1; [|done].
      destruct (IH _ _ _ _ _ _ E1) as (tail1 & -> & P1 & C1).
      destruct (IH _ _ _ _ _ _ H) as (tail2 & -> & P2 & C2).
      exists (([nextElement] ++ tail1) ++ tail2). split; [by rewrite !app_assoc|].
      split.
      * rewrite <- (cons_delete_Permutation elements index nextElement E), <- P1, <- P2.
        cbn. constructor. by rewrite app_assoc.
      * intros Hh Hc. apply C2.
        -- destruct stack; [done|]. done.
        -- apply chained_app; [done|by apply C1, chained_singleton|].
           intros r Hr. cbn in Hr. injection Hr as <-.
           exists 0, element. split; [|done]. by destruct stack; simplify_eq/=.
    + apply (IH _ _ _ _ _ _ H).
  - injection H as <- <-. exists []. rewrite app_nil_r. done.
Qed.

Lemma getStackFor_spec rectOf element elements stack elements' :
  getStackFor rectOf element elements = Some (stack, elements') →
  ∃ tail, stack = element :: tail ∧ tail ++ elements' ≡ₚ elements ∧
          chained rectOf stack.
Proof.
  intros H. destruct (getStackLoop_spec _ _ _ _ _ _ _ _ H) as (tail & -> & P & C).
  exists tail. split; [done|]. split; [done|].
  apply C; [done|apply chained_singleton].
Qed.

Lemma pop_spec elements element elements' :
  pop elements = Some (element, elements') → elements = elements' ++ [element].
Proof.
  unfold pop. destruct (last elements) as [x|] eqn:E; [|done].
  intros H. injection H as <- <-.
  destruct elements as [|a l _] using rev_ind; [done|].
  rewrite last_snoc in E. injection E as ->. by rewrite removelast_last.
Qed.

Lemma pop_None elements : pop elements = None → elements = [].
Proof.
  unfold pop. destruct elements as [|a l _] using rev_ind; [done|].
  by rewrite last_snoc.
Qed.

Lemma getStacksLoop_spec rectOf : ∀ fuel elements stacks stacks',
  getStacksLoop fuel rectOf elements stacks = Some stacks' →
  ∃ new, stacks' = stacks ++ new ∧ concat new ≡ₚ elements ∧
         Forall (λ s, s ≠ [] ∧ chained rectOf s) new.
Proof.
  induction fuel as [|fuel IH]; intros elements stacks stacks' H; [done|].
  cbn [getStacksLoop] in H.
  destruct (pop elements) as [[element elements1]|] eqn:E.
  - destruct (getStackFor rectOf element elements1) as [[stack elements2]|] eqn:E1;
      [|done].
    apply pop_spec in E. subst elements.
    destruct (getStackFor_spec _ _ _ _ _ E1) as (tail & -> & P & C).
    destruct (IH _ _ _ H) as (new & -> & P2 & F).
    exists ((element :: tail) :: new). split; [by rewrite <- app_assoc|].
    split.
    + cbn [concat]. rewrite P2, <- P.
      rewrite <- Permutation_middle, (Permutation_app_comm (tail ++ _)).
      cbn. done.
    + constructor; [|done]. split; [done|done].
  - injection H as <-. apply pop_None in E. subst. exists [].
    rewrite app_nil_r. by repeat constructor.
Qed.

Lemma getStacks_spec rectOf originalElements stacks :
  getStacks rectOf originalElements = Some stacks →
  concat stacks ≡ₚ originalElements ∧
  Forall (λ s, s ≠ [] ∧ chained rectOf s) stacks.
Proof.
  intros H. destruct (getStacksLoop_spec _ _ _ _ _ H) as (new & -> & P & F).
  done.
Qed.

Lemma getStackLoop_apart rectOf element : ∀ fuel elements index stack,
  (∀ r, r ∈ elements → overlaps (rectOf r) (rectOf element) = false) →
  length elements - index < fuel →
  getStackLoop fuel rectOf element elements index stack = Some (stack, elements).
Proof.
  induction fuel as [|fuel IH]; intros elements index stack Ha Hf; [lia|].
  cbn [getStackLoop]. destruct (elements !! index) as [nextElement|] eqn:E; [|done].
  rewrite (Ha nextElement) by (by eapply list_elem_of_lookup_2).
  apply IH; [done|]. apply lookup_lt_Some in E. lia.
Qed.

Lemma getStacksLoop_apart rectOf : ∀ fuel elements stacks,
  apart rectOf elements → length elements < fuel →
  getStacksLoop fuel rectOf elements stacks =
    Some (stacks ++ ((λ r, [r]) <$> reverse elements)).
Proof.
  induction fuel as [|fuel IH]; intros elements stacks Ha Hf; [lia|].
  cbn [getStacksLoop].
  destruct elements as [|element elements1 _] using rev_ind.
  { cbn. by rewrite app_nil_r. }
  assert (Ep : pop (elements1 ++ [element]) = Some (element, elements1)).
  { unfold pop. by rewrite last_snoc, removelast_last. }
  rewrite Ep. unfold getStackFor.
  rewrite length_app in Hf. cbn in Hf.
  rewrite getStackLoop_apart; [| |unfold stackFuel; lia].
  - rewrite IH; [| |lia].
    + rewrite reverse_snoc. cbn. by rewrite <- app_assoc.
    + intros i j a b Hij Hi Hj. apply (Ha i j); [done| |].
      * rewrite lookup_app_l; [done|]. by eapply lookup_lt_Some.
      * rewrite lookup_app_l; [done|]. by eapply lookup_lt_Some.
  - intros r Hr. apply list_elem_of_lookup in Hr as [i Hi].
    pose proof (lookup_lt_Some _ _ _ Hi).
    apply (Ha i (length elements1)); [lia| |].
    + by rewrite lookup_app_l.
    + rewrite lookup_app_r by lia. by rewrite Nat.sub_diag.
Qed.

Lemma getStacks_apart rectOf originalElements :
  apart rectOf originalElements →
  getStacks rectOf originalElements =
    Some ((λ r, [r]) <$> reverse originalElements).
Proof.
  intros Ha. unfold getStacks. rewrite getStacksLoop_apart; [done|done|lia].
Qed.

Lemma rotateStacks_singletons sign (l : list ref) w :
  foldl (fun w' stack =>
           if 2 <=? length stack then rotateStack sign stack w' else w')
    w ((λ r, [r]) <$> l) = w.
Proof. induction l as [|r l IH]; [done|]. cbn [fmap list_fmap foldl]. exact IH. Qed.
(** X7: the grouping of [getStacks] always returns, and what it returns is
    a partition of the elements it was given: the stacks together hold the
    elements, each as often as the input does; no stack is empty, and each
    member of a stack but the first overlaps an earlier member of it. *)
Theorem X7_getStacks_partition rectOf originalElements :
  ∃ stacks, getStacks rectOf originalElements = Some stacks ∧
    concat stacks ≡ₚ originalElements ∧
    Forall (λ s, s ≠ [] ∧ chained rectOf s) stacks.
Proof.
  destruct (getStacks_total rectOf originalElements) as [stacks H].
  exists stacks. split; [done|]. by apply getStacks_spec.
Qed.

(** X8: when no two hints overlap, every hint is a stack of its own, in
    reverse order, and [rotateHints] changes nothing. *)
Theorem X8_rotate_apart forward pg w :
  apart (rectFor pg w) (hints w) →
  getStacks (rectFor pg w) (hints w) =
    Some ((λ r, [r]) <$> reverse (hints w)) ∧
  rotateHints forward pg w = w.
Proof.
  intros Ha. pose proof (getStacks_apart _ _ Ha) as E. split; [done|].
  unfold rotateHints. cbv zeta. rewrite E. cbn [default from_option id].
  apply rotateStacks_singletons.
Qed.

Lemma X8_rotate_apart_witness :
  apart (rectFor Example.page twoHints) (hints twoHints) ∧
  rotateHints true Example.page twoHints = twoHints.
Proof.
  assert (Ha : apart (rectFor Example.page twoHints) (hints twoHints)).
  { assert (Hh : hints twoHints = [3; 4]) by (vm_compute; reflexivity).
    intros i j a b Hij Hi Hj. rewrite Hh in Hi, Hj.
    destruct i as [|[|i]], j as [|[|j]];
      first [exfalso; apply Hij; reflexivity | discriminate Hi | discriminate Hj | idtac];
      cbn in Hi, Hj; injection Hi as <-; injection Hj as <-;
      vm_compute; reflexivity. }
  split; [exact Ha|].
  exact (proj2 (X8_rotate_apart true Example.page twoHints Ha)).
Defined.

(** ** Rotation permutes the stacking indices *)

Lemma zIndexText_heap w w' r :
  heap w' !! r = heap w !! r → zIndexText w' r = zIndexText w r.
Proof. unfold zIndexText. by intros ->. Qed.

Lemma zIndexOf_text w r :
  zIndexOf w r = match zIndexText w r with Num n => n | _ => 0%Z end.
Proof. reflexivity. Qed.

Lemma live_modify r f w r' :
  is_Some (heap (modify r f w) !! r') ↔ is_Some (heap w !! r').
Proof.
  unfold modify. cbn. destruct (decide (r = r')) as [->|Hne].
  - rewrite lookup_alter_eq. apply fmap_is_Some.
  - by rewrite lookup_alter_ne.
Qed.

Lemma zIndexText_set r v w :
  is_Some (heap w !! r) →
  zIndexText (modify r (fun e => setStyles e [("z-index", v)]) w) r = v.
Proof.
  intros [e He]. unfold zIndexText, modify. cbn.
  rewrite lookup_alter_eq, He. cbn. unfold getPropertyValue.
  rewrite setProperty_lookup_eq. by destruct v.
Qed.

Lemma foldl_setZ_spec (l : list (ref * CssValue)) : ∀ w,
  NoDup l.*1 → (∀ r, r ∈ l.*1 → is_Some (heap w !! r)) →
  let w' :=
    foldl (fun w ez => modify ez.1 (fun e => setStyles e [("z-index", ez.2)]) w)
      w l in
  (∀ r, r ∉ l.*1 → heap w' !! r = heap w !! r) ∧
  (∀ r, is_Some (heap w' !! r) ↔ is_Some (heap w !! r)) ∧
  zIndexText w' <$> l.*1 = l.*2.
Proof.
  induction l as [|[r v] l IH]; intros w Hnd Hl; cbn [foldl]; cbv zeta.
  - done.
  - cbn [fmap list_fmap fst snd] in *. apply NoDup_cons in Hnd as [Hr Hnd].
    set (w1 := modify r (λ e, setStyles e [("z-index", v)]) w).
    destruct (IH w1 Hnd) as (O & L & Z).
    { intros r' Hr'. apply live_modify, Hl, elem_of_cons. by right. }
    cbv zeta in *. split; [|split].
    + intros r' Hr'. apply not_elem_of_cons in Hr' as [Hne Hr'].
      rewrite O by done. unfold w1, modify. cbn. by rewrite lookup_alter_ne.
    + intros r'. rewrite L. apply live_modify.
    + f_equal; [|exact Z].
      rewrite (zIndexText_heap w1) by (by apply O).
      apply zIndexText_set, Hl, elem_of_cons. by left.
Qed.

Lemma insertBy_Permutation {A} (compareFn : A → A → Z) a l :
  insertBy compareFn a l ≡ₚ a :: l.
Proof.
  induction l as [|b l IH]; [done|]. cbn [insertBy].
  destruct (compareFn a b <=? 0)%Z; [done|]. rewrite IH. apply perm_swap.
Qed.

Lemma sortBy_Permutation {A} (compareFn : A → A → Z) l :
  sortBy compareFn l ≡ₚ l.
Proof.
  induction l as [|a l IH]; [done|]. unfold sortBy in *. cbn [foldr].
  by rewrite insertBy_Permutation, IH.
Qed.

Lemma rotateStack_perm sign stack w :
  NoDup stack → (∀ r, r ∈ stack → is_Some (heap w !! r)) →
  let w' := rotateStack sign stack w in
  (∀ r, r ∉ stack → heap w' !! r = heap w !! r) ∧
  (∀ r, is_Some (heap w' !! r) ↔ is_Some (heap w !! r)) ∧
  zIndexText w' <$> stack ≡ₚ zIndexText w <$> stack.
Proof.
  intros Hnd Hl. unfold rotateStack. cbv zeta.
  pose proof (sortBy_Permutation
                (λ a b, ((zIndexOf w a - zIndexOf w b) * sign)%Z) stack) as Hp.
  revert Hp.
  generalize (sortBy (λ a b, ((zIndexOf w a - zIndexOf w b) * sign)%Z) stack).
  intros s' Hp.
  destruct (map (zIndexText w) s') as [|first rest] eqn:Em; [done|].
  assert (Hlen : length s' = length (rest ++ [first])).
  { rewrite length_app. cbn. rewrite Nat.add_comm. cbn.
    change (S (length rest)) with (length (first :: rest)).
    by rewrite <- Em, length_map. }
  destruct (foldl_setZ_spec (zip s' (rest ++ [first])) w) as (O & L & Z).
  { rewrite fst_zip by lia. by rewrite Hp. }
  { rewrite fst_zip by lia. intros r Hr. apply Hl. by rewrite <- Hp. }
  cbv zeta in *. rewrite fst_zip in O, Z by lia. rewrite snd_zip in Z by lia.
  split; [|split].
  - intros r Hr. apply O. by rewrite Hp.
  - exact L.
  - rewrite <- Hp at 1. rewrite Z. rewrite <- Hp.
    change (zIndexText w <$> s') with (map (zIndexText w) s'). rewrite Em.
    symmetry. apply Permutation_cons_append.
Qed.

Lemma fmap_live_ext {A B} (f g : A → B) (l : list A) :
  (∀ x, x ∈ l → f x = g x) → f <$> l ≡ₚ g <$> l.
Proof.
  intros H. rewrite (list_fmap_ext f g l); [done|].
  intros i x Hi. apply H. by eapply list_elem_of_lookup_2.
Qed.

Lemma rotateStacks_perm sign : ∀ stacks w,
  NoDup (concat stacks) → (∀ r, r ∈ concat stacks → is_Some (heap w !! r)) →
  let w' :=
    foldl (fun w' stack =>
             if 2 <=? length stack then rotateStack sign stack w' else w')
      w stacks in
  (∀ r, r ∉ concat stacks → heap w' !! r = heap w !! r) ∧
  zIndexText w' <$> concat stacks ≡ₚ zIndexText w <$> concat stacks.
Proof.
  induction stacks as [|s ss IH]; intros w Hnd Hl; cbn [foldl concat]; cbv zeta;
    [done|].
  cbn [concat] in Hnd, Hl. apply NoDup_app in Hnd as (Hs & Hdis & Hss).
  set (w1 := if 2 <=? length s then rotateStack sign s w else w).
  assert (H1 : (∀ r, r ∉ s → heap w1 !! r = heap w !! r) ∧
               (∀ r, is_Some (heap w1 !! r) ↔ is_Some (heap w !! r)) ∧
               zIndexText w1 <$> s ≡ₚ zIndexText w <$> s).
  { unfold w1. destruct (2 <=? length s); [|done].
    apply rotateStack_perm; [done|]. intros r Hr. apply Hl, elem_of_app. by left. }
  destruct H1 as (O1 & L1 & P1).
  destruct (IH w1 Hss) as (O & P).
  { intros r Hr. apply L1, Hl, elem_of_app. by right. }
  cbv zeta in *. split.
  - intros r Hr. apply not_elem_of_app in Hr as [Hr1 Hr2].
    rewrite O by done. by apply O1.
  - rewrite !fmap_app. apply Permutation_app.
    + rewrite <- P1. apply fmap_live_ext.
      intros r Hr. apply zIndexText_heap, O. by apply Hdis.
    + rewrite P. apply fmap_live_ext.
      intros r Hr. apply zIndexText_heap, O1. intros Hr'. by apply (Hdis r).
Qed.

Lemma rotateHints_perm forward pg w :
  NoDup (hints w) → (∀ r, r ∈ hints w → is_Some (heap w !! r)) →
  let w' := rotateHints forward pg w in
  (∀ r, r ∉ hints w → heap w' !! r = heap w !! r) ∧
  zIndexText w' <$> hints w ≡ₚ zIndexText w <$> hints w.
Proof.
  intros Hnd Hl. unfold rotateHints. cbv zeta.
  destruct (getStacks_total (rectFor pg w) (hints w)) as [stacks E].
  rewrite E. cbn [default from_option id].
  destruct (getStacks_spec _ _ _ E) as [P _].
  destruct (rotateStacks_perm (if forward then 1%Z else 1%Z) stacks w) as (O & Z).
  { by rewrite P. }
  { intros r Hr. apply Hl. by rewrite <- P. }
  cbv zeta in *. split.
  - intros r Hr. apply O. by rewrite P.
  - by rewrite <- P.
Qed.

Lemma heapsOutsideZIndex_refl w : heapsOutsideZIndex w w.
Proof. intros r. destruct (heap w !! r); by constructor. Qed.

Lemma heapsOutsideZIndex_trans w1 w2 w3 :
  heapsOutsideZIndex w1 w2 → heapsOutsideZIndex w2 w3 → heapsOutsideZIndex w1 w3.
Proof.
  intros H12 H23 r. specialize (H12 r). specialize (H23 r).
  destruct H12 as [e1 e2 (A1 & B1 & C1)|]; inversion H23 as [? e3 (A2 & B2 & C2)|];
    subst; constructor.
  split; [congruence|]. split; [congruence|].
  intros p Hp. rewrite C2, C1; done.
Qed.

Lemma heapsOutsideZIndex_setZ r v w :
  heapsOutsideZIndex w (modify r (fun e => setStyles e [("z-index", v)]) w).
Proof.
  intros r'. unfold modify. cbn. destruct (decide (r = r')) as [->|Hne].
  - rewrite lookup_alter_eq. destruct (heap w !! r') as [e|]; constructor.
    split; [done|]. split; [done|]. intros p Hp. cbn.
    by apply setProperty_lookup_ne.
  - rewrite lookup_alter_ne by done. destruct (heap w !! r'); by constructor.
Qed.

Lemma heapsOutsideZIndex_foldl (l : list (ref * CssValue)) : ∀ w,
  heapsOutsideZIndex w
    (foldl (fun w ez => modify ez.1 (fun e => setStyles e [("z-index", ez.2)]) w)
       w l).
Proof.
  induction l as [|ez l IH]; intros w; cbn [foldl].
  - apply heapsOutsideZIndex_refl.
  - eapply heapsOutsideZIndex_trans; [apply heapsOutsideZIndex_setZ|apply IH].
Qed.

Lemma heapsOutsideZIndex_rotateStack sign stack w :
  heapsOutsideZIndex w (rotateStack sign stack w).
Proof.
  unfold rotateStack. destruct (map _ _) as [|first rest];
    [apply heapsOutsideZIndex_refl|]. apply heapsOutsideZIndex_foldl.
Qed.

Lemma heapsOutsideZIndex_rotateHints forward pg w :
  heapsOutsideZIndex w (rotateHints forward pg w).
Proof.
  unfold rotateHints. cbv zeta.
  generalize (default [] (getStacks (rectFor pg w) (hints w))).
  intros stacks. generalize (if forward then 1%Z else 1%Z). intros sign.
  revert w. induction stacks as [|stack stacks IH]; intros w; cbn [foldl].
  - apply heapsOutsideZIndex_refl.
  - destruct (2 <=? length stack); [|apply IH].
    eapply heapsOutsideZIndex_trans; [apply heapsOutsideZIndex_rotateStack|apply IH].
Qed.

(** ** The stacking indices stay pairwise different *)

Lemma sameZ_refl w : sameZ w w.
Proof. done. Qed.

Lemma sameZ_trans w1 w2 w3 : sameZ w1 w2 → sameZ w2 w3 → sameZ w1 w3.
Proof. intros H12 H23 r. by rewrite H23, H12. Qed.

Lemma sameZ_heap w w' : heap w' = heap w → sameZ w w'.
Proof. intros E r. apply zIndexText_heap. by rewrite E. Qed.

Lemma sameZ_modify r f w :
  (∀ e, style (f e) !! "z-index" = style e !! "z-index") →
  sameZ w (modify r f w).
Proof.
  intros Hf r'. unfold zIndexText, modify. cbn.
  destruct (decide (r = r')) as [->|Hne].
  - rewrite lookup_alter_eq. destruct (heap w !! r') as [e|]; [|done]. cbn.
    unfold getPropertyValue. by rewrite Hf.
  - by rewrite lookup_alter_ne.
Qed.

Lemma sameZ_margins w w' : heapsOutsideMargins w w' → sameZ w w'.
Proof.
  intros H r. unfold zIndexText. specialize (H r).
  destruct H as [e e' (_ & _ & Hs)|]; [|done]. cbn. unfold getPropertyValue.
  by rewrite Hs.
Qed.

Lemma zIndex_clearMargins e :
  style (setStyles e [("margin-right", Empty); ("margin-top", Empty)])
    !! "z-index" = style e !! "z-index".
Proof.
  apply setStyles_lookup_other. cbn. rewrite !not_elem_of_cons.
  split; [done|]. split; [done|]. apply not_elem_of_nil.
Qed.

Lemma sameZ_updateOne pg enteredText a u :
  sameZ (current a) (current (updateOne pg enteredText a u)).
Proof.
  unfold updateOne. destruct (hints (current a) !! index u) as [child|];
    [|by apply sameZ_heap].
  assert (X : ∀ w f, (∀ e, style (f e) !! "z-index" = style e !! "z-index") →
                     sameZ (current a) w → sameZ (current a) (modify child f w)).
  { intros w f Hf Hw. eapply sameZ_trans; [exact Hw|]. by apply sameZ_modify. }
  destruct u as [i|i matched rest hl].
  - rewrite maybeApplyStyles_id. apply X; [done|apply sameZ_refl].
  - destruct (decide (matched ≠ "")); [|destruct (decide (enteredText ≠ _))];
      rewrite maybeApplyStyles_id; cbn [current];
      repeat (apply X; [first [done|exact zIndex_clearMargins]|]);
      apply sameZ_refl.
Qed.

Lemma sameZ_updateLoop pg enteredText updates w :
  sameZ w (current (updateLoop pg enteredText updates w)).
Proof.
  unfold updateLoop.
  set (a0 := {| current := w; numHidden := 0; maybeNeedsMoveInsideViewport := [] |}).
  change (sameZ (current a0) (current (foldl (updateOne pg enteredText) a0 updates))).
  generalize a0. induction updates as [|u updates IH]; intros a; cbn [foldl].
  - apply sameZ_refl.
  - eapply sameZ_trans; [apply sameZ_updateOne|apply IH].
Qed.

Lemma sameZ_updateHints pg updates enteredText w :
  sameZ w (updateHints pg updates enteredText w).
Proof.
  eapply sameZ_trans; [apply sameZ_updateLoop|].
  apply sameZ_margins, updateHints_heap.
Qed.

Lemma zInv_frame w w' : hints w' = hints w → sameZ w w' → zInv w → zInv w'.
Proof.
  intros Hh Hz (N & F). unfold zInv. rewrite Hh.
  assert (E : zIndexText w' <$> hints w = zIndexText w <$> hints w).
  { apply list_fmap_ext. intros i r _. apply Hz. }
  by rewrite E.
Qed.

Lemma zInv_empty w : hints w = [] → zInv w.
Proof. intros E. unfold zInv. rewrite E. split; constructor. Qed.

Lemma zInv_margins w w' :
  frame w' = frame w → heapsOutsideMargins w w' → zInv w → zInv w'.
Proof.
  intros F H. unfold frame in F.
  apply zInv_frame; [congruence|by apply sameZ_margins].
Qed.

Lemma zInv_loopResult pg elements w : zInv (world (loopResult pg elements w)).
Proof.
  destruct (loopEnd_hints pg elements w) as (n & Hh & Hheap).
  change (loopEnd pg elements w) with (world (loopResult pg elements w)) in *.
  revert Hh Hheap. generalize (world (loopResult pg elements w)).
  intros wl Hh Hheap.
  assert (E : zIndexText wl <$> hints wl =
              (λ j, Num (MAX_Z_INDEX - Z.of_nat j)) <$> seq 0 (length elements)).
  { rewrite Hh. rewrite <- (Nat.add_0_r n) at 1. rewrite <- fmap_add_seq.
    rewrite <- list_fmap_compose. apply list_fmap_ext. intros i j Hj.
    apply lookup_seq in Hj as [-> Hj]. cbn.
    destruct (lookup_lt_is_Some_2 elements i Hj) as [e He].
    unfold zIndexText. rewrite (Hheap _ _ He). cbn [default from_option id].
    unfold getPropertyValue. by rewrite hintElement_zIndex. }
  unfold zInv. rewrite E. split.
  - apply NoDup_fmap_2; [|apply NoDup_seq].
    intros i j Hij. injection Hij as Hij. lia.
  - apply Forall_fmap, Forall_forall. intros j _. cbn. eauto.
Qed.

Lemma hints_insertShruggie w : hints (insertShruggie w) = hints w.
Proof. reflexivity. Qed.

Lemma zInv_insertShruggie_prepare pg w : zInv (insertShruggie (prepare pg w)).
Proof.
  apply zInv_empty. rewrite hints_insertShruggie. apply prepare_hints.
Qed.

Lemma zInv_renderStart pg elements w :
  zInv w → zInv (renderStart pg elements w).1.
Proof.
  intros H. destruct (document w) as [d|] eqn:Hd.
  - destruct elements as [|e elements].
    + unfold renderStart. rewrite Hd. cbn [fst].
      apply zInv_insertShruggie_prepare.
    + destruct (renderStart_nonempty pg (e :: elements) w) as [_ E];
        [by rewrite Hd|done|].
      cbv zeta in E. rewrite E. cbn [fst].
      destruct (moveInsideViewport_frame pg
                  (edgeElements (loopResult pg (e :: elements) w)) (getViewport pg)
                  (world (loopResult pg (e :: elements) w))) as [F Hm].
      apply (zInv_margins _ _ F Hm), zInv_loopResult.
  - unfold renderStart. by rewrite Hd.
Qed.

Lemma zInv_rotateHints forward pg w :
  inSync w → zInv w → zInv (rotateHints forward pg w).
Proof.
  intros (N & L & _) (Z & F).
  destruct (rotateHints_static forward pg w) as (_ & Hh & _).
  destruct (rotateHints_perm forward pg w N) as (_ & P).
  { intros r Hr. destruct (L r Hr) as (el & -> & _). eauto. }
  cbv zeta in P. unfold zInv. rewrite Hh, P. done.
Qed.

Lemma zInv_updateHints pg updates enteredText w :
  zInv w → zInv (updateHints pg updates enteredText w).
Proof.
  apply zInv_frame; [apply updateHints_hints|apply sameZ_updateHints].
Qed.

Lemma zInv_renderFinish pg k w : zInv w → zInv (renderFinish pg k w).
Proof.
  intros H. unfold renderFinish.
  destruct (moveInsideViewport_frame pg (restElements k) (captured k) w) as [F Hm].
  pose proof (zInv_margins _ _ F Hm H) as H'.
  destruct (moveInsideViewport pg (restElements k) (captured k) w) as [w' moved].
  cbn [fst] in H'. revert H'. apply zInv_frame; [done|by apply sameZ_heap].
Qed.

Lemma zInv_onMessage pg m w : inSync w → zInv w → zInv (onMessage pg m w).
Proof.
  intros S H. destruct m as [| message |]; cbn [onMessage].
  - revert H. apply zInv_frame; [done|by apply sameZ_heap].
  - destruct message as [|elements|updates enteredText|forward|boxes frameId| |mode].
    + done.
    + pose proof (zInv_renderStart pg elements w H) as H'.
      destruct (renderStart pg elements w) as [w' [k|]]; cbn [fst] in H'; [|done].
      revert H'. apply zInv_frame; [done|by apply sameZ_heap].
    + by apply zInv_updateHints.
    + by apply zInv_rotateHints.
    + revert H. apply zInv_frame; [done|by apply sameZ_heap].
    + revert H. apply zInv_frame; [done|by apply sameZ_heap].
    + destruct mode.
      * apply zInv_empty. by rewrite unrender_eq.
      * revert H. unfold unrenderDelayed. destruct (unrenderTimeoutId w); [done|].
        apply zInv_frame; [done|by apply sameZ_heap].
      * revert H. unfold unrenderToTitle. destruct (unrenderTimeoutId w);
          (apply zInv_frame; [done|by apply sameZ_heap]).
  - done.
Qed.

Lemma zInv_step w w' : step w w' → inSync w → zInv w → zInv w'.
Proof.
  intros St S H. destruct St as [pg m w|t w Ht|pg k ks w Hp|w].
  - by apply zInv_onMessage.
  - destruct (callback t); cbn [runCallback]; apply zInv_empty;
      [by rewrite unrender_eq|done].
  - apply (resume_inv zInv).
    + intros k0.
      destruct (moveInsideViewport_frame pg (restElements k0) (captured k0)
                  (with_paints ks w)) as [F Hm].
      apply (zInv_margins _ _ F Hm). revert H.
      apply zInv_frame; [done|by apply sameZ_heap].
    + intros w' H'. revert H'. apply zInv_frame; [done|by apply sameZ_heap].
    + intros w' H'. revert H'. apply zInv_frame; [done|by apply sameZ_heap].
    + revert H. apply zInv_frame; [done|by apply sameZ_heap].
  - apply zInv_empty. unfold stop. by rewrite unrender_eq.
Qed.

Lemma reachable_zInv w : reachable w → zInv w.
Proof.
  induction 1 as [doc|w w' R IH S].
  - apply zInv_empty. by rewrite unrender_eq.
  - exact (zInv_step w w' S (proj1 (reachable_domInv w R)) IH).
Qed.
Lemma stacking_text w :
  stacking w =
    (λ v, match v with Num n => n | _ => 0%Z end) <$> (zIndexText w <$> hints w).
Proof. unfold stacking. rewrite <- list_fmap_compose. reflexivity. Qed.

(** X9: in every reachable state the stacking indices of the hints are
    numbers and pairwise different, which is what the sort of
    [rotateHints] relies on. *)
Theorem X9_stacking_unique w :
  reachable w →
  NoDup (stacking w) ∧
  ∀ r, r ∈ hints w →
    ∃ el n, heap w !! r = Some el ∧ style el !! "z-index" = Some (Num n).
Proof.
  intros R. destruct (reachable_zInv w R) as (N & F).
  destruct (reachable_domInv w R) as ((_ & L & _) & _). split.
  - rewrite stacking_text. apply NoDup_fmap_2_strong; [|exact N].
    intros v1 v2 H1 H2. rewrite Forall_forall in F.
    destruct (F v1 H1) as [n1 ->]. destruct (F v2 H2) as [n2 ->]. congruence.
  - intros r Hr. destruct (L r Hr) as (el & He & _).
    rewrite Forall_forall in F. destruct (F (zIndexText w r)) as [n Hn].
    { apply list_elem_of_fmap. eauto. }
    exists el, n. split; [done|]. unfold zIndexText in Hn. rewrite He in Hn.
    cbn in Hn. unfold getPropertyValue in Hn.
    destruct (style el !! "z-index") as [v|]; cbn in Hn; congruence.
Qed.

Lemma X9_stacking_unique_witness :
  reachable twoHints ∧ NoDup (stacking twoHints).
Proof.
  split; [exact reachable_twoHints|].
  exact (proj1 (X9_stacking_unique twoHints reachable_twoHints)).
Defined.

(** X10: in a reachable state [rotateHints] permutes the stacking indices
    among the hints and changes nothing else: the list of hints, the shadow
    root, the cache, the timers and the log stay as they are, nodes that
    are not hints are untouched, and a hint keeps its text, its classes and
    every style property but the stacking index. *)
Theorem X10_rotate_permutes forward pg w :
  reachable w →
  let w' := rotateHints forward pg w in
  stacking w' ≡ₚ stacking w ∧
  hints w' = hints w ∧ root w' = root w ∧ static w' = static w ∧
  (∀ r, r ∉ hints w → heap w' !! r = heap w !! r) ∧
  (∀ r, option_Forall2 sameOutsideZIndex (heap w !! r) (heap w' !! r)).
Proof.
  intros R. cbv zeta.
  destruct (reachable_domInv w R) as ((N & L & _) & _).
  destruct (rotateHints_static forward pg w) as (S & Hh & Hr & _).
  destruct (rotateHints_perm forward pg w N) as (O & P).
  { intros r Hr'. destruct (L r Hr') as (el & -> & _). eauto. }
  cbv zeta in *. split; [|split; [done|split; [done|split; [done|split; [done|]]]]].
  - rewrite !stacking_text, Hh. by rewrite P.
  - apply heapsOutsideZIndex_rotateHints.
Qed.

Lemma X10_rotate_permutes_witness :
  reachable twoHints ∧
  stacking (rotateHints true Example.page twoHints) ≡ₚ stacking twoHints.
Proof.
  split; [exact reachable_twoHints|].
  exact (proj1 (X10_rotate_permutes true Example.page twoHints reachable_twoHints)).
Defined.

(** ** What [updateHints] does to one hint *)

Lemma moveInsideViewport_other pg viewport elements r : ∀ w moved,
  r ∉ elements →
  heap (foldl (moveOne pg viewport) (w, moved) elements).1 !! r = heap w !! r.
Proof.
  induction elements as [|x elements IH]; intros w moved Hr; cbn [foldl]; [done|].
  apply not_elem_of_cons in Hr as [Hne Hr].
  destruct (heap w !! x) as [e|] eqn:E.
  - rewrite (moveOne_Some _ _ _ _ _ _ E), IH by done.
    rewrite afterMove_heap. by destruct (decide (x = r)).
  - rewrite (moveOne_None _ _ _ _ _ E). by apply IH.
Qed.

Lemma finishUpdate_heap_other pg enteredText a r :
  r ∉ maybeNeedsMoveInsideViewport a →
  heap (finishUpdate pg enteredText a) !! r = heap (current a) !! r.
Proof.
  intros Hr. unfold finishUpdate. cbv zeta.
  set (w2 := if decide (enteredText = "") then _ else _).
  assert (H2 : heap w2 = heap (current a)).
  { unfold w2. by destruct (decide (enteredText = "")), (decide (numHidden a = _)). }
  destruct (maybeNeedsMoveInsideViewport a) as [|x q] eqn:Eq.
  - cbn [heap with_enteredTextChars]. by rewrite H2.
  - cbn [heap with_enteredTextChars]. unfold moveInsideViewport.
    rewrite moveInsideViewport_other by done. by rewrite H2.
Qed.

Lemma updateOne_queue pg enteredText a u x :
  x ∈ maybeNeedsMoveInsideViewport (updateOne pg enteredText a u) →
  x ∈ maybeNeedsMoveInsideViewport a ∨
  (hints (current a) !! index u = Some x ∧
   (∃ i rest hl, u = Update i "" rest hl) ∧
   enteredText ≠ enteredTextChars (current a)).
Proof.
  unfold updateOne. destruct (hints (current a) !! index u) as [child|]; [|by left].
  destruct u as [i|i matched rest hl]; [by left|].
  destruct (decide (matched ≠ "")) as [Hm|Hm]; [by left|].
  destruct (decide (enteredText ≠ _)) as [Ht|Ht]; [|by left].
  cbn [maybeNeedsMoveInsideViewport]. intros Hx.
  apply elem_of_app in Hx as [Hx|Hx]; [by left|].
  apply list_elem_of_singleton in Hx as ->. right. split; [done|].
  split; [|exact Ht]. exists i, rest, hl. f_equal.
  destruct (decide (matched = "")); [done|]. by destruct Hm.
Qed.

Lemma foldl_updateOne_queue pg enteredText updates x : ∀ a,
  x ∈ maybeNeedsMoveInsideViewport (foldl (updateOne pg enteredText) a updates) →
  x ∈ maybeNeedsMoveInsideViewport a ∨
  ∃ u, u ∈ updates ∧ hints (current a) !! index u = Some x ∧
       (∃ i rest hl, u = Update i "" rest hl) ∧
       enteredText ≠ enteredTextChars (current a).
Proof.
  induction updates as [|u updates IH]; intros a Hx; cbn [foldl] in Hx; [by left|].
  destruct (updateOne_frame pg enteredText a u) as (F & _). cbv zeta in F.
  unfold frame in F.
  destruct (IH _ Hx) as [H|(u' & Hu' & Hh & Hf & Ht)].
  - apply updateOne_queue in H as [H|(Hh & Hf & Ht)]; [by left|].
    right. exists u. split; [apply elem_of_cons; by left|done].
  - right. exists u'. split; [apply elem_of_cons; by right|].
    split; [congruence|]. split; [done|congruence].
Qed.

Lemma updateOne_heap_child pg enteredText a u r el :
  hints (current a) !! index u = Some r → heap (current a) !! r = Some el →
  ∃ el', heap (current (updateOne pg enteredText a u)) !! r = Some el' ∧
    (∀ p, p ≠ "margin-right" → p ≠ "margin-top" → style el' !! p = style el !! p) ∧
    match u with
    | Hide _ => el' = toggle HIDDEN_HINT_CLASS true el
    | Update _ matched rest highlighted =>
        children el' =
          (if decide (matched = "") then [] else [MatchedSpan matched]) ++
          [TextNode rest] ∧
        classList el' =
          classList (toggle HIGHLIGHTED_HINT_CLASS highlighted
                       (toggle HIDDEN_HINT_CLASS false el)) ∧
        (matched ≠ "" ∨ enteredText = enteredTextChars (current a) →
           style el' = style el)
    end.
Proof.
  intros Hh He. unfold updateOne. rewrite Hh.
  destruct u as [i|i matched rest hl].
  - rewrite maybeApplyStyles_id. cbn. rewrite lookup_alter_eq, He. cbn.
    eexists. split; [done|]. split; done.
  - destruct (decide (matched ≠ "")) as [Hm|Hm];
      [|destruct (decide (enteredText ≠ _)) as [Ht|Ht]];
      rewrite maybeApplyStyles_id; cbn; rewrite !lookup_alter_eq, He; cbn;
      eexists; (split; [done|]).
    + split; [done|]. split; [by rewrite decide_False by done|]. done.
    + assert (Hm' : matched = "") by (destruct (decide (matched = "")); tauto).
      split.
      * intros p H1 H2.
        apply (setStyles_lookup_other
                 (emptyNode (toggle HIDDEN_HINT_CLASS false el))
                 [("margin-right", Empty); ("margin-top", Empty)] p).
        cbn. rewrite !not_elem_of_cons. split; [done|]. split; [done|].
        apply not_elem_of_nil.
      * split; [by rewrite decide_True by done|]. split; [done|].
        intros [H|H]; [done|]. by destruct Ht.
    + assert (Hm' : matched = "") by (destruct (decide (matched = "")); tauto).
      split; [done|]. split; [by rewrite decide_True by done|]. done.
Qed.
(** X11: what one batch of [updateHints] does to a hint that exactly one of
    its updates addresses.  A [Hide] update adds the hidden class and
    leaves the rest of the element alone.  An [Update] replaces the text of
    the hint by the matched characters, when there are any, followed by
    the rest; removes the hidden class; sets the highlighted class as the
    update says; and leaves every style property but the two margins as it
    was, and the margins too when characters matched or the filter text
    did not change. *)
Theorem X11_update_effect pg us1 u us2 enteredText w i r el :
  NoDup (hints w) → hints w !! i = Some r → heap w !! r = Some el →
  index u = i → (∀ u', u' ∈ us1 ++ us2 → index u' ≠ i) →
  ∃ el', heap (updateHints pg (us1 ++ u :: us2) enteredText w) !! r = Some el' ∧
    (∀ p, p ≠ "margin-right" → p ≠ "margin-top" → style el' !! p = style el !! p) ∧
    match u with
    | Hide _ => el' = toggle HIDDEN_HINT_CLASS true el
    | Update _ matched rest highlighted =>
        children el' =
          (if decide (matched = "") then [] else [MatchedSpan matched]) ++
          [TextNode rest] ∧
        classList el' =
          classList (toggle HIGHLIGHTED_HINT_CLASS highlighted
                       (toggle HIDDEN_HINT_CLASS false el)) ∧
        (matched ≠ "" ∨ enteredText = enteredTextChars w → style el' = style el)
    end.
Proof.
  intros Hnd Hi He Hu Hother.
  assert (Hne : ∀ u', u' ∈ us1 ++ us2 → hints w !! index u' ≠ Some r).
  { intros u' Hu' Hr. apply (Hother u' Hu').
    exact (NoDup_lookup _ _ _ _ Hnd Hr Hi). }
  set (a0 := {| current := w; numHidden := 0; maybeNeedsMoveInsideViewport := [] |}).
  set (a1 := foldl (updateOne pg enteredText) a0 us1).
  set (a2 := updateOne pg enteredText a1 u).
  set (a3 := foldl (updateOne pg enteredText) a2 us2).
  assert (E3 : updateLoop pg enteredText (us1 ++ u :: us2) w = a3).
  { unfold updateLoop. by rewrite foldl_app. }
  destruct (foldl_updateOne_frame pg enteredText us1 a0) as (F1 & _).
  fold a1 in F1. cbv zeta in F1. unfold frame in F1. cbn [current a0] in F1.
  assert (Hh1 : hints (current a1) = hints w) by congruence.
  assert (Ht1 : enteredTextChars (current a1) = enteredTextChars w) by congruence.
  assert (H1 : heap (current a1) !! r = Some el).
  { unfold a1. rewrite foldl_updateOne_heap_other; [done|].
    intros u' Hu'. apply Hne, elem_of_app. by left. }
  destruct (updateOne_heap_child pg enteredText a1 u r el) as (el2 & H2 & S2 & M2);
    [by rewrite Hh1, Hu|done|].
  fold a2 in H2. rewrite Ht1 in M2.
  assert (Hh2 : hints (current a2) = hints w).
  { unfold a2. by rewrite updateOne_hints. }
  assert (H3 : heap (current a3) !! r = Some el2).
  { unfold a3. rewrite foldl_updateOne_heap_other; [done|].
    intros u' Hu'. rewrite Hh2. apply Hne, elem_of_app. by right. }
  assert (Hq : r ∈ maybeNeedsMoveInsideViewport a3 →
               (∃ j rest hl, u = Update j "" rest hl) ∧
               enteredText ≠ enteredTextChars w).
  { intros Hr. rewrite <- E3 in Hr. unfold updateLoop in Hr.
    apply foldl_updateOne_queue in Hr as [Hr|(u' & Hu' & Hr & Hf & Ht)];
      [by apply elem_of_nil in Hr|].
    cbn [current] in Hr, Ht. split; [|done].
    apply elem_of_app in Hu' as [Hu'|Hu'].
    - destruct (Hne u'); [apply elem_of_app; by left|done].
    - apply elem_of_cons in Hu' as [->|Hu']; [done|].
      destruct (Hne u'); [apply elem_of_app; by right|done]. }
  pose proof (updateHints_heap pg (us1 ++ u :: us2) enteredText w r) as Hm.
  rewrite E3, H3 in Hm.
  destruct (heap (updateHints pg (us1 ++ u :: us2) enteredText w) !! r)
    as [el'|] eqn:Hfin; [|inversion Hm].
  assert (Hm' : sameOutsideMargins el2 el') by (by inversion Hm).
  destruct Hm' as (Hc & Hk & Hs).
  exists el'. split; [done|]. split.
  { intros p Hp1 Hp2. rewrite Hs by done. by apply S2. }
  assert (Hsame : r ∉ maybeNeedsMoveInsideViewport a3 → el' = el2).
  { intros Hr. pose proof (finishUpdate_heap_other pg enteredText a3 r Hr) as Hf.
    rewrite updateHints_finish, E3, Hf, H3 in Hfin. congruence. }
  destruct u as [j|j matched rest hl].
  - rewrite <- M2. apply Hsame. intros Hr.
    destruct (Hq Hr) as [(? & ? & ? & ?) _]. done.
  - destruct M2 as (M1 & M2 & M3). split; [congruence|]. split; [congruence|].
    intros Hcase. rewrite <- (M3 Hcase). f_equal. apply Hsame. intros Hr.
    destruct (Hq Hr) as [(? & ? & ? & Eu) Ht]. injection Eu as _ -> _ _.
    destruct Hcase as [Hcase|Hcase]; done.
Qed.

Lemma X11_update_effect_witness :
  ∃ el el',
    heap twoHints !! 3 = Some el ∧
    heap (updateHints Example.page ([] ++ [Update 0 "A" "" true] ++ [Hide 1])
            "a" twoHints) !! 3 = Some el' ∧
    children el' = [MatchedSpan "A"; TextNode ""].
Proof.
  assert (Hnd : NoDup (hints twoHints)).
  { assert (Hh : hints twoHints = [3; 4]) by (vm_compute; reflexivity).
    rewrite Hh. apply NoDup_cons. split.
    - rewrite list_elem_of_singleton. discriminate.
    - apply NoDup_singleton. }
  assert (Hi : hints twoHints !! 0 = Some 3) by (vm_compute; reflexivity).
  destruct (heap twoHints !! 3) as [el|] eqn:He;
    [|vm_compute in He; discriminate He].
  assert (Ho : ∀ u', u' ∈ [] ++ [Hide 1] → index u' ≠ 0).
  { intros u' Hu'. apply list_elem_of_singleton in Hu' as ->. discriminate. }
  destruct (X11_update_effect Example.page [] (Update 0 "A" "" true) [Hide 1]
              "a" twoHints 0 3 el Hnd Hi He eq_refl Ho)
    as (el' & H' & _ & Hc & _).
  exists el, el'. split; [reflexivity|]. split; [exact H'|exact Hc].
Defined.
Lemma finishUpdate_fields pg enteredText a :
  let w2 :=
    if decide (enteredText = "")
    then removeTitle
           (if decide (numHidden a = length (hints (current a)))
            then insertShruggie (current a) else removeShruggie (current a))
    else insertTitle (replaceWhitespace enteredText)
           (if decide (numHidden a = length (hints (current a)))
            then insertShruggie (current a) else removeShruggie (current a)) in
  root (finishUpdate pg enteredText a) = root w2 ∧
  titleText (finishUpdate pg enteredText a) = titleText w2 ∧
  enteredTextChars (finishUpdate pg enteredText a) = enteredText.
Proof.
  cbv zeta. unfold finishUpdate. cbv zeta.
  set (w2 := if decide (enteredText = "") then _ else _).
  destruct (maybeNeedsMoveInsideViewport a) as [|x q]; [done|].
  destruct (moveInsideViewport_frame pg (x :: q) (getViewport pg) w2) as [F _].
  unfold frame in F. cbn [root titleText enteredTextChars with_enteredTextChars].
  split; [congruence|]. split; [congruence|done].
Qed.

Lemma not_title_removed (l : list RootNode) :
  RTitle ∉ filter (λ c, negb (isTitle c)) l.
Proof. intros H. apply list_elem_of_filter in H as [H _]. done. Qed.

(** X12: [updateHints] records the filter text; it shows the title exactly
    when the text is not empty, as the last child of the shadow root and
    with the text's white space replaced by no-break spaces, and removes
    the title when the text is empty. *)
Theorem X12_update_title pg updates enteredText w :
  let w' := updateHints pg updates enteredText w in
  enteredTextChars w' = enteredText ∧
  (RTitle ∈ root w' ↔ enteredText ≠ "") ∧
  (enteredText ≠ "" →
     titleText w' = replaceWhitespace enteredText ∧
     last (root w') = Some RTitle) ∧
  (enteredText = "" → titleText w' = titleText w).
Proof.
  cbv zeta. rewrite updateHints_finish.
  destruct (updateLoop_frame pg enteredText updates w) as (F & _).
  cbv zeta in F. revert F. generalize (updateLoop pg enteredText updates w).
  intros a F. destruct (finishUpdate_fields pg enteredText a) as (R & T & E).
  cbv zeta in R, T. rewrite R, T, E. clear R T E. split; [done|].
  set (w1 := if decide (numHidden a = _) then _ else _).
  assert (T1 : titleText w1 = titleText w).
  { unfold w1, frame in *. destruct (decide (numHidden a = _)); cbn; congruence. }
  destruct (decide (enteredText = "")) as [He|He].
  - split; [|split; [done|]].
    + split; [|done]. intros H. by apply not_title_removed in H.
    + intros _. exact T1.
  - split; [|split; [|done]].
    + split; [done|]. intros _. unfold insertTitle, rootAppendUnique.
      cbn [root with_root]. apply elem_of_app. right.
      by apply list_elem_of_singleton.
    + intros _. split; [done|]. unfold insertTitle, rootAppendUnique.
      cbn [root with_root]. apply last_snoc.
Qed.
(** ** Text rectangles *)

Lemma filter_isTextRect_map frameId boxes :
  filter (λ c, isTextRect (Some frameId) c) (map (RTextRect frameId) boxes) =
    RTextRect frameId <$> boxes.
Proof.
  apply filter_all_id. intros c Hc. apply list_elem_of_In, in_map_iff in Hc.
  destruct Hc as (b & <- & _). cbn. rewrite bool_decide_eq_true_2 by done. done.
Qed.

Lemma filter_not_isTextRect_map frameId boxes :
  filter (λ c, negb (isTextRect (Some frameId) c)) (map (RTextRect frameId) boxes)
    = [].
Proof.
  apply filter_none_nil. intros c Hc. apply list_elem_of_In, in_map_iff in Hc.
  destruct Hc as (b & <- & _). cbn. rewrite bool_decide_eq_true_2 by done.
  cbn. tauto.
Qed.

(** X13: a [RenderTextRects] message replaces the text rectangles of its
    frame: afterwards the shadow root holds, for that frame, exactly the
    rectangles of the message, in order, and every other child is where it
    was.  [UnrenderTextRects] removes the text rectangles of all frames and
    nothing else.  Neither touches the hints. *)
Theorem X13_text_rects pg boxes frameId w :
  let w1 := onMessage pg (ToRendererMsg (RenderTextRects boxes frameId)) w in
  let w2 := onMessage pg (ToRendererMsg UnrenderTextRects) w in
  filter (λ c, isTextRect (Some frameId) c) (root w1) = RTextRect frameId <$> boxes ∧
  filter (λ c, negb (isTextRect (Some frameId) c)) (root w1) =
    filter (λ c, negb (isTextRect (Some frameId) c)) (root w) ∧
  root w1 =
    filter (λ c, negb (isTextRect (Some frameId) c)) (root w) ++
    (RTextRect frameId <$> boxes) ∧
  (∀ f b, RTextRect f b ∉ root w2) ∧
  (∀ c, isTextRect None c = false → (c ∈ root w2 ↔ c ∈ root w)) ∧
  hints w1 = hints w ∧ hints w2 = hints w ∧ heap w1 = heap w ∧ heap w2 = heap w.
Proof.
  cbv zeta. cbn [onMessage].
  unfold renderTextRects, unrenderTextRects, rootRemove.
  cbn [root with_root hints heap].
  split; [|split; [|split; [|split; [|split]]]].
  - rewrite filter_app, filter_isTextRect_map.
    rewrite (filter_none_nil (λ c, isTextRect (Some frameId) c)); [done|].
    intros c Hc. apply list_elem_of_filter in Hc as [Hc _].
    intros H. destruct (isTextRect (Some frameId) c); [exact Hc|exact H].
  - rewrite filter_app, filter_not_isTextRect_map, app_nil_r.
    apply filter_all_id. intros c Hc. by apply list_elem_of_filter in Hc as [Hc _].
  - done.
  - intros f b H. apply list_elem_of_filter in H as [H _]. done.
  - intros c Hc. rewrite list_elem_of_filter, Hc. cbn. tauto.
  - done.
Qed.

(** ** The deferred teardowns, from the request to the timer *)

Lemma filter_ext_elem {A} (P Q : A → Prop) `{∀ x, Decision (P x)}
  `{∀ x, Decision (Q x)} (l : list A) :
  (∀ x, x ∈ l → P x ↔ Q x) → filter P l = filter Q l.
Proof.
  induction l as [|a l IH]; intros Hext; [done|].
  assert (Ha : P a ↔ Q a) by (apply Hext, elem_of_cons; by left).
  rewrite !filter_cons. rewrite IH by (intros x Hx; apply Hext, elem_of_cons; by right).
  destruct (decide (P a)), (decide (Q a)); tauto.
Qed.

Lemma foldl_rootRemove_root (l : list ref) : ∀ w,
  root (foldl (fun w r => rootRemove (isHint r) w) w l) =
    filter (λ c, keptBy l c) (root w).
Proof.
  induction l as [|r l IH]; intros w; cbn [foldl].
  - symmetry. apply filter_all_id. intros c _. by destruct c.
  - rewrite IH. unfold rootRemove. cbn [root with_root].
    rewrite list_filter_filter. apply list_filter_iff. intros c.
    destruct c as [|r'| | |]; cbn; try tauto.
    rewrite !bool_decide_spec, not_elem_of_cons.
    destruct (decide (r' = r)) as [->|Hne].
    + rewrite bool_decide_eq_true_2 by done. cbn. tauto.
    + rewrite bool_decide_eq_false_2 by done. cbn. tauto.
Qed.

Lemma cancelPending_nil w : onePending w → cancelPending w = [].
Proof.
  intros [H _]. unfold cancelPending.
  destruct (unrenderTimeoutId w) as [id|]; [|done].
  destruct H as (t & -> & Ht). rewrite filter_cons_False; [done|].
  intros Hn. by apply Hn.
Qed.

Lemma unrenderToTitle_fields text w :
  onePending w →
  let w1 := unrenderToTitle text w in
  timers w1 = [newTimer TitleCallback w] ∧
  unrenderTimeoutId w1 = Some (nextTimeoutId w) ∧
  nextTimeoutId w1 = S (nextTimeoutId w) ∧
  root w1 = filter (λ c, negb (isTitle c)) (root w) ++ [RTitle] ∧
  titleText w1 = text ∧ hints w1 = hints w ∧ rects w1 = rects w ∧
  heap w1 = heap w ∧ document w1 = document w ∧ observing w1 = observing w ∧
  listeners w1 = listeners w ∧ trace w1 = trace w.
Proof.
  intros H. pose proof (cancelPending_nil w H) as Hc. unfold cancelPending in Hc.
  cbv zeta. unfold unrenderToTitle.
  destruct (unrenderTimeoutId w) as [id|]; cbn; rewrite Hc; done.
Qed.

Lemma unrenderDelayed_fields w :
  onePending w → unrenderTimeoutId w = None →
  unrenderDelayed w =
    with_unrenderTimeoutId (Some (nextTimeoutId w))
      (with_nextTimeoutId (S (nextTimeoutId w))
         (with_timers [newTimer UnrenderCallback w] w)).
Proof.
  intros [H _] Hn. unfold unrenderDelayed. rewrite Hn in *. cbn. by rewrite H.
Qed.
(** X14: the title teardown, from the request to its timer.  In a reachable
    state, once the timer of an [Unrender] request with a title has fired,
    the hints, the cached rectangles and the text rectangles are gone and
    no timer is pending, while the title, with the requested text, is the
    last child of the shadow root after the stylesheet and the placeholder
    that were there; the container stays in the document, observed, with
    its listeners. *)
Theorem X14_title_teardown pg text w t :
  reachable w →
  let w1 := onMessage pg (ToRendererMsg (Unrender (title text))) w in
  t ∈ timers w1 →
  let w2 :=
    runCallback (callback t)
      (with_timers (filter (λ t', timerId t' ≠ timerId t) (timers w1)) w1) in
  step w1 w2 ∧
  hints w2 = [] ∧ rects w2 = ∅ ∧ timers w2 = [] ∧ unrenderTimeoutId w2 = None ∧
  root w2 = filter (λ c, isChrome c) (root w) ++ [RTitle] ∧
  titleText w2 = text ∧ heap w2 = heap w ∧
  document w2 = document w ∧ observing w2 = observing w ∧
  listeners w2 = listeners w.
Proof.
  intros R. cbv zeta. cbn [onMessage]. intros Ht.
  split; [by apply step_timer|].
  destruct (unrenderToTitle_fields text w (reachable_onePending w R))
    as (T & U & N & Rt & Tt & Hh & Rc & Hp & D & O & L & _).
  cbv zeta in *. revert Ht T U N Rt Tt Hh Rc Hp D O L.
  generalize (unrenderToTitle text w). intros w1 Ht T U N Rt Tt Hh Rc Hp D O L.
  rewrite T in Ht. apply list_elem_of_singleton in Ht. subst t.
  rewrite T. change (callback (newTimer TitleCallback w)) with TitleCallback.
  change (timerId (newTimer TitleCallback w)) with (nextTimeoutId w).
  rewrite filter_cons_False by (intros Hx; by apply Hx). rewrite filter_nil.
  unfold runCallback. cbv zeta.
  set (wa := with_unrenderTimeoutId None (with_timers [] w1)).
  assert (Hf : ∀ l : list ref, ∀ w0 : World,
            let w' := foldl (fun w r => rootRemove (isHint r) w) w0 l in
            timers w' = timers w0 ∧ titleText w' = titleText w0 ∧
            heap w' = heap w0 ∧ document w' = document w0 ∧
            observing w' = observing w0 ∧ listeners w' = listeners w0 ∧
            unrenderTimeoutId w' = unrenderTimeoutId w0).
  { induction l as [|r l IH]; intros w0; [done|].
    cbn [foldl].
    destruct (IH (rootRemove (isHint r) w0)) as (A & B & C & E & F & G & I).
    cbv zeta in *. by rewrite A, B, C, E, F, G, I. }
  destruct (Hf (hints wa) wa) as (A & B & C & E & F & G & I).
  pose proof (foldl_rootRemove_root (hints wa) wa) as Hroot.
  cbv zeta in A, B, C, E, F, G, I. revert A B C E F G I Hroot.
  generalize (foldl (fun w r => rootRemove (isHint r) w) wa (hints wa)).
  intros wf A B C E F G I Hroot.
  unfold unrenderTextRects, rootRemove.
  cbn [hints rects timers unrenderTimeoutId root titleText heap document
       observing listeners with_rects with_hints with_root].
  rewrite A, B, C, E, F, G, I, Hroot.
  change (hints wa) with (hints w1). change (root wa) with (root w1).
  change (timers wa) with (@nil Timer).
  change (unrenderTimeoutId wa) with (@None nat).
  change (titleText wa) with (titleText w1). change (heap wa) with (heap w1).
  change (document wa) with (document w1).
  change (observing wa) with (observing w1).
  change (listeners wa) with (listeners w1).
  split; [done|]. split; [done|]. split; [done|].
  split; [done|]. split; [|by rewrite Tt, Hp, D, O, L].
  rewrite Rt, Hh, !filter_app.
  destruct (reachable_domInv w R) as ((_ & _ & Hs) & _).
  f_equal.
  rewrite !list_filter_filter. apply filter_ext_elem. intros c Hc.
  destruct c as [|r| | |]; cbn; try tauto.
  assert (Hr : r ∈ hints w).
  { rewrite <- Hs. apply list_elem_of_omap. exists (RHint r). done. }
  rewrite bool_decide_eq_false_2 by tauto. cbn. tauto.
Qed.

Lemma X14_title_teardown_witness :
  reachable twoHints ∧
  ∃ t, t ∈ timers (onMessage Example.page
                     (ToRendererMsg (Unrender (title "Example"))) twoHints) ∧
       hints (runCallback (callback t)
                (with_timers
                   (filter (λ t', timerId t' ≠ timerId t)
                      (timers (onMessage Example.page
                                 (ToRendererMsg (Unrender (title "Example")))
                                 twoHints)))
                   (onMessage Example.page
                      (ToRendererMsg (Unrender (title "Example"))) twoHints)))
         = [].
Proof.
  split; [exact reachable_twoHints|].
  assert (Ht : newTimer TitleCallback twoHints ∈
               timers (onMessage Example.page
                         (ToRendererMsg (Unrender (title "Example"))) twoHints)).
  { apply list_elem_of_lookup. exists 0. vm_compute. reflexivity. }
  exists (newTimer TitleCallback twoHints). split; [exact Ht|].
  exact (proj1 (proj2 (X14_title_teardown Example.page "Example" twoHints _
                         reachable_twoHints Ht))).
Defined.

(** X15: a delayed teardown, from the request to its timer.  In a
    reachable state without a pending teardown, once the timer of an
    [Unrender] request with a delay has fired, the state is the one an
    immediate teardown leaves, but for the timer identifier that was used
    up. *)
Theorem X15_delayed_teardown pg w t :
  reachable w → unrenderTimeoutId w = None →
  let w1 := onMessage pg (ToRendererMsg (Unrender delayed)) w in
  t ∈ timers w1 →
  step w1
    (runCallback (callback t)
       (with_timers (filter (λ t', timerId t' ≠ timerId t) (timers w1)) w1)) ∧
  runCallback (callback t)
    (with_timers (filter (λ t', timerId t' ≠ timerId t) (timers w1)) w1) =
    with_nextTimeoutId (S (nextTimeoutId w)) (unrender w).
Proof.
  intros R Hn. cbv zeta. cbn [onMessage]. intros Ht.
  split; [by apply step_timer|].
  pose proof (reachable_onePending w R) as P.
  pose proof (cancelPending_nil w P) as Hc.
  rewrite (unrenderDelayed_fields w P Hn) in *.
  cbn [timers with_unrenderTimeoutId with_nextTimeoutId with_timers] in *.
  apply list_elem_of_singleton in Ht. subst t.
  cbn [callback newTimer timerId runCallback].
  rewrite filter_cons_False by (intros Hx; by apply Hx).
  rewrite !unrender_eq. unfold cancelPending in *. rewrite Hn in Hc.
  cbn. rewrite Hn, Hc. reflexivity.
Qed.

Lemma X15_delayed_teardown_witness :
  reachable twoHints ∧
  ∃ t, t ∈ timers (onMessage Example.page (ToRendererMsg (Unrender delayed))
                     twoHints) ∧
       runCallback (callback t)
         (with_timers
            (filter (λ t', timerId t' ≠ timerId t)
               (timers (onMessage Example.page
                          (ToRendererMsg (Unrender delayed)) twoHints)))
            (onMessage Example.page (ToRendererMsg (Unrender delayed)) twoHints))
       = with_nextTimeoutId (S (nextTimeoutId twoHints)) (unrender twoHints).
Proof.
  split; [exact reachable_twoHints|].
  assert (Hn : unrenderTimeoutId twoHints = None) by (vm_compute; reflexivity).
  assert (Ht : newTimer UnrenderCallback twoHints ∈
               timers (onMessage Example.page
                         (ToRendererMsg (Unrender delayed)) twoHints)).
  { apply list_elem_of_lookup. exists 0. vm_compute. reflexivity. }
  exists (newTimer UnrenderCallback twoHints). split; [exact Ht|].
  exact (proj2 (X15_delayed_teardown Example.page twoHints _
                  reachable_twoHints Hn Ht)).
Defined.

(** ** The container in the page *)

Lemma prepare_fields pg w :
  document (prepare pg w) = appendContainer (removeContainers (document w)) ∧
  observing (prepare pg w) = true ∧ listeners (prepare pg w) = 2 ∧
  unrenderTimeoutId (prepare pg w) = None ∧
  timers (prepare pg w) = cancelPending w ∧
  heap (prepare pg w) = heap w.
Proof.
  unfold prepare. rewrite unrender_eq. cbn.
  destruct (parsedCSS w); [done|].
  destruct (BROWSER pg); [done|]. by destruct (styleSheetNull pg).
Qed.

Lemma appendContainer_clean r i kids :
  (∀ n, n ∈ allNodes (DocEl r i kids) → n.1 ≠ containerRef ∧ n.2 ≠ CONTAINER_ID) →
  appendContainer (Some (DocEl r i kids)) =
    Some (DocEl r i (kids ++ [containerElement])) ∧
  querySelectorAll CONTAINER_ID (DocEl r i (kids ++ [containerElement])) =
    [containerRef].
Proof.
  intros Hc. split.
  - unfold appendContainer. rewrite remove_absent; [done|].
    intros Hin. apply list_elem_of_fmap in Hin as (n & Hn & Hin).
    destruct (Hc n Hin) as [H _]. by rewrite <- Hn in H.
  - assert (Hq : querySelectorAll CONTAINER_ID (DocEl r i kids) = []).
    { destruct (querySelectorAll CONTAINER_ID (DocEl r i kids)) as [|x l] eqn:E;
        [done|].
      assert (Hx : x ∈ querySelectorAll CONTAINER_ID (DocEl r i kids)).
      { rewrite E. apply elem_of_cons. by left. }
      apply elem_of_querySelectorAll in Hx. destruct (Hc _ Hx) as [_ H]. done. }
    cbn [querySelectorAll] in *. apply app_eq_nil in Hq as [Hq1 Hq2].
    rewrite Hq1, flat_map_app, Hq2. cbn.
    by rewrite decide_True by done.
Qed.

Lemma appendContainer_removeContainers doc :
  match removeContainers doc with
  | Some (DocEl r i kids) =>
      appendContainer (removeContainers doc) =
        Some (DocEl r i (kids ++ [containerElement]))
  | None => appendContainer (removeContainers doc) = None
  end ∧
  (appendContainer (removeContainers doc) = None ∨
   document_querySelectorAll CONTAINER_ID
     (appendContainer (removeContainers doc)) = [containerRef]).
Proof.
  pose proof (docNodes_removeContainers doc) as Hc.
  destruct (removeContainers doc) as [[r i kids]|]; [|by split; [|left]].
  destruct (appendContainer_clean r i kids) as [A Q].
  { intros n Hn. by apply Hc. }
  split; [done|]. right. rewrite A. exact Q.
Qed.

Lemma render_attachment pg elements w :
  is_Some (document w) →
  attachment (render pg elements w) = attachment (prepare pg w) ∧
  timing (render pg elements w) = timing (prepare pg w).
Proof.
  intros Hdoc. destruct (decide (elements = [])) as [->|Hne].
  - destruct Hdoc as [d Hd]. unfold render, renderStart. rewrite Hd.
    generalize (prepare pg w). intros w0. split; reflexivity.
  - destruct (render_nonempty pg elements w Hdoc Hne) as [F _].
    unfold loopEnd in F.
    pose proof (renderLoop_static pg (getViewport pg) (probe pg (prepare pg w)).2
                  elements 0 (startLoop (probe pg (prepare pg w)).1)) as S1.
    pose proof (probe_static pg (prepare pg w)) as S2.
    cbn [world startLoop] in S1. revert F S1 S2.
    generalize (world (renderLoop pg (getViewport pg) (probe pg (prepare pg w)).2
                         0 elements (startLoop (probe pg (prepare pg w)).1))).
    generalize (probe pg (prepare pg w)).1. generalize (prepare pg w).
    generalize (render pg elements w).
    intros w4 w1 w2 w3 F S1 S2. unfold frame, static, attachment, timing in *.
    split; congruence.
Qed.
Lemma attached_eq w w' : attachment w' = attachment w → attached w → attached w'.
Proof.
  unfold attachment, attached. intros E. injection E as -> -> ->. done.
Qed.

Lemma attached_frame w w' : frame w' = frame w → attached w → attached w'.
Proof. intros F. apply attached_eq. unfold frame, attachment in *. congruence. Qed.

Lemma attached_static w w' : static w' = static w → attached w → attached w'.
Proof. intros F. apply attached_eq. unfold static, attachment in *. congruence. Qed.

Lemma attached_unrender w : attached (unrender w).
Proof.
  left. rewrite unrender_eq. cbn [observing listeners document].
  split; [done|]. split; [done|]. apply querySelectorAll_removeContainers.
Qed.

Lemma attached_prepare pg w : attached (prepare pg w).
Proof.
  right. destruct (prepare_fields pg w) as (D & O & L & _).
  rewrite D, O, L. split; [done|]. split; [done|].
  apply appendContainer_removeContainers.
Qed.

Lemma attachment_insertShruggie w : attachment (insertShruggie w) = attachment w.
Proof. reflexivity. Qed.

Lemma loopResult_static pg elements w :
  static (world (loopResult pg elements w)) = static (prepare pg w).
Proof.
  unfold loopResult. cbv zeta.
  generalize (probe_static pg (prepare pg w)). generalize (prepare pg w).
  intros w0. generalize (probe pg w0). intros [w1 p] S2. cbn [fst snd] in *.
  rewrite renderLoop_static. exact S2.
Qed.

Lemma renderStart_attachment pg elements w :
  is_Some (document w) →
  attachment (renderStart pg elements w).1 = attachment (prepare pg w).
Proof.
  intros Hdoc. destruct (decide (elements = [])) as [->|Hne].
  - destruct Hdoc as [d Hd]. unfold renderStart. rewrite Hd. cbn [fst].
    apply attachment_insertShruggie.
  - destruct (renderStart_nonempty pg elements w Hdoc Hne) as [_ E].
    cbv zeta in E. rewrite E. cbn [fst].
    generalize (loopResult_static pg elements w). generalize (prepare pg w).
    generalize (loopResult pg elements w). intros l w0 S1.
    destruct (moveInsideViewport_frame pg (edgeElements l) (getViewport pg)
                (world l)) as [F _].
    revert F. generalize (moveInsideViewport pg (edgeElements l) (getViewport pg)
                            (world l)).1.
    intros w4 F. unfold frame, static, attachment in *. congruence.
Qed.

Lemma attached_renderStart pg elements w :
  attached w → attached (renderStart pg elements w).1.
Proof.
  intros H. destruct (document w) as [d|] eqn:Hd.
  - apply (attached_eq (prepare pg w)); [|apply attached_prepare].
    apply renderStart_attachment. by rewrite Hd.
  - unfold renderStart. by rewrite Hd.
Qed.

Lemma updateHints_attachment pg updates enteredText w :
  attachment (updateHints pg updates enteredText w) = attachment w.
Proof.
  rewrite updateHints_finish.
  destruct (updateLoop_frame pg enteredText updates w) as (F & _).
  cbv zeta in F. revert F. generalize (updateLoop pg enteredText updates w).
  intros a F. unfold finishUpdate. cbv zeta.
  set (w2 := if decide (enteredText = "") then _ else _).
  assert (H2 : attachment w2 = attachment w).
  { unfold w2, frame, attachment in *.
    destruct (decide (enteredText = "")), (decide (numHidden a = _)); cbn;
      congruence. }
  destruct (maybeNeedsMoveInsideViewport a) as [|r q]; [exact H2|].
  destruct (moveInsideViewport_frame pg (r :: q) (getViewport pg) w2) as [F2 _].
  revert F2. generalize (moveInsideViewport pg (r :: q) (getViewport pg) w2).1.
  intros w3 F2. unfold frame, attachment in *. cbn. congruence.
Qed.

Lemma foldl_rootRemove_attachment (l : list ref) : ∀ w,
  attachment (foldl (fun w r => rootRemove (isHint r) w) w l) = attachment w.
Proof.
  induction l as [|r l IH]; intros w; [done|]. cbn [foldl]. by rewrite IH.
Qed.

Lemma attached_runCallback cb w : attached w → attached (runCallback cb w).
Proof.
  destruct cb; [intros _; apply attached_unrender|].
  apply attached_eq. unfold runCallback. cbv zeta.
  pose proof (foldl_rootRemove_attachment
                (hints (with_unrenderTimeoutId None w))
                (with_unrenderTimeoutId None w)) as E.
  revert E. generalize (foldl (fun w r => rootRemove (isHint r) w)
                          (with_unrenderTimeoutId None w)
                          (hints (with_unrenderTimeoutId None w))).
  intros wf E. exact E.
Qed.

Lemma attached_onMessage pg m w : attached w → attached (onMessage pg m w).
Proof.
  intros H. destruct m as [| message |]; cbn [onMessage]; [done| |done].
  destruct message as [|elements|updates enteredText|forward|boxes frameId| |mode].
  - done.
  - pose proof (attached_renderStart pg elements w H) as H'.
    destruct (renderStart pg elements w) as [w' [k|]]; cbn [fst] in H'; done.
  - revert H. apply attached_eq, updateHints_attachment.
  - revert H. apply attached_static. apply rotateHints_static.
  - done.
  - done.
  - destruct mode; [apply attached_unrender| |].
    + unfold unrenderDelayed. by destruct (unrenderTimeoutId w).
    + unfold unrenderToTitle. by destruct (unrenderTimeoutId w).
Qed.

Lemma attached_step w w' : step w w' → attached w → attached w'.
Proof.
  intros S H. destruct S as [pg m w|t w Ht|pg k ks w Hp|w].
  - by apply attached_onMessage.
  - by apply attached_runCallback.
  - apply (resume_inv attached).
    + intros k0.
      destruct (moveInsideViewport_frame pg (restElements k0) (captured k0)
                  (with_paints ks w)) as [F _].
      apply (attached_frame _ _ F). exact H.
    + intros w' H'. exact H'.
    + intros w' H'. exact H'.
    + exact H.
  - apply attached_unrender.
Qed.

Lemma reachable_attached w : reachable w → attached w.
Proof.
  induction 1 as [doc|w w' _ IH S]; [apply attached_unrender|].
  exact (attached_step w w' S IH).
Qed.

(** X16: an uninterrupted [render] on a document with a root element
    leaves the container attached exactly once, as the last child of the
    root element of the page as [unrender] cleaned it; the container is
    observed, the program holds its two resize listeners and remembers no
    teardown timer, and in a reachable state no timer is pending
    afterwards. *)
Theorem X16_render_attaches pg elements w :
  is_Some (document w) →
  let w' := render pg elements w in
  match removeContainers (document w) with
  | Some (DocEl r i kids) =>
      document w' = Some (DocEl r i (kids ++ [containerElement])) ∧
      document_querySelectorAll CONTAINER_ID (document w') = [containerRef]
  | None => document w' = None
  end ∧
  observing w' = true ∧ listeners w' = 2 ∧ unrenderTimeoutId w' = None ∧
  (reachable w → timers w' = []).
Proof.
  intros Hdoc. cbv zeta.
  destruct (render_attachment pg elements w Hdoc) as [A T].
  destruct (prepare_fields pg w) as (D & O & L & U & Tm & _).
  revert A T D O L U Tm. generalize (prepare pg w). generalize (render pg elements w).
  intros w' w0 A T D O L U Tm. unfold attachment, timing in A, T.
  injection A as -> -> ->. injection T as -> -> _.
  rewrite D, O, L, U, Tm.
  destruct (appendContainer_removeContainers (document w)) as [H1 H2].
  split; [|split; [done|split; [done|split; [done|]]]].
  - destruct (removeContainers (document w)) as [[r i kids]|]; [|done].
    split; [done|]. destruct H2 as [H2|H2]; [congruence|done].
  - intros R. apply cancelPending_nil, reachable_onePending, R.
Qed.

Lemma X16_render_attaches_witness :
  is_Some (document Example.start) ∧
  listeners (render Example.page twoTargets Example.start) = 2.
Proof.
  split; [exact example_has_root|].
  exact (proj1 (proj2 (proj2 (X16_render_attaches Example.page twoTargets
                                Example.start example_has_root)))).
Defined.

(** X17: in every reachable state the container is either detached,
    unobserved and without listeners, or observed with exactly its two
    listeners and, when the document still has a root element, attached
    exactly once: listeners and containers never accumulate over repeated
    renders. *)
Theorem X17_container_once w :
  reachable w →
  (observing w = false ∧ listeners w = 0 ∧
   document_querySelectorAll CONTAINER_ID (document w) = []) ∨
  (observing w = true ∧ listeners w = 2 ∧
   (document w = None ∨
    document_querySelectorAll CONTAINER_ID (document w) = [containerRef])).
Proof. exact (reachable_attached w). Qed.

Lemma X17_container_once_witness :
  reachable twoHints ∧ listeners twoHints = 2.
Proof.
  split; [exact reachable_twoHints|].
  destruct (X17_container_once twoHints reachable_twoHints)
    as [(H & _)|(_ & H & _)]; [|exact H].
  vm_compute in H. discriminate H.
Defined.

(** ** What [updateHints] measures *)

Lemma updateOne_requeued pg enteredText a u :
  maybeNeedsMoveInsideViewport (updateOne pg enteredText a u) =
    maybeNeedsMoveInsideViewport a ++
    (if decide (enteredText = enteredTextChars (current a)) then []
     else requeued (current a) [u]).
Proof.
  unfold updateOne, requeued. cbn [omap list_omap].
  destruct u as [i|i matched rest hl]; cbn [index].
  - destruct (hints (current a) !! i); cbn;
      destruct (decide (enteredText = _)); by rewrite app_nil_r.
  - destruct (hints (current a) !! i) as [child|] eqn:Hc.
    + destruct (decide (matched ≠ "")) as [Hm|Hm];
        destruct (decide (matched = "")) as [Hm'|Hm']; try tauto.
      * cbn. destruct (decide (enteredText = _)); by rewrite app_nil_r.
      * destruct (decide (enteredText ≠ _)) as [Ht|Ht]; cbn in Ht |- *;
          destruct (decide (enteredText = enteredTextChars (current a)))
            as [Ht'|Ht']; try tauto; rewrite ?app_nil_r, ?Hc; done.
    + cbn. destruct (decide (matched = "")); cbn;
        destruct (decide (enteredText = _)); by rewrite app_nil_r.
Qed.

Lemma requeued_app w us1 us2 :
  requeued w (us1 ++ us2) = requeued w us1 ++ requeued w us2.
Proof. apply omap_app. Qed.

Lemma requeued_hints w w' us : hints w' = hints w → requeued w' us = requeued w us.
Proof. intros E. unfold requeued. by rewrite E. Qed.

Lemma foldl_updateOne_requeued pg enteredText updates : ∀ a,
  maybeNeedsMoveInsideViewport (foldl (updateOne pg enteredText) a updates) =
    maybeNeedsMoveInsideViewport a ++
    (if decide (enteredText = enteredTextChars (current a)) then []
     else requeued (current a) updates).
Proof.
  induction updates as [|u updates IH]; intros a; cbn [foldl].
  - destruct (decide (enteredText = _)); by rewrite app_nil_r.
  - rewrite IH, updateOne_requeued.
    destruct (updateOne_frame pg enteredText a u) as (F & _). cbv zeta in F.
    unfold frame in F.
    assert (Hh : hints (current (updateOne pg enteredText a u)) = hints (current a))
      by congruence.
    assert (Ht : enteredTextChars (current (updateOne pg enteredText a u)) =
                 enteredTextChars (current a)) by congruence.
    rewrite Ht, (requeued_hints _ _ _ Hh).
    destruct (decide (enteredText = _)).
    + by rewrite !app_nil_r.
    + rewrite <- app_assoc. f_equal.
      change (u :: updates) with ([u] ++ updates). by rewrite requeued_app.
Qed.

Lemma requeued_elem w updates r : r ∈ requeued w updates → r ∈ hints w.
Proof.
  unfold requeued. intros H. apply list_elem_of_omap in H as (u & _ & Hu).
  destruct u as [i|i matched rest hl]; [done|].
  destruct (decide (matched = "")); [|done]. by eapply list_elem_of_lookup_2.
Qed.

Lemma measuredRefs_MissingChild (us : list HintUpdate) :
  measuredRefs (MissingChild <$> us) = [].
Proof. induction us as [|u us IH]; [done|exact IH]. Qed.

Lemma measuredRefs_app tr1 tr2 :
  measuredRefs (tr1 ++ tr2) = measuredRefs tr1 ++ measuredRefs tr2.
Proof. apply omap_app. Qed.

Lemma updateLoop_live pg enteredText updates w r :
  (∃ el, heap w !! r = Some el ∧ isHintElement el) →
  is_Some (heap (current (updateLoop pg enteredText updates w)) !! r).
Proof.
  intros (el & H1 & H2).
  destruct (keepsHintElements_updateLoop pg enteredText updates w r el H1 H2)
    as (el' & -> & _). eauto.
Qed.

(** X18: which hints a batch of [updateHints] measures.  In a reachable
    state the batch measures, after its loop and in the order of the
    batch, the hints that an [Update] without matched characters
    addresses, provided the filter text differs from the recorded one; it
    measures nothing when the text is unchanged.  The measured hints, and
    no others, get a fresh entry in the cache of rectangles. *)
Theorem X18_update_measures pg updates enteredText w :
  reachable w →
  let w' := updateHints pg updates enteredText w in
  let queue :=
    if decide (enteredText = enteredTextChars w) then []
    else requeued w updates in
  measuredRefs (trace w') = measuredRefs (trace w) ++ queue ∧
  (∀ r, is_Some (rects w' !! r) ↔ is_Some (rects w !! r) ∨ r ∈ queue) ∧
  (queue = [] → rects w' = rects w).
Proof.
  intros R. cbv zeta. destruct (reachable_domInv w R) as ((_ & L & _) & _).
  rewrite updateHints_finish.
  pose proof (foldl_updateOne_requeued pg enteredText updates
                {| current := w; numHidden := 0;
                   maybeNeedsMoveInsideViewport := [] |}) as Q.
  cbn [current maybeNeedsMoveInsideViewport app] in Q.
  fold (updateLoop pg enteredText updates w) in Q.
  destruct (updateLoop_frame pg enteredText updates w) as (F & Rc & T).
  assert (Hl : ∀ r, r ∈ hints w →
            is_Some (heap (current (updateLoop pg enteredText updates w)) !! r)).
  { intros r Hr. apply updateLoop_live, L, Hr. }
  cbv zeta in F, Rc, T. revert Q F Rc T Hl.
  generalize (updateLoop pg enteredText updates w). intros a Q F Rc T Hl.
  set (queue := if decide (enteredText = enteredTextChars w) then []
                else requeued w updates) in *.
  assert (Hq : ∀ r, r ∈ queue → r ∈ hints w).
  { unfold queue. intros r Hr. destruct (decide (enteredText = _));
      [by apply elem_of_nil in Hr|by eapply requeued_elem]. }
  unfold finishUpdate. cbv zeta. rewrite Q.
  set (w2 := if decide (enteredText = "") then _ else _).
  assert (H2 : trace w2 = trace (current a) ∧ rects w2 = rects (current a) ∧
               heap w2 = heap (current a)).
  { unfold w2. by destruct (decide (enteredText = "")), (decide (numHidden a = _)). }
  destruct H2 as (T2 & R2 & H2).
  assert (Tm : measuredRefs (trace w2) = measuredRefs (trace w)).
  { rewrite T2, T, measuredRefs_app. unfold missing.
    by rewrite measuredRefs_MissingChild, app_nil_r. }
  destruct queue as [|x q] eqn:Eq.
  - cbn [trace rects with_enteredTextChars]. rewrite Tm, app_nil_r, R2, Rc.
    split; [done|]. split; [|done]. intros r. split; [by left|].
    intros [H|H]; [done|by apply elem_of_nil in H].
  - destruct (moveInsideViewport_rects pg (x :: q) (getViewport pg) w2) as [A B].
    { intros r Hr. rewrite H2. apply Hl, Hq, Hr. }
    cbv zeta in A, B. cbn [trace rects with_enteredTextChars].
    rewrite B, Tm. split; [done|]. split; [|done].
    intros r. rewrite A, R2, Rc. done.
Qed.

Lemma X18_update_measures_witness :
  reachable twoHints ∧
  measuredRefs (trace (updateHints Example.page [Update 0 "" "A" false] "x"
                         twoHints)) =
    measuredRefs (trace twoHints) ++ [3].
Proof.
  split; [exact reachable_twoHints|].
  exact (proj1 (X18_update_measures Example.page [Update 0 "" "A" false] "x"
                  twoHints reachable_twoHints)).
Defined.

(** ** The two passes of [render] *)

Lemma renderOne_split pg viewport p index e l :
  let l' := renderOne pg viewport p index e l in
  let n := nextRef (world l) in
  nextRef (world l') = S n ∧
  if (numEdgeElements l <? MAX_IMMEDIATE_HINT_MOVEMENTS) && nearEdge pg viewport p e
  then edgeElements l' = edgeElements l ++ [n] ∧
       restOfElements l' = restOfElements l ∧
       numEdgeElements l' = S (length (edgeElements l))
  else edgeElements l' = edgeElements l ∧
       restOfElements l' = restOfElements l ++ [n] ∧
       numEdgeElements l' = numEdgeElements l.
Proof.
  cbv zeta. split; [by rewrite renderOne_world|].
  unfold renderOne, alloc, nearEdge. cbv zeta.
  destruct ((numEdgeElements l <? MAX_IMMEDIATE_HINT_MOVEMENTS) &&
            (outsideHorizontally pg viewport p e || outsideVertically pg viewport p e));
    cbn [edgeElements restOfElements numEdgeElements fst snd nextRef].
  - rewrite length_app. cbn. split; [done|]. split; [done|lia].
  - done.
Qed.

Lemma nearIdx_snoc pg viewport p pre e :
  nearIdx pg viewport p (pre ++ [e]) =
    nearIdx pg viewport p pre ++
    (if nearEdge pg viewport p e then [length pre] else []).
Proof.
  unfold nearIdx. rewrite length_app. cbn [length]. rewrite Nat.add_1_r, seq_S.
  cbn [Nat.add]. rewrite filter_app. f_equal.
  - apply filter_ext_elem. intros j Hj. apply elem_of_seq in Hj.
    rewrite lookup_app_l by lia. done.
  - rewrite filter_cons, filter_nil, lookup_app_r by lia.
    rewrite Nat.sub_diag. cbn.
    destruct (nearEdge pg viewport p e); [by rewrite decide_True|by rewrite decide_False].
Qed.

Lemma nearIdx_lt pg viewport p elements j :
  j ∈ nearIdx pg viewport p elements → j < length elements.
Proof.
  unfold nearIdx. intros H. apply list_elem_of_filter in H as [_ H].
  apply elem_of_seq in H. lia.
Qed.

Lemma firstPass_lt pg viewport p elements j :
  j ∈ firstPass pg viewport p elements → j < length elements.
Proof.
  unfold firstPass. intros H. apply (nearIdx_lt pg viewport p).
  by apply (subseteq_take MAX_IMMEDIATE_HINT_MOVEMENTS).
Qed.

Lemma firstPass_snoc pg viewport p pre e :
  firstPass pg viewport p (pre ++ [e]) =
    if (length (firstPass pg viewport p pre) <? MAX_IMMEDIATE_HINT_MOVEMENTS) &&
       nearEdge pg viewport p e
    then firstPass pg viewport p pre ++ [length pre]
    else firstPass pg viewport p pre.
Proof.
  unfold firstPass. rewrite nearIdx_snoc, length_take.
  set (X := nearIdx pg viewport p pre).
  destruct (Nat.ltb_spec (MAX_IMMEDIATE_HINT_MOVEMENTS `min` length X)
              MAX_IMMEDIATE_HINT_MOVEMENTS) as [Hlt|Hge]; cbn [andb].
  - assert (HX : length X < MAX_IMMEDIATE_HINT_MOVEMENTS) by lia.
    destruct (nearEdge pg viewport p e).
    + rewrite (take_ge X) by lia. apply take_ge. rewrite length_app. cbn. lia.
    + by rewrite app_nil_r.
  - apply take_app_le. lia.
Qed.

Lemma secondPass_snoc pg viewport p pre e :
  secondPass pg viewport p (pre ++ [e]) =
    if (length (firstPass pg viewport p pre) <? MAX_IMMEDIATE_HINT_MOVEMENTS) &&
       nearEdge pg viewport p e
    then secondPass pg viewport p pre
    else secondPass pg viewport p pre ++ [length pre].
Proof.
  unfold secondPass. rewrite firstPass_snoc, length_app. cbn [length].
  rewrite Nat.add_1_r, seq_S. cbn [Nat.add]. rewrite filter_app.
  assert (Hfresh : length pre ∉ firstPass pg viewport p pre).
  { intros H. apply firstPass_lt in H. lia. }
  destruct ((length (firstPass pg viewport p pre) <? MAX_IMMEDIATE_HINT_MOVEMENTS) &&
            nearEdge pg viewport p e).
  - rewrite (filter_cons_False _ (length pre)), filter_nil, app_nil_r.
    + apply filter_ext_elem. intros j Hj. apply elem_of_seq in Hj.
      rewrite not_elem_of_app, list_elem_of_singleton.
      split; [tauto|]. intros H. split; [done|lia].
    + intros H. apply H, elem_of_app. right. by apply list_elem_of_singleton.
  - by rewrite (filter_cons_True _ (length pre)), filter_nil by done.
Qed.

Lemma renderLoop_passes pg viewport p n0 : ∀ suf pre index l,
  nextRef (world l) = n0 + length pre →
  numEdgeElements l = length (edgeElements l) →
  edgeElements l = (λ j, n0 + j) <$> firstPass pg viewport p pre →
  restOfElements l = (λ j, n0 + j) <$> secondPass pg viewport p pre →
  let l' := renderLoop pg viewport p index suf l in
  edgeElements l' = (λ j, n0 + j) <$> firstPass pg viewport p (pre ++ suf) ∧
  restOfElements l' = (λ j, n0 + j) <$> secondPass pg viewport p (pre ++ suf).
Proof.
  induction suf as [|e suf IH]; intros pre index l Hn Hnum He Hr; cbn [renderLoop].
  - cbv zeta. by rewrite app_nil_r.
  - destruct (renderOne_split pg viewport p index e l) as [Hn1 H1].
    cbv zeta in Hn1, H1. rewrite Hnum, He, length_fmap in H1.
    pose proof (firstPass_snoc pg viewport p pre e) as F.
    pose proof (secondPass_snoc pg viewport p pre e) as S.
    change (pre ++ e :: suf) with (pre ++ [e] ++ suf). rewrite app_assoc.
    apply IH.
    + rewrite Hn1, Hn, length_app. cbn. lia.
    + destruct ((length (firstPass pg viewport p pre) <? MAX_IMMEDIATE_HINT_MOVEMENTS) &&
                nearEdge pg viewport p e); destruct H1 as (E1 & E2 & E3).
      * rewrite E3, E1, length_app, length_fmap. cbn. lia.
      * by rewrite E3, E1, length_fmap.
    + destruct ((length (firstPass pg viewport p pre) <? MAX_IMMEDIATE_HINT_MOVEMENTS) &&
                nearEdge pg viewport p e); destruct H1 as (E1 & E2 & E3).
      * rewrite E1, F, fmap_app, Hn. done.
      * by rewrite E1, F.
    + destruct ((length (firstPass pg viewport p pre) <? MAX_IMMEDIATE_HINT_MOVEMENTS) &&
                nearEdge pg viewport p e); destruct H1 as (E1 & E2 & E3).
      * by rewrite E2, S, Hr.
      * rewrite E2, S, fmap_app, Hr, Hn. done.
Qed.
Lemma loopResult_passes pg elements w :
  let l := loopResult pg elements w in
  ∃ n, hints (world l) = (λ j, n + j) <$> seq 0 (length elements) ∧
    edgeElements l =
      (λ j, n + j) <$> firstPass pg (getViewport pg) (probed pg w) elements ∧
    restOfElements l =
      (λ j, n + j) <$> secondPass pg (getViewport pg) (probed pg w) elements.
Proof.
  cbv zeta. unfold loopResult, probed. cbv zeta.
  pose proof (probe_hints pg (prepare pg w)) as Hh.
  rewrite prepare_hints in Hh. revert Hh.
  generalize (probe pg (prepare pg w)). intros [w0 p] Hh. cbn [fst snd] in *.
  exists (nextRef w0).
  destruct (renderLoop_spec pg (getViewport pg) p elements 0 (startLoop w0))
    as (_ & H & _).
  cbv zeta in H. cbn [world startLoop] in H. rewrite Hh in H. cbn [app] in H.
  split.
  { rewrite H. change (λ j, nextRef w0 + j) with (Nat.add (nextRef w0)).
    rewrite fmap_add_seq. by rewrite Nat.add_0_r. }
  apply (renderLoop_passes pg (getViewport pg) p (nextRef w0) elements [] 0
           (startLoop w0)); cbn [world startLoop length edgeElements
                                 restOfElements numEdgeElements]; [lia|done..].
Qed.

(** X20: which hints [render] moves in which pass.  Up to its first
    suspension [render] measures, in order, the hints of the first
    [MAX_IMMEDIATE_HINT_MOVEMENTS] targets that are near an edge of the
    viewport, and it leaves all other hints, in order, to the pass after the
    first paint. *)
Theorem X20_render_passes pg elements w w1 k :
  renderStart pg elements w = (w1, Some k) →
  ∃ n, hints w1 = (λ j, n + j) <$> seq 0 (length elements) ∧
    measuredRefs (trace w1) =
      measuredRefs (trace w) ++
      ((λ j, n + j) <$> firstPass pg (getViewport pg) (probed pg w) elements) ∧
    restElements k =
      (λ j, n + j) <$> secondPass pg (getViewport pg) (probed pg w) elements.
Proof.
  intros E.
  assert (Hd : is_Some (document w)).
  { unfold renderStart in E. destruct (document w); [eauto|discriminate E]. }
  assert (Hne : elements ≠ []).
  { intros ->. unfold renderStart in E. destruct (document w); discriminate E. }
  destruct (renderStart_nonempty pg elements w Hd Hne) as [_ E'].
  cbv zeta in E'. rewrite E' in E. injection E as <- <-.
  destruct (loopResult_world pg elements w) as (_ & Hlive & P & _ & _ & T0 & _).
  destruct (loopResult_passes pg elements w) as (n & Hh & He & Hr).
  cbv zeta in Hlive, P, T0, Hh, He, Hr. set (l := loopResult pg elements w) in *.
  assert (Le : ∀ r, r ∈ edgeElements l → is_Some (heap (world l) !! r)).
  { intros r Hr'. apply Hlive. rewrite <- P. apply elem_of_app. by left. }
  destruct (moveInsideViewport_rects pg (edgeElements l) (getViewport pg) (world l) Le)
    as [_ M].
  destruct (moveInsideViewport_frame pg (edgeElements l) (getViewport pg) (world l))
    as [Fr _].
  cbv zeta in M. exists n. rewrite T0 in M. rewrite He in M at 2.
  split; [|split; [exact M|exact Hr]].
  unfold frame in Fr. rewrite <- Hh. congruence.
Qed.

Lemma X20_render_passes_witness :
  ∃ w1 k, renderStart Example.page twoTargets Example.start = (w1, Some k) ∧
    ∃ n, restElements k =
           (λ j, n + j) <$> secondPass Example.page (getViewport Example.page)
                              (probed Example.page Example.start) twoTargets.
Proof.
  destruct (renderStart Example.page twoTargets Example.start) as [w1 [k|]] eqn:E;
    [|vm_compute in E; discriminate E].
  exists w1, k. split; [reflexivity|].
  destruct (X20_render_passes Example.page twoTargets Example.start w1 k E)
    as (n & _ & _ & H).
  exists n. exact H.
Defined.

(** ** One rotation of a stack *)

Lemma sortedBy_cons z a l :
  sortedBy z (a :: l) ↔ (∀ b, b ∈ l → (z a ≤ z b)%Z) ∧ sortedBy z l.
Proof.
  split.
  - intros H. split.
    + intros b Hb. apply list_elem_of_lookup in Hb as [j Hj].
      apply (H 0 (S j)); [lia|done|done].
    + intros i j x y Hij Hi Hj. apply (H (S i) (S j)); [lia|done|done].
  - intros [Ha Hl] i j x y Hij Hi Hj. destruct j as [|j]; [lia|].
    cbn in Hj. destruct i as [|i].
    + cbn in Hi. injection Hi as <-. apply Ha. by eapply list_elem_of_lookup_2.
    + cbn in Hi. apply (Hl i j); [lia|done|done].
Qed.

Lemma insertBy_sorted z a l :
  sortedBy z l → sortedBy z (insertBy (λ x y, ((z x - z y) * 1)%Z) a l).
Proof.
  induction l as [|b l IH]; intros Hs; cbn [insertBy].
  - apply sortedBy_cons. split; [|done]. intros b Hb. by apply elem_of_nil in Hb.
  - apply sortedBy_cons in Hs as [Hb Hl].
    destruct (Z.leb_spec ((z a - z b) * 1) 0) as [Hle|Hgt].
    + apply sortedBy_cons. split.
      * intros x Hx. apply elem_of_cons in Hx as [->|Hx]; [lia|].
        specialize (Hb x Hx). lia.
      * apply sortedBy_cons. done.
    + apply sortedBy_cons. split; [|by apply IH].
      intros x Hx. rewrite insertBy_Permutation in Hx.
      apply elem_of_cons in Hx as [->|Hx]; [lia|by apply Hb].
Qed.

Lemma sortBy_sorted z l :
  sortedBy z (sortBy (λ x y, ((z x - z y) * 1)%Z) l).
Proof.
  induction l as [|a l IH]; unfold sortBy in *; cbn [foldr].
  - intros i j a b _ Hi. done.
  - by apply insertBy_sorted.
Qed.

Lemma rotate_1_cons {A} (first : A) rest :
  rotate 1 (first :: rest) = rest ++ [first].
Proof.
  unfold rotate. cbn [length]. destruct rest as [|x rest]; [done|].
  rewrite Nat.mod_small by (cbn; lia). done.
Qed.

(** X22: one rotation of a stack of distinct, live hints.  With the stack
    ordered from the lowest stacking index to the highest, every hint takes
    the index of the next one and the hint on top takes the lowest index:
    the hint on top goes to the bottom and the others move up by one.
    Nodes outside the stack are untouched. *)
Theorem X22_rotateStack_cycle stack w :
  NoDup stack → (∀ r, r ∈ stack → is_Some (heap w !! r)) →
  let s := sortBy (λ a b, ((zIndexOf w a - zIndexOf w b) * 1)%Z) stack in
  let w' := rotateStack 1 stack w in
  s ≡ₚ stack ∧ sortedBy (zIndexOf w) s ∧
  zIndexText w' <$> s = rotate 1 (zIndexText w <$> s) ∧
  (∀ r, r ∉ stack → heap w' !! r = heap w !! r).
Proof.
  intros Hnd Hl. cbv zeta.
  pose proof (sortBy_Permutation
                (λ a b, ((zIndexOf w a - zIndexOf w b) * 1)%Z) stack) as Hp.
  pose proof (sortBy_sorted (zIndexOf w) stack) as Hs.
  unfold rotateStack. cbv zeta. revert Hp Hs.
  generalize (sortBy (λ a b, ((zIndexOf w a - zIndexOf w b) * 1)%Z) stack).
  intros s Hp Hs. split; [done|]. split; [done|].
  change (zIndexText w <$> s) with (map (zIndexText w) s).
  destruct (map (zIndexText w) s) as [|first rest] eqn:Em.
  { split; [|done]. destruct s; [done|discriminate Em]. }
  assert (Hlen : length s = length (rest ++ [first])).
  { rewrite length_app. cbn. rewrite Nat.add_comm. cbn.
    change (S (length rest)) with (length (first :: rest)).
    by rewrite <- Em, length_map. }
  destruct (foldl_setZ_spec (zip s (rest ++ [first])) w) as (O & _ & Z).
  { rewrite fst_zip by lia. by rewrite Hp. }
  { rewrite fst_zip by lia. intros r Hr. apply Hl. by rewrite <- Hp. }
  cbv zeta in *. rewrite fst_zip in O, Z by lia. rewrite snd_zip in Z by lia.
  split.
  - rewrite Z. by rewrite rotate_1_cons.
  - intros r Hr. apply O. by rewrite Hp.
Qed.

Lemma X22_rotateStack_cycle_witness :
  NoDup [3; 4] ∧
  sortBy (λ a b, ((zIndexOf twoHints a - zIndexOf twoHints b) * 1)%Z) [3; 4]
    ≡ₚ [3; 4].
Proof.
  assert (Hnd : NoDup [3; 4]).
  { apply NoDup_cons. split; [|apply NoDup_singleton].
    rewrite list_elem_of_singleton. discriminate. }
  split; [exact Hnd|].
  refine (proj1 (X22_rotateStack_cycle [3; 4] twoHints Hnd _)).
  intros r Hr. apply elem_of_cons in Hr as [->|Hr].
  - destruct (heap twoHints !! 3) as [el|] eqn:E;
      [by exists el|vm_compute in E; discriminate E].
  - apply list_elem_of_singleton in Hr as ->.
    destruct (heap twoHints !! 4) as [el|] eqn:E;
      [by exists el|vm_compute in E; discriminate E].
Defined.
Lemma Qleb_false x y : (x <=q y) = false ↔ (y < x)%Q.
Proof.
  split.
  - intros H. apply Qnot_le_lt. intros Hle. apply Qleb_le in Hle. congruence.
  - intros H. destruct (x <=q y) eqn:E; [|done].
    apply Qleb_le in E. exfalso. by apply (Qlt_not_le y x).
Qed.

(** X19: [overlaps] does not depend on the order of its arguments, and two
    rectangles fail to overlap exactly when one of them lies strictly
    beyond the other, horizontally or vertically: rectangles that only
    touch overlap. *)
Theorem X19_overlaps_symmetric a b :
  overlaps a b = overlaps b a ∧
  (overlaps a b = false ↔
   (r_right a < r_left b ∨ r_right b < r_left a ∨
    r_bottom a < r_top b ∨ r_bottom b < r_top a)%Q).
Proof.
  unfold overlaps. split.
  - destruct (r_left b <=q r_right a), (r_left a <=q r_right b),
      (r_top b <=q r_bottom a), (r_top a <=q r_bottom b); reflexivity.
  - rewrite <- !Qleb_false.
    destruct (r_left b <=q r_right a), (r_left a <=q r_right b),
      (r_top b <=q r_bottom a), (r_top a <=q r_bottom b); cbn; intuition congruence.
Qed.
(** X21: after an uninterrupted [render] on a document with a root
    element, the hint of every target is a live element whose only child is
    the text of the target's hint and whose only class is the hint class:
    a fresh hint is neither hidden nor highlighted, and has no matched
    characters. *)
Theorem X21_render_content pg elements w i e :
  is_Some (document w) → elements !! i = Some e →
  ∃ r el, hints (render pg elements w) !! i = Some r ∧
    heap (render pg elements w) !! r = Some el ∧
    children el = [TextNode (hint e)] ∧ classList el = {[HINT_CLASS]}.
Proof.
  intros Hd He. destruct (render_hint_nodes pg elements w Hd) as (n & Hh & Hn).
  destruct (Hn i e He) as (el & Hel & Hc & Hk & _).
  exists (n + i), el. split.
  - rewrite Hh. apply lookup_seq. split; [done|]. by eapply lookup_lt_Some.
  - split; [done|]. split; [by rewrite Hc|by rewrite Hk].
Qed.

Lemma X21_render_content_witness :
  is_Some (document Example.start) ∧
  ∃ r el, hints (render Example.page twoTargets Example.start) !! 1 = Some r ∧
    heap (render Example.page twoTargets Example.start) !! r = Some el ∧
    children el = [TextNode "B"].
Proof.
  split; [exact example_has_root|].
  destruct (X21_render_content Example.page twoTargets Example.start 1
              (Example.target 20 40 "B") example_has_root eq_refl)
    as (r & el & H1 & H2 & H3 & _).
  exists r, el. split; [exact H1|]. split; [exact H2|exact H3].
Defined.

(** * The keyboard shortcuts *)

Lemma Keyboard_table_entry c un sh :
  (c, (un, sh)) ∈ Keyboard.EN_US_QWERTY_TRANSLATIONS →
  Keyboard.get Keyboard.EN_US_QWERTY_TRANSLATIONS c = Some (un, sh) ∧
  Keyboard.startsWith c (Keyboard.lit "Key") = false ∧
  Keyboard.startsWith c (Keyboard.lit "Numpad") = false ∧
  length un = 1 ∧ length sh = 1 ∧
  un ≠ Keyboard.lit " " ∧ sh ≠ Keyboard.lit " ".
Proof.
  unfold Keyboard.EN_US_QWERTY_TRANSLATIONS. intros H.
  repeat (apply elem_of_cons in H as [H|H];
          [injection H as -> -> ->; vm_compute;
           repeat split; first [reflexivity|discriminate]|]).
  by apply elem_of_nil in H.
Qed.

(** X23: with "Ignore keyboard layout" on, a key whose code is one of the
    twenty-one digit and punctuation codes of the table is normalised to
    the en-US QWERTY character of the table for its shift state, whatever
    character the layout produced, and its shift state is dropped; the
    other modifiers are passed through. *)
Theorem X23_normalize_table toLowerCase keypress un sh :
  (Keyboard.code keypress, (un, sh)) ∈ Keyboard.EN_US_QWERTY_TRANSLATIONS →
  Keyboard.normalizeKeypress toLowerCase keypress true =
    {| Keyboard.n_key := if Keyboard.shift keypress then sh else un;
       Keyboard.n_alt := Keyboard.alt keypress;
       Keyboard.n_cmd := Keyboard.cmd keypress;
       Keyboard.n_ctrl := Keyboard.ctrl keypress;
       Keyboard.n_shift := None |}.
Proof.
  intros H.
  destruct (Keyboard_table_entry _ _ _ H) as (G & K & Np & L1 & L2 & S1 & S2).
  unfold Keyboard.normalizeKeypress, Keyboard.codeToEnUsQwerty. cbv zeta.
  rewrite Np, K, G. cbn [andb negb].
  destruct (Keyboard.shift keypress).
  - rewrite decide_False by done. by rewrite decide_True by done.
  - rewrite decide_False by done. by rewrite decide_True by done.
Qed.

Lemma X23_normalize_table_witness :
  Keyboard.n_key
    (Keyboard.normalizeKeypress (λ s, s)
       {| Keyboard.key := Keyboard.lit "-"; Keyboard.code := Keyboard.lit "Slash";
          Keyboard.alt := false; Keyboard.cmd := false; Keyboard.ctrl := true;
          Keyboard.shift := true |} true) = Keyboard.lit "?".
Proof.
  rewrite (X23_normalize_table (λ s, s) _ (Keyboard.lit "/") (Keyboard.lit "?")).
  - reflexivity.
  - apply list_elem_of_lookup. exists 20. reflexivity.
Defined.

(** X24: whatever the key and the setting, the normalised key is never a
    single space (a space becomes the name Space); the shift state is
    dropped exactly when the normalised key is one code unit long and is
    the state of the keypress otherwise; the other modifiers are passed
    through.  Without "Ignore keyboard layout", and for numpad codes with
    it, the key is the one the layout produced. *)
Theorem X24_normalize_shape toLowerCase keypress ignoreKeyboardLayout :
  let n := Keyboard.normalizeKeypress toLowerCase keypress ignoreKeyboardLayout in
  Keyboard.n_key n ≠ Keyboard.lit " " ∧
  (Keyboard.n_shift n = None ↔ length (Keyboard.n_key n) = 1) ∧
  (length (Keyboard.n_key n) ≠ 1 →
     Keyboard.n_shift n = Some (Keyboard.shift keypress)) ∧
  Keyboard.n_alt n = Keyboard.alt keypress ∧
  Keyboard.n_cmd n = Keyboard.cmd keypress ∧
  Keyboard.n_ctrl n = Keyboard.ctrl keypress ∧
  (ignoreKeyboardLayout = false ∨
   Keyboard.startsWith (Keyboard.code keypress) (Keyboard.lit "Numpad") = true →
   Keyboard.n_key n =
     if decide (Keyboard.key keypress = Keyboard.lit " ")
     then Keyboard.lit "Space" else Keyboard.key keypress).
Proof.
  cbv zeta. unfold Keyboard.normalizeKeypress. cbv zeta.
  set (rawKey := if ignoreKeyboardLayout && _ then _ else _).
  cbn [Keyboard.n_key Keyboard.n_shift Keyboard.n_alt Keyboard.n_cmd
       Keyboard.n_ctrl].
  split; [|split; [|split; [|split; [done|split; [done|split; [done|]]]]]].
  - destruct (decide (rawKey = Keyboard.lit " ")); [discriminate|done].
  - destruct (decide (length (if decide (rawKey = Keyboard.lit " ")
                              then Keyboard.lit "Space" else rawKey) = 1));
      split; done.
  - intros H. by rewrite decide_False.
  - intros H. unfold rawKey.
    destruct H as [H|H]; rewrite H; [done|]. by rewrite andb_false_r.
Qed.
